(** * Uncertainty-Aware-Adapter: the utilities of [utils.py]

    A shallow embedding of the prompt samplers, the truncated-normal
    initialiser, the L2 regulariser and the Generalised Energy Distance
    metric of [src/utils.py], and the properties the specification states
    about them; then the weight initialisers, the image preparation, the
    mask post-processor and the running average, with properties read off
    the program.

    Tensors and arrays are nested lists, outermost axis first.  Numbers are
    kept behind the interface [Numeric], with two instances: [binary64], the
    IEEE 754 doubles the program computes with (Rocq's primitive floats), on
    which every definition runs as the program does, and [exact], unbounded
    rationals with a NaN, on which the algebraic facts are proved; single
    precision, [binary32], is there for the tensors of the tensor library.
    Random draws come from an explicit tape of raw numbers, and a
    [MemoryError] is a flag of the environment.  What the program takes from
    its libraries (the components of a mask, the weight initialisers, the
    interpolation) is a parameter of the definition that uses it. *)

From Stdlib Require Import List ZArith QArith Qcanon Floats Lia Lqa Bool.
From Stdlib Require Import Permutation Sorted.
Import ListNotations.

Set Warnings "-inexact-float".
Open Scope Z_scope.

(** ** Numbers *)

(** The operations the program applies to its floating-point values. *)
Class Numeric (num : Type) : Type := {
  of_int : Z -> num;            (* an integer converted to a float *)
  smooth_lit : num;             (* the literal [1e-8] *)
  add : num -> num -> num;
  sub : num -> num -> num;
  mul : num -> num -> num;
  div : num -> num -> num;
  ltb : num -> num -> bool;     (* [a < b]; false when either is NaN *)
  isnan : num -> bool;
  to_int : num -> Z;            (* numpy's [astype("int")] *)
  int_of : num -> option Z      (* Python's [int(.)] *)
}.

Declare Scope num_scope.
Delimit Scope num_scope with num.
Infix "+" := add : num_scope.
Infix "-" := sub : num_scope.
Infix "*" := mul : num_scope.
Infix "/" := div : num_scope.

(** *** IEEE 754 binary64 *)

(** An int64 converted to a double; the integers of this file are pixel
    counts and lengths, far below 2^63. *)
Definition Z2float (z : Z) : float :=
  match z with
  | Z0 => 0%float
  | Zpos _ => PrimFloat.of_uint63 (Uint63.of_Z z)
  | Zneg p => PrimFloat.opp (PrimFloat.of_uint63 (Uint63.of_Z (Zpos p)))
  end.

(** The least 64-bit integer: what a cast to int64 yields, on x86-64, for
    NaN, the infinities and every value outside the range of int64. *)
Definition int64_min : Z := - 2 ^ 63.

Definition int64_cast (v : Z) : Z :=
  if (- 2 ^ 63 <=? v) && (v <? 2 ^ 63) then v else int64_min.

(** Truncation toward zero of a finite double. *)
Definition float_trunc (f : float) : option Z :=
  match Prim2SF f with
  | S754_zero _ => Some 0
  | S754_finite s m e =>
      let v := if 0 <=? e then Z.shiftl (Zpos m) e else Z.shiftr (Zpos m) (- e) in
      Some (if s then - v else v)
  | _ => None
  end.

Definition float2Z (f : float) : Z :=
  match float_trunc f with
  | Some v => int64_cast v
  | None => int64_min
  end.

(** A double that is neither NaN nor an infinity. *)
Definition finite64 (f : float) : bool :=
  match Prim2SF f with
  | S754_zero _ | S754_finite _ _ _ => true
  | _ => false
  end.

(** The double 2.0: mantissa 2^52, exponent -51. *)
Definition two_sf : spec_float := S754_finite false 4503599627370496 (-51).

#[export] Instance binary64 : Numeric float := {
  of_int := Z2float;
  smooth_lit := 1e-8%float;
  add := PrimFloat.add;
  sub := PrimFloat.sub;
  mul := PrimFloat.mul;
  div := PrimFloat.div;
  ltb := PrimFloat.ltb;
  isnan := PrimFloat.is_nan;
  to_int := float2Z;
  int_of := float_trunc
}.

(** *** Exact arithmetic

    Rationals in lowest terms, and a NaN for [0 / 0].  A quotient [a / 0]
    with [a <> 0], an infinity in binary64, has no value here and is sent to
    NaN as well: the program divides by a count plus [1e-8] or by the length
    of the list it has just summed, so it never forms one. *)
Inductive exact : Type :=
| Nan : exact
| Fin (q : Qc) : exact.

Definition exact_lift2 (f : Qc -> Qc -> Qc) (a b : exact) : exact :=
  match a, b with
  | Fin p, Fin q => Fin (f p q)
  | _, _ => Nan
  end.

Definition exact_div (a b : exact) : exact :=
  match a, b with
  | Fin p, Fin q => if Qeq_bool q 0 then Nan else Fin (p / q)%Qc
  | _, _ => Nan
  end.

Definition exact_ltb (a b : exact) : bool :=
  match a, b with
  | Fin p, Fin q => negb (Qle_bool q p)
  | _, _ => false
  end.

Definition exact_trunc (a : exact) : option Z :=
  match a with
  | Fin q => Some (Z.quot (Qnum q) (Zpos (Qden q)))
  | Nan => None
  end.

Definition exact_to_int (a : exact) : Z :=
  match exact_trunc a with
  | Some v => int64_cast v
  | None => int64_min
  end.

Definition Qc_of_Z (z : Z) : Qc := Q2Qc (inject_Z z).

(** The value of the literal [1e-8]. *)
Definition smooth_exact : Qc := Q2Qc (1 # 100000000).

#[export] Instance exact_arith : Numeric exact := {
  of_int := fun z => Fin (Qc_of_Z z);
  smooth_lit := Fin smooth_exact;
  add := exact_lift2 Qcplus;
  sub := exact_lift2 Qcminus;
  mul := exact_lift2 Qcmult;
  div := exact_div;
  ltb := exact_ltb;
  isnan := fun a => match a with Nan => true | Fin _ => false end;
  to_int := exact_to_int;
  int_of := exact_trunc
}.

(** An exact number that is not NaN. *)
Definition finite (v : exact) : Prop :=
  match v with
  | Fin _ => True
  | Nan => False
  end.

(** An exact number strictly between two rationals. *)
Definition within (lo hi : Qc) (v : exact) : Prop :=
  match v with
  | Fin q => (lo < q /\ q < hi)%Qc
  | Nan => False
  end.

(** ** Arrays *)

(** A small error monad: [None] is a raised exception. *)
Definition bind {A B : Type} (m : option A) (k : A -> option B) : option B :=
  match m with
  | Some a => k a
  | None => None
  end.

Notation "x <- m ;; k" := (bind m (fun x => k))
  (at level 61, m at next level, right associativity).
Notation "' p <- m ;; k" := (bind m (fun p => k))
  (at level 61, p pattern, m at next level, right associativity).

Fixpoint mapM {A B : Type} (f : A -> option B) (l : list A) : option (list B) :=
  match l with
  | [] => Some []
  | a :: l' => b <- f a ;; bs <- mapM f l' ;; Some (b :: bs)
  end.

Fixpoint zipWith {A B C : Type} (f : A -> B -> C) (a : list A) (b : list B) : list C :=
  match a, b with
  | a0 :: a', b0 :: b' => f a0 b0 :: zipWith f a' b'
  | _, _ => []
  end.

(** One axis of numpy's broadcasting: an axis of size 1 is stretched to the
    size of the other, equal sizes go element by element.  Sizes that numpy
    refuses (different, neither 1) are not told apart here: the arrays of
    this file have the shapes the program gives them. *)
Definition bcast {A B C : Type} (f : A -> B -> C) (a : list A) (b : list B) : list C :=
  match a, b with
  | [a0], _ => map (f a0) b
  | _, [b0] => map (fun ai => f ai b0) a
  | _, _ => zipWith f a b
  end.

Definition indexed {A : Type} (l : list A) : list (nat * A) :=
  combine (seq 0 (length l)) l.

Section Arrays.
Context {num : Type} `{Numeric num}.

(** [np.add.reduce]: the first element starts the sum, an empty sum is 0.
    The terms are added from the left; numpy adds long runs in blocks, which
    can change the rounding of a binary64 sum and nothing else. *)
Definition sum (l : list num) : num :=
  match l with
  | [] => of_int 0
  | a :: l' => fold_left add l' a
  end.

(** [np.mean]: the sum over the number of elements (NaN on no element). *)
Definition mean (l : list num) : num :=
  (sum l / of_int (Z.of_nat (length l)))%num.
End Arrays.

(** ** The Generalised Energy Distance metric *)

(** A one-hot map: pixels by classes. *)
Definition onehot : Type := list (list bool).

(** [a.sum(-2)] of a boolean (pixels, classes) array with [nc] classes: for
    each class, the number of pixels that have it. *)
Definition class_count (k : nat) (a : onehot) : Z :=
  Z.of_nat (length (filter (fun px => nth k px false) a)).

Definition sum_axis2 (nc : nat) (a : onehot) : list Z :=
  map (fun k => class_count k a) (seq 0 nc).

(** [x & y] and [x | y] on arrays of shape (_, _, pixels, classes). *)
Definition bcast4 (f : bool -> bool -> bool)
    (x y : list (list onehot)) : list (list onehot) :=
  bcast (bcast (bcast (bcast f))) x y.

Section GED.
Context {num : Type} `{Numeric num}.

(** [iou(x, y, axis=-2)]; [nc] is the size of the class axis. *)
Definition iou (nc : nat) (x y : list (list onehot)) : list (list (list num)) :=
  let inter := map (map (sum_axis2 nc)) (bcast4 andb x y) in
  let union := map (map (sum_axis2 nc)) (bcast4 orb x y) in
  let iou_ :=
    zipWith (zipWith (zipWith
      (fun i u => (of_int i / (of_int u + smooth_lit))%num))) inter union in
  map (map (map (fun v => if isnan v then of_int 1 else v))) iou_.

(** [np.concatenate] along the first axis: refuses an empty sequence. *)
Definition concatenate {A : Type} (l : list (list A)) : option (list A) :=
  match l with
  | [] => None
  | _ => Some (concat l)
  end.

(** [distance(x, y)].  [oom] tells whether the broadcast of the [try]
    block raised [MemoryError], in which case the [except] block runs.  The
    flag is free here; in a run it is set only when the broadcast has
    something to allocate, so with one map at least in [x]. *)
Definition distance (oom : bool) (nc : nat) (x y : list onehot)
    : option (list (list num)) :=
  per_class_iou <-
    (if oom
     then concatenate (map (fun x_ => iou nc [[x_]] [y]) x)
     else Some (iou nc (map (fun xi => [xi]) x) [y])) ;;
  Some (map (map (fun v => (of_int 1 - mean (skipn 1 v))%num)) per_class_iou).

(** [d.reshape((len(d), -1))]: refused on no map at all.  It is refused on
    maps of no pixel as well, which are not told apart here: the statements
    that need it assume a pixel at least ([maps_of_shape]). *)
Definition reshape_rows {A : Type} (d : list (list (list A))) : option (list (list A)) :=
  match d with
  | [] => None
  | _ => Some (map (@concat A) d)
  end.

(** [np.eye(nc)[k].astype('bool')]: a negative index counts from the end,
    an index outside [-nc, nc) raises [IndexError]. *)
Definition eye_row (nc : nat) (k : Z) : option (list bool) :=
  let row i := map (fun j => Z.of_nat j =? i) (seq 0 nc) in
  if (0 <=? k) && (k <? Z.of_nat nc) then Some (row k)
  else if (- Z.of_nat nc <=? k) && (k <? 0) then Some (row (k + Z.of_nat nc))
  else None.

Definition one_hot (nc : nat) (d : list (list Z)) : option (list onehot) :=
  mapM (mapM (eye_row nc)) d.

(** [calc_generalised_energy_distance(dist_0, dist_1, num_classes)];
    [oom k] is the [MemoryError] flag of the [k]-th call of [distance]. *)
Definition calc_generalised_energy_distance (oom : nat -> bool)
    (dist_0 dist_1 : list (list (list num))) (num_classes : nat)
    : option (num * num * num) :=
  d0 <- reshape_rows dist_0 ;;
  d1 <- reshape_rows dist_1 ;;
  h0 <- one_hot num_classes (map (map to_int) d0) ;;
  h1 <- one_hot num_classes (map (map to_int) d1) ;;
  c <- distance (oom 0%nat) num_classes h0 h1 ;;
  s0 <- distance (oom 1%nat) num_classes h0 h0 ;;
  s1 <- distance (oom 2%nat) num_classes h1 h1 ;;
  Some (mean (concat c), mean (concat s0), mean (concat s1)).

(** [(preds > thresh).float()] *)
Definition binarise (thresh : num) (preds : list (list (list (list num))))
    : list (list (list (list num))) :=
  map (map (map (map (fun v => if ltb thresh v then of_int 1 else of_int 0)))) preds.

(** [generalized_energy_distance(labels, preds, thresh, num_classes)];
    [oom i] are the flags of batch element [i]. *)
Definition generalized_energy_distance (oom : nat -> nat -> bool)
    (labels preds : list (list (list (list num)))) (thresh : num)
    (num_classes : nat) : option num :=
  let bin_preds := binarise thresh preds in
  batch_ged <-
    mapM (fun '(i, dist_0) =>
            dist_1 <- nth_error bin_preds i ;;
            '(cross, d_0, d_1) <-
              calc_generalised_energy_distance (oom i) dist_0 dist_1 num_classes ;;
            Some (of_int 2 * cross - d_0 - d_1)%num)
         (indexed labels) ;;
  Some (mean batch_ged).
End GED.

(** ** Random draws *)

(** The generator is a tape of raw draws; a tape that runs out yields 0.
    Every sequence of outcomes is the reading of some tape. *)
Definition tape : Type := list nat.

(** [randint(lo, hi)]: one integer of [lo, hi); an empty range is refused. *)
Definition randint (lo hi : Z) (g : tape) : option (Z * tape) :=
  if hi <=? lo then None
  else match g with
       | [] => Some (lo, [])
       | r :: g' => Some (lo + Z.of_nat r mod (hi - lo), g')
       end.

(** ** The prompt generator *)

Definition image : Type := list (list Z).

(** A mask tensor with its [size()]: (B, C, H, W). *)
Record mask : Type := {
  size : nat * nat * nat * nat;
  data : list (list image)
}.

Definition well_shaped (msk : mask) : bool :=
  let '(b, c, h, w) := size msk in
  (length (data msk) =? b)%nat &&
  forallb (fun chans =>
    (length chans =? c)%nat &&
    forallb (fun img =>
      (length img =? h)%nat && forallb (fun row => (length row =? w)%nat) img)
      chans) (data msk).

(** [torch.nonzero]: the (row, column) of every non-zero entry, row by row. *)
Definition nonzero (img : image) : list (nat * nat) :=
  flat_map (fun '(r, row) =>
              flat_map (fun '(c, v) => if v =? 0 then [] else [(r, c)]) (indexed row))
           (indexed img).

Definition all_zero (img : image) : bool :=
  forallb (forallb (fun v => v =? 0)) img.

(** What [generate_click_prompt] returns. *)
Record prompt : Type := {
  point_coords : list (list (Z * Z));
  point_labels : list (list Z)
}.

(** The points of batch element [j], each with its label. *)
Definition points_of (p : prompt) (j : nat) : list (Z * Z * Z) :=
  combine (nth j (point_coords p) []) (nth j (point_labels p) []).

(** The body of the inner loop: one point for the mask [msk_s]. *)
Definition click_point (h : nat) (pt_label : Z) (msk_s : image)
    (indices : list (nat * nat)) (g : tape) : option (Z * Z * Z * tape) :=
  match indices with
  | [] =>
      '(a, g1) <- randint 0 (Z.of_nat h) g ;;
      '(b, g2) <- randint 0 (Z.of_nat h) g1 ;;
      Some (a, b, pt_label, g2)
  | _ =>
      '(random_idx, g1) <- randint 0 (Z.of_nat (length indices)) g ;;
      let '(r, c) := nth (Z.to_nat random_idx) indices (0%nat, 0%nat) in
      Some (Z.of_nat r, Z.of_nat c, nth c (nth r msk_s []) 0, g1)
  end.

Fixpoint click_points (num_points h : nat) (pt_label : Z) (msk_s : image)
    (indices : list (nat * nat)) (g : tape) : option (list (Z * Z * Z) * tape) :=
  match num_points with
  | O => Some ([], g)
  | S n =>
      '(a, b, l, g1) <- click_point h pt_label msk_s indices g ;;
      '(rest, g2) <- click_points n h pt_label msk_s indices g1 ;;
      Some ((a, b, l) :: rest, g2)
  end.

(** The outer loop, over the batch elements still to visit. *)
Fixpoint click_batch (batch : list (list image)) (num_points h : nat) (pt_label : Z)
    (g : tape) : option (list (list (Z * Z * Z))) :=
  match batch with
  | [] => Some []
  | chans :: batch' =>
      msk_s <- nth_error chans 0 ;;
      '(pts, g1) <- click_points num_points h pt_label msk_s (nonzero msk_s) g ;;
      rest <- click_batch batch' num_points h pt_label g1 ;;
      Some (pts :: rest)
  end.

(** [generate_click_prompt(msk, num_points, pt_label)], drawing from [g].
    [torch.stack] refuses an empty list of points. *)
Definition generate_click_prompt (g : tape) (msk : mask) (num_points : nat)
    (pt_label : Z) : option prompt :=
  let '(b, c, h, w) := size msk in
  pts <- click_batch (firstn b (data msk)) num_points h pt_label g ;;
  if (b * num_points =? 0)%nat then None
  else Some {| point_coords := map (map fst) pts;
               point_labels := map (map snd) pts |}.

(** What the inner loop may produce for one mask [img] of height [h]. *)
Definition point_ok (h : nat) (pt_label : Z) (img : image) (p : Z * Z * Z) : Prop :=
  let '(r, c, l) := p in
  (all_zero img = true /\ 0 <= r < Z.of_nat h /\ 0 <= c < Z.of_nat h /\ l = pt_label)
  \/ (all_zero img = false /\
      exists r0 c0 row v,
        r = Z.of_nat r0 /\ c = Z.of_nat c0 /\
        nth_error img r0 = Some row /\ nth_error row c0 = Some v /\ v <> 0 /\ l = v).

(** A point that lies on a non-zero entry of [img] and carries its value. *)
Definition on_foreground (img : image) (p : Z * Z * Z) : Prop :=
  let '(r, c, l) := p in
  exists r0 c0 row v,
    r = Z.of_nat r0 /\ c = Z.of_nat c0 /\
    nth_error img r0 = Some row /\ nth_error row c0 = Some v /\ v <> 0 /\ l = v.

(** A point drawn for an empty mask of height [h]: both coordinates come
    from [0, h). *)
Definition drawn_below (h : nat) (pt_label : Z) (p : Z * Z * Z) : Prop :=
  let '(r, c, l) := p in
  0 <= r < Z.of_nat h /\ 0 <= c < Z.of_nat h /\ l = pt_label.

(** An all-zero mask of shape (1, 1, 2, 1): taller than wide. *)
Definition tall_empty_mask : mask :=
  {| size := (1%nat, 1%nat, 2%nat, 1%nat); data := [[[[0]; [0]]]] |}.

(** A mask of shape (2, 1, 2, 3): one element with two foreground pixels,
    one empty element. *)
Definition sample_mask : mask :=
  {| size := (2%nat, 1%nat, 2%nat, 3%nat);
     data := [[[[0; 1; 0]; [0; 0; 1]]]; [[[0; 0; 0]; [0; 0; 0]]]] |}.

(** ** The truncated-normal initialiser *)

(** The index [torch.max] returns along an axis: that of the first maximal
    entry. *)
Fixpoint argmax_from (best : bool) (best_i i : nat) (l : list bool) : nat :=
  match l with
  | [] => best_i
  | v :: l' =>
      if negb best && v then argmax_from v i (S i) l'
      else argmax_from best best_i (S i) l'
  end.

Definition argmax_first (l : list bool) : nat :=
  match l with
  | [] => 0%nat
  | v :: l' => argmax_from v 0 1 l'
  end.

Section TruncatedNormal.
Context {num : Type} `{Numeric num}.

Definition valid (v : num) : bool :=
  ltb v (of_int 2) && ltb (of_int (-2)) v.

(** [truncated_normal_(tensor, mean, std)]: the new contents of the
    tensor, entry by entry; [tmp] holds the draws of [normal_()], one row
    per entry of the tensor. *)
Definition truncated_normal_ (tmp : list (list num)) (mean std : num) : list num :=
  map (fun row =>
         let ind := argmax_first (map valid row) in
         (nth ind row (of_int 0) * std + mean)%num) tmp.

(** The words of the specification: the first draw within 2 standard
    deviations, else the last draw. *)
Definition kept_as_specified (row : list num) : num :=
  match find valid row with
  | Some v => v
  | None => last row (of_int 0)
  end.

(** What the program keeps: the first draw within 2 standard deviations,
    else the first draw. *)
Definition kept (row : list num) : num :=
  match find valid row with
  | Some v => v
  | None => hd (of_int 0) row
  end.
End TruncatedNormal.

(** ** The box sampler *)

Definition box : Type := (Z * Z * Z * Z)%type.

(** A connected component as [regionprops] reports it: the bounding box
    (min_row, min_col, max_row, max_col) and the pixel area.  Labelling is
    the image library's; the components of a mask come in label order. *)
Record region : Type := {
  bbox : box;
  area : Z
}.

(** [sorted(regions, key=area, reverse=True)]: stable, largest first. *)
Fixpoint insert_by_area (r : region) (l : list region) : list region :=
  match l with
  | [] => [r]
  | s :: l' => if area s <=? area r then r :: s :: l' else s :: insert_by_area r l'
  end.

Definition sorted_by_area (regions : list region) : list region :=
  fold_right insert_by_area [] regions.

(** The list [boxes] when the noise loop starts, for a mask with at least
    one component. *)
Definition select_boxes (regions : list region) (box_num : nat) : list box :=
  let boxes := map bbox regions in
  if (box_num <=? length boxes)%nat
  then map bbox (firstn box_num (sorted_by_area regions))
  else boxes ++ map (fun i => nth (i mod length boxes) boxes (0, 0, 0, 0))
                    (seq 0 (box_num - length boxes)).

(** The words of the specification: sorted by area, largest first, then
    cut to [box_num] or repeated cyclically up to [box_num]. *)
Definition boxes_as_specified (regions : list region) (box_num : nat) : list box :=
  let boxes := map bbox (sorted_by_area regions) in
  map (fun i => nth (i mod length boxes) boxes (0, 0, 0, 0)) (seq 0 box_num).

Section RandomBox.
Context {num : Type} `{Numeric num}.

(** [int(noise_std * 5)] for a box; [int] refuses NaN and the infinities. *)
Definition noise_pixels (std : num) (b : box) : option Z :=
  let '(y0, x0, y1, x1) := b in
  let width := Z.abs (x1 - x0) in
  let height := Z.abs (y1 - y0) in
  let noise_std := (of_int (Z.min width height) * std)%num in
  int_of (noise_std * of_int 5)%num.

(** The body of the noise loop. *)
Definition noise_box (std : num) (max_pixel : Z) (b : box) (g : tape)
    : option (box * tape) :=
  let '(y0, x0, y1, x1) := b in
  pixels <- noise_pixels std b ;;
  let max_noise := Z.max 1 (Z.min max_pixel pixels) in
  '(noise_x, g1) <- randint (- max_noise) max_noise g ;;
  '(noise_y, g2) <- randint (- max_noise) max_noise g1 ;;
  Some ((x0 + noise_x, y0 + noise_y, x1 + noise_x, y1 + noise_y), g2).

Fixpoint noise_boxes_of (std : num) (max_pixel : Z) (boxes : list box) (g : tape)
    : option (list box * tape) :=
  match boxes with
  | [] => Some ([], g)
  | b :: boxes' =>
      '(nb, g1) <- noise_box std max_pixel b g ;;
      '(rest, g2) <- noise_boxes_of std max_pixel boxes' g1 ;;
      Some (nb :: rest, g2)
  end.

(** [random_box(mask, box_num, std, max_pixel)]; [components] are the
    regions of each batch element.  The result is the list the program
    hands to [torch.as_tensor]. *)
Fixpoint random_box (components : list (list region)) (box_num : nat)
    (std : num) (max_pixel : Z) (g : tape) : option (list (list box)) :=
  match components with
  | [] => Some []
  | regions :: components' =>
      match regions with
      | [] =>
          rest <- random_box components' box_num std max_pixel g ;;
          Some (repeat (0, 0, 0, 0) box_num :: rest)
      | _ =>
          '(batch_noise_boxes, g1) <-
            noise_boxes_of std max_pixel (select_boxes regions box_num) g ;;
          rest <- random_box components' box_num std max_pixel g1 ;;
          Some (batch_noise_boxes :: rest)
      end
  end.
End RandomBox.

(** The noise magnitude of every box the loop visits is a number. *)
Definition noise_defined {num : Type} `{Numeric num} (std : num) (box_num : nat)
    (components : list (list region)) : bool :=
  forallb (fun regions =>
             match regions with
             | [] => true
             | _ => forallb (fun b => match noise_pixels std b with
                                      | Some _ => true
                                      | None => false
                                      end) (select_boxes regions box_num)
             end) components.

(** A box moved by one offset per axis, written (x0, y0, x1, y1) as the
    noise loop appends it. *)
Definition shifted (pre post : box) : Prop :=
  let '(y0, x0, y1, x1) := pre in
  exists noise_x noise_y,
    post = (x0 + noise_x, y0 + noise_y, x1 + noise_x, y1 + noise_y).

(** What [random_box] returns for one batch element with the components
    [regions]. *)
Definition element_boxes (box_num : nat) (regions : list region) (boxes : list box) : Prop :=
  match regions with
  | [] => boxes = repeat (0, 0, 0, 0) box_num
  | _ => Forall2 shifted (select_boxes regions box_num) boxes
  end.

(** Two components in label order, the smaller first. *)
Definition small_region : region := {| bbox := (0, 0, 1, 1); area := 1 |}.
Definition large_region : region := {| bbox := (2, 2, 4, 4); area := 4 |}.

(** ** The L2 regulariser *)

Section L2.
Context {num : Type} `{Numeric num} {tensor : Type}.
(** [W.norm(2)], the tensor library's. *)
Variable norm2 : tensor -> num.

(** [l2_regularisation(m)] on [m.parameters()]; Python's [None] is
    [None]. *)
Definition l2_regularisation (parameters : list tensor) : option num :=
  fold_left (fun l2_reg W =>
               match l2_reg with
               | None => Some (norm2 W)
               | Some r => Some (r + norm2 W)%num
               end) parameters None.
End L2.

(** On binary64: the cross distance of every batch element, and its double,
    are finite. *)
Definition finite_distances (oom : nat -> nat -> bool)
    (labels preds : list (list (list (list float)))) (thresh : float) (nc : nat) : bool :=
  forallb (fun '(i, dist_0) =>
             match nth_error (binarise thresh preds) i with
             | Some dist_1 =>
                 match calc_generalised_energy_distance (oom i) dist_0 dist_1 nc with
                 | Some (cross, _, _) => finite64 cross && finite64 (2 * cross)%float
                 | None => true
                 end
             | None => true
             end) (indexed labels).

(** The integer class maps of a batch: [astype("int")] entry by entry. *)
Definition class_indices {num : Type} `{Numeric num}
    (t : list (list (list (list num)))) : list (list (list (list Z))) :=
  map (map (map (map to_int))) t.

(** Every batch element holds one map at least. *)
Definition nonempty_sets {A : Type} (t : list (list A)) : bool :=
  forallb (fun d => negb (length d =? 0)%nat) t.

(** The one-hot row of class [k]. *)
Definition class_row (nc : nat) (k : Z) : list bool :=
  map (fun j => Z.of_nat j =? k) (seq 0 nc).

(** ** The distance as the specification words it *)

Section PairwiseDistance.
Context {num : Type} `{Numeric num}.

(** The IoU of class [k] between two maps, with the NaN patch of [iou]. *)
Definition iou_class (k : nat) (xi yj : onehot) : num :=
  let v := (of_int (class_count k (bcast (bcast andb) xi yj))
            / (of_int (class_count k (bcast (bcast orb) xi yj)) + smooth_lit))%num in
  if isnan v then of_int 1 else v.

(** One minus the mean IoU over the classes 1, ..., nc - 1, for every pair
    of a map of [x] and a map of [y]. *)
Definition distance_pairwise (nc : nat) (x y : list onehot) : list (list num) :=
  map (fun xi =>
         map (fun yj =>
                (of_int 1 - mean (map (fun k => iou_class k xi yj) (seq 1 (nc - 1))))%num)
             y) x.
End PairwiseDistance.

Section ForegroundIoU.
Context {num : Type} `{Numeric num}.

(** The IoU of the [k]-th non-background class, read off two maps whose
    background column has been removed. *)
Definition iou_foreground (k : nat) (ti tj : onehot) : num :=
  let v := (of_int (class_count k (bcast (zipWith andb) ti tj))
            / (of_int (class_count k (bcast (zipWith orb) ti tj)) + smooth_lit))%num in
  if isnan v then of_int 1 else v.
End ForegroundIoU.

Section SelfIoU.
Context {num : Type} `{Numeric num}.

(** The IoU of a class of [n] pixels with itself, as [iou] computes it. *)
Definition self_iou (n : Z) : num :=
  let v := (of_int n / (of_int n + smooth_lit))%num in
  if isnan v then of_int 1 else v.
End SelfIoU.

(** Every pixel of every map has [nc] classes. *)
Definition has_classes (nc : nat) (x : list onehot) : bool :=
  forallb (forallb (fun px => (length px =? nc)%nat)) x.

(** Two collections that differ at most in the background class. *)
Definition same_foreground (x x' : list onehot) : Prop :=
  map (map (@tl bool)) x = map (map (@tl bool)) x'.

(** Every non-background class occurs in the map. *)
Definition all_classes_occur (nc : nat) (a : onehot) : bool :=
  forallb (fun k => 0 <? class_count k a) (seq 1 (nc - 1)).

(** Class [k] occurs in neither map: its union is empty. *)
Definition empty_union (k : nat) (xi yj : onehot) : Prop :=
  class_count k (bcast (bcast orb) xi yj) = 0.

(** ** Sample inputs *)

(** One pixel of the background class, and one of class 1, of two. *)
Definition background_pixel : onehot := [[true; false]].
Definition foreground_pixel : onehot := [[false; true]].

(** Two pixels, one of each class, and the same with the background column
    overwritten. *)
Definition two_pixels : onehot := [[true; false]; [false; true]].
Definition two_pixels_repainted : onehot := [[false; false]; [true; true]].

(** A 4 x 4 binary mask, in binary64 and in exact arithmetic. *)
Definition square_mask : list (list float) :=
  [[0; 1; 1; 0]; [0; 1; 1; 0]; [0; 0; 0; 0]; [0; 0; 0; 0]]%float.

Definition square_mask_exact : list (list exact) :=
  map (map (fun z => Fin (Qc_of_Z z)))
      [[0; 1; 1; 0]; [0; 1; 1; 0]; [0; 0; 0; 0]; [0; 0; 0; 0]].

(** ** The weight initialisers *)

(** The layers [init_weights] tells apart: [type(m) == nn.Conv2d],
    [type(m) == nn.ConvTranspose2d], anything else. *)
Inductive layer_kind : Type :=
| Conv2d
| ConvTranspose2d
| OtherLayer.

Section InitWeights.
Context {num : Type} `{Numeric num} {weights : Type}.

(** A layer: its kind, its weight tensor, and its bias, [None] for a layer
    built without one. *)
Record layer : Type := {
  kind : layer_kind;
  weight : weights;
  bias : option (list num)
}.

(** The literal [0.001]: the double nearest to 1/1000, which is what the
    correctly rounded quotient 1 / 1000 is. *)
Definition std_lit : num := (of_int 1 / of_int 1000)%num.

(** [init_weights(m)] and [init_weights_orthogonal_normal(m)]: the two differ
    in the initialiser [init_] applied to the weight ([nn.init.kaiming_normal_]
    or [nn.init.orthogonal_], the tensor library's).  [tmp] holds the draws of
    [truncated_normal_] for the bias.  A layer without bias makes
    [truncated_normal_] fail on [tensor.shape]. *)
Definition init_weights_with (init_ : weights -> weights) (tmp : list (list num))
    (m : layer) : option layer :=
  match kind m with
  | Conv2d | ConvTranspose2d =>
      match bias m with
      | None => None
      | Some _ =>
          Some {| kind := kind m;
                  weight := init_ (weight m);
                  bias := Some (truncated_normal_ tmp (of_int 0) std_lit) |}
      end
  | OtherLayer => Some m
  end.
End InitWeights.

(** ** The image preparation *)

(** The pixels of an image tensor: [torch.uint8] values, or floating-point
    values. *)
Inductive pixel_data (num : Type) : Type :=
| Uint8 (px : list Z)
| Floating (px : list num).

Arguments Uint8 {num} px.
Arguments Floating {num} px.

Section PrepareImage.
Context {num : Type} `{Numeric num}.

(** A tensor: its shape and its entries in row-major order. *)
Record tensor : Type := {
  shape : list nat;
  pixels : pixel_data num
}.

(** [image.shape[-2:]] *)
Definition last_two (s : list nat) : list nat :=
  skipn (length s - 2) s.

(** [image.float() / 255.0] on a [uint8] image; any other image is kept. *)
Definition to_unit_range (image : tensor) : tensor :=
  match pixels image with
  | Uint8 px =>
      {| shape := shape image;
         pixels := Floating (map (fun v => (of_int v / of_int 255)%num) px) |}
  | Floating _ => image
  end.

(** The two [unsqueeze(0)] of a 2-D image, the one of a 3-D image. *)
Definition to_batch (image : tensor) : tensor :=
  match length (shape image) with
  | 2%nat => {| shape := 1%nat :: 1%nat :: shape image; pixels := pixels image |}
  | 3%nat => {| shape := 1%nat :: shape image; pixels := pixels image |}
  | _ => image
  end.

(** [prepare_image(image, target_size)]; [target_size] is a tuple, and
    [interpolate] is [F.interpolate(image, size, mode='bilinear',
    align_corners=False)], the tensor library's. *)
Definition prepare_image (interpolate : tensor -> list nat -> tensor)
    (image : tensor) (target_size : list nat) : tensor :=
  let image := to_batch (to_unit_range image) in
  if list_eq_dec Nat.eq_dec (last_two (shape image)) target_size
  then image
  else interpolate image target_size.
End PrepareImage.

(** ** The mask post-processor *)

Section PostProcess.
Context {num : Type} `{Numeric num}.

(** [component.sum()] for [component = (labeled == j)]: the number of
    entries of [labeled] equal to [j]. *)
Definition component_area (labeled : list (list Z)) (j : Z) : Z :=
  Z.of_nat (length (filter (fun l => l =? j) (concat labeled))).

(** [mask[component] = 0] for [component = (labeled == j)]. *)
Definition clear_component (labeled : list (list Z)) (j : Z)
    (mask : list (list num)) : list (list num) :=
  zipWith (zipWith (fun l v => if l =? j then of_int 0 else v)) labeled mask.

(** The loop over [j] in [range(1, num_features + 1)]. *)
Definition remove_small (min_area : Z) (labeled : list (list Z)) (num_features : nat)
    (mask : list (list num)) : list (list num) :=
  fold_left (fun mask j =>
               if component_area labeled (Z.of_nat j) <? min_area
               then clear_component labeled (Z.of_nat j) mask
               else mask)
            (seq 1 num_features) mask.

(** [post_process_masks(masks, threshold, min_area)]; [label] is
    [scipy.ndimage.label], which returns the labelled array and the number
    of components.  [binary_masks[i, 0]] fails on a batch element with no
    channel. *)
Definition post_process_masks (label : list (list num) -> list (list Z) * nat)
    (masks : list (list (list (list num)))) (threshold : num) (min_area : Z)
    : option (list (list (list (list num)))) :=
  let binary_masks := binarise threshold masks in
  mapM (fun chans =>
          match chans with
          | [] => None
          | mask :: rest =>
              let '(labeled, num_features) := label mask in
              Some (remove_small min_area labeled num_features mask :: rest)
          end) binary_masks.

(** What the loop leaves at one pixel with label [l] and value [v]. *)
Definition kept_pixel (min_area : Z) (labeled : list (list Z)) (num_features : nat)
    (l : Z) (v : num) : num :=
  if (1 <=? l) && (l <=? Z.of_nat num_features)
     && (component_area labeled l <? min_area)
  then of_int 0 else v.
End PostProcess.

(** Two arrays of the same shape. *)
Definition same_shape {A B : Type} (a : list (list A)) (b : list (list B)) : Prop :=
  Forall2 (fun ra rb => length ra = length rb) a b.

(** ** The running average *)

(** How a method call ends: it returns, or it raises and leaves the object
    as the assignments before the failing statement made it. *)
Inductive outcome (A : Type) : Type :=
| Returned (a : A)
| Raised (a : A).

Arguments Returned {A} a.
Arguments Raised {A} a.

Module AverageMeter.
Section Meter.
Context {num : Type} `{Numeric num}.

(** The attributes of an [AverageMeter]; the values are Python floats, the
    weights [n] and [count] Python ints. *)
Record t : Type := {
  val : num;
  avg : num;
  sum : num;
  count : Z
}.

(** [reset()], which [__init__] calls. *)
Definition reset : t :=
  {| val := of_int 0; avg := of_int 0; sum := of_int 0; count := 0 |}.

(** [update(val, n)]: the division raises [ZeroDivisionError] on a zero
    count, after [val], [sum] and [count] have been assigned. *)
Definition update (self : t) (v : num) (n : Z) : outcome t :=
  let s := (sum self + v * of_int n)%num in
  let c := count self + n in
  if c =? 0
  then Raised {| val := v; avg := avg self; sum := s; count := c |}
  else Returned {| val := v; avg := (s / of_int c)%num; sum := s; count := c |}.

(** A run of calls of [update], up to the first that raises. *)
Fixpoint updates (self : t) (calls : list (num * Z)) : outcome t :=
  match calls with
  | [] => Returned self
  | (v, n) :: calls' =>
      match update self v n with
      | Returned self' => updates self' calls'
      | Raised self' => Raised self'
      end
  end.
End Meter.
End AverageMeter.

(** ** The box sampler: what the noise does *)

(** A box moved by one offset per axis, the same at both corners, each
    offset in [-bound, bound). *)
Definition displaced (bound : Z) (pre post : box) : Prop :=
  let '(y0, x0, y1, x1) := pre in
  exists noise_x noise_y,
    post = (x0 + noise_x, y0 + noise_y, x1 + noise_x, y1 + noise_y)
    /\ - bound <= noise_x < bound /\ - bound <= noise_y < bound.

(** What [random_box] returns for one batch element, with the size of the
    noise. *)
Definition element_displaced (box_num : nat) (bound : Z) (regions : list region)
    (boxes : list box) : Prop :=
  match regions with
  | [] => boxes = repeat (0, 0, 0, 0) box_num
  | _ => Forall2 (displaced bound) (select_boxes regions box_num) boxes
  end.

(** The shorter side of a bounding box is below 2^53. *)
Definition small_extent (b : box) : Prop :=
  let '(y0, x0, y1, x1) := b in
  Z.min (Z.abs (x1 - x0)) (Z.abs (y1 - y0)) < 2 ^ 53.

(** ** IEEE 754 binary32

    The tensors of the tensor library are single precision unless the model
    is built otherwise; the operations are those of the IEEE 754
    specification at precision 24 and exponent bound 128. *)

(** Truncation toward zero of a finite float. *)
Definition sf_trunc (f : spec_float) : option Z :=
  match f with
  | S754_zero _ => Some 0
  | S754_finite s m e =>
      let v := if 0 <=? e then Z.shiftl (Zpos m) e else Z.shiftr (Zpos m) (- e) in
      Some (if s then - v else v)
  | _ => None
  end.

(** An integer rounded to single precision. *)
Definition single_of_Z (z : Z) : spec_float := binary_normalize 24 128 z 0 false.

(** Not registered as an instance: it is named where it is meant. *)
Definition binary32 : Numeric spec_float := {|
  of_int := single_of_Z;
  smooth_lit := SFdiv 24 128 (single_of_Z 1) (single_of_Z 100000000);
  add := SFadd 24 128;
  sub := SFsub 24 128;
  mul := SFmul 24 128;
  div := SFdiv 24 128;
  ltb := SFltb;
  isnan := fun f => match f with S754_nan => true | _ => false end;
  to_int := fun f => match sf_trunc f with
                     | Some v => int64_cast v
                     | None => int64_min
                     end;
  int_of := sf_trunc
|}.

(** A float that is neither NaN nor an infinity. *)
Definition sf_finite (f : spec_float) : Prop :=
  match f with
  | S754_zero _ | S754_finite _ _ _ => True
  | _ => False
  end.

(** Two rows of draws, the second without a draw within (-2, 2). *)
Definition sample_draws : list (list exact) :=
  [[of_int 3; of_int 1]; [of_int 5; of_int 4]].

(** ** The truncated-normal initialiser: what it keeps *)

(** An entry computed from a draw of its row that lies within (-2, 2). *)
Definition from_valid_draw {num : Type} `{Numeric num} (mean std : num)
    (row : list num) (entry : num) : Prop :=
  exists k, In k row /\ valid k = true /\ entry = (k * std + mean)%num.

(** ** The image preparation and the post-processor: shapes and pixels *)

(** A rank that [prepare_image] turns into a batch of images. *)
Definition image_rank (n : nat) : Prop := n = 2%nat \/ n = 3%nat \/ n = 4%nat.

(** Two batches of masks of the same shape whose pixels are related by
    [R]. *)
Definition pixelwise {A B : Type} (R : A -> B -> Prop)
    (a : list (list (list (list A)))) (b : list (list (list (list B)))) : Prop :=
  Forall2 (Forall2 (Forall2 (Forall2 R))) a b.

(** A pixel that the post-processor kept or cleared. *)
Definition kept_or_cleared {num : Type} `{Numeric num} (before after : num) : Prop :=
  (before = of_int 0 \/ before = of_int 1)
  /\ (after = before \/ after = of_int 0).

(** A labelling that marks every pixel 1: what [scipy.ndimage.label] returns
    on a mask that is one component. *)
Definition label_whole {num : Type} (mask : list (list num)) : list (list Z) * nat :=
  (map (map (fun _ => 1)) mask, 1%nat).

(** A 2 x 2 image of bytes. *)
Definition byte_image : @tensor float :=
  {| shape := [2; 2]%nat; pixels := Uint8 [0; 51; 102; 255] |}.

(** ** The running average: weights and weighted sums *)

(** The sum of the weights [n] of a run of calls. *)
Definition total_weight {A : Type} (calls : list (A * Z)) : Z :=
  fold_right (fun call acc => snd call + acc) 0 calls.

(** The sum of the products [val * n] of a run of calls, as a rational. *)
Definition weighted_sum (calls : list (Qc * Z)) : Qc :=
  fold_right (fun call acc => fst call * Qc_of_Z (snd call) + acc)%Qc 0%Qc calls.

(** The calls [update(val, n)] with rational values. *)
Definition exact_calls (calls : list (Qc * Z)) : list (exact * Z) :=
  map (fun call => (Fin (fst call), snd call)) calls.

(** The count after the first [k] calls is not zero, for each [k] from 1
    on. *)
Definition count_never_zero {A : Type} (start : Z) (calls : list (A * Z)) : Prop :=
  forall k, (0 < k <= length calls)%nat -> start + total_weight (firstn k calls) <> 0.

(** The count after the first [k] calls is zero, for some [k] from 1 on. *)
Definition count_reaches_zero {A : Type} (start : Z) (calls : list (A * Z)) : Prop :=
  exists k, (0 < k <= length calls)%nat /\ start + total_weight (firstn k calls) = 0.

(** Two calls, with weights 2 and 3. *)
Definition sample_calls : list (float * Z) := [(0.5%float, 2); (0.25%float, 3)].

(** A meter whose average is its sum divided by its count, the count not
    zero: the state after a call of [update] that returned. *)
Definition settled {num : Type} `{Numeric num} (self : AverageMeter.t) : Prop :=
  AverageMeter.count self <> 0
  /\ AverageMeter.avg self
     = (AverageMeter.sum self / of_int (AverageMeter.count self))%num.

(** Three calls with rational values 1/2, 1/4 and 1 and weights 2, 3
    and 1. *)
Definition sample_exact_calls : list (Qc * Z) :=
  [(Q2Qc (1 # 2), 2); (Q2Qc (1 # 4), 3); (Q2Qc 1, 1)].

(** ** The distance: one pair of maps *)

(** One minus the mean IoU over the classes 1, ..., nc - 1 of one pair of
    maps: an entry of [distance_pairwise]. *)
Definition pair_distance {num : Type} `{Numeric num} (nc : nat) (xi yj : onehot) : num :=
  (of_int 1 - mean (map (fun k => iou_class k xi yj) (seq 1 (nc - 1))))%num.

(** An exact number in (0, 1]. *)
Definition unit_distance (v : exact) : Prop :=
  match v with
  | Fin q => (0 < q /\ q <= 1)%Qc
  | Nan => False
  end.

(** ** The per-sample distances: when they are defined *)

(** An index that [np.eye(nc)[k]] accepts. *)
Definition label_in_range (nc : nat) (k : Z) : bool :=
  (- Z.of_nat nc <=? k) && (k <? Z.of_nat nc).

Section ClassMaps.
Context {num : Type} `{Numeric num}.

(** A set of maps that [calc_generalised_energy_distance] accepts: one map
    at least, every class index within [-nc, nc). *)
Definition labels_defined (nc : nat) (d : list (list (list num))) : bool :=
  negb (length d =? 0)%nat
  && forallb (fun m => forallb (fun v => label_in_range nc (to_int v)) (concat m)) d.

(** The one-hot maps of a set: a pixel with index [k] has the class
    [k mod nc]. *)
Definition class_maps (nc : nat) (d : list (list (list num))) : list onehot :=
  map (fun m => map (fun v => class_row nc (to_int v mod Z.of_nat nc)) (concat m)) d.

(** The mean of all pairwise distances between two sets of one-hot maps. *)
Definition mean_distance (nc : nat) (x y : list onehot) : num :=
  mean (concat (distance_pairwise nc x y)).
End ClassMaps.

(** A set of maps that is a tensor of shape (_, h, w): every map has [h]
    rows of [w] pixels.  [reshape((len(d), -1))] needs a pixel at least, and
    [x & y] needs the two sets to have maps of one size. *)
Definition maps_of_shape {A : Type} (h w : nat) (d : list (list (list A))) : Prop :=
  Forall (fun m => length m = h /\ Forall (fun row => length row = w) m) d.

(** Two label maps of 2 x 2 pixels, the second with the indices -1 and -2
    in place of 1 and 0. *)
Definition sample_labels : list (list (list float)) :=
  [[[0; 1]; [1; 0]]; [[-2; -1]; [-1; -2]]]%float.

(** Two batches of one label map of 1 x 2 pixels whose entries have the same
    integer parts. *)
Definition soft_labels : list (list (list (list float))) := [[[[0.9; 1]]]]%float.
Definition hard_labels : list (list (list (list float))) := [[[[0; 1.5]]]]%float.

(** * Properties *)

(** ** Lists and broadcasting *)

Lemma zipWith_map_same {A B C D : Type} (g : B -> C -> D) (f1 : A -> B) (f2 : A -> C)
    (l : list A) :
  zipWith g (map f1 l) (map f2 l) = map (fun a => g (f1 a) (f2 a)) l.
Proof.
  induction l as [| a l IH]; simpl; [reflexivity | now rewrite IH].
Qed.

Lemma zipWith_diag {A C : Type} (f : A -> A -> C) (l : list A) :
  zipWith f l l = map (fun a => f a a) l.
Proof.
  induction l as [| a l IH]; simpl; [reflexivity | now rewrite IH].
Qed.

Lemma bcast_diag {A C : Type} (f : A -> A -> C) (l : list A) :
  bcast f l l = map (fun a => f a a) l.
Proof.
  destruct l as [| a [| b l]]; try reflexivity.
  unfold bcast. apply zipWith_diag.
Qed.

Lemma bcast_same_length {A B C : Type} (f : A -> B -> C) (a : list A) (b : list B) :
  length a = length b -> bcast f a b = zipWith f a b.
Proof.
  destruct a as [| a0 [| a1 a]]; destruct b as [| b0 [| b1 b]];
    simpl; intros E; try discriminate; reflexivity.
Qed.

(** A column of maps against a row of maps: every pair once. *)
Lemma bcast_column_row {A B C : Type} (f : A -> B -> C) (x : list A) (y : list B) :
  bcast (bcast f) (map (fun xi => [xi]) x) [y]
  = map (fun xi => map (f xi) y) x.
Proof.
  destruct x as [| x0 [| x1 x]]; try reflexivity.
  cbn. do 2 f_equal. rewrite map_map. reflexivity.
Qed.

Lemma skipn_1_map_seq {A : Type} (f : nat -> A) (n : nat) :
  skipn 1 (map f (seq 0 n)) = map f (seq 1 (n - 1)).
Proof.
  destruct n as [| n]; simpl; [reflexivity | now rewrite Nat.sub_0_r].
Qed.

(** ** [iou] and [distance], pair by pair *)

Section DistanceFacts.
Context {num : Type} `{Numeric num}.

Lemma iou_column_row (nc : nat) (x y : list onehot) :
  iou nc (map (fun xi => [xi]) x) [y]
  = map (fun xi => map (fun yj => map (fun k => iou_class k xi yj) (seq 0 nc)) y) x.
Proof.
  unfold iou, bcast4. rewrite !bcast_column_row.
  rewrite !map_map.
  rewrite zipWith_map_same, map_map.
  apply map_ext; intros xi.
  rewrite !map_map, zipWith_map_same, map_map.
  apply map_ext; intros yj.
  unfold sum_axis2. rewrite zipWith_map_same, map_map.
  reflexivity.
Qed.

Lemma iou_single (nc : nat) (x_ : onehot) (y : list onehot) :
  iou nc [[x_]] [y]
  = [map (fun yj => map (fun k => iou_class k x_ yj) (seq 0 nc)) y].
Proof. exact (iou_column_row nc [x_] y). Qed.

Lemma distance_full (nc : nat) (x y : list onehot) :
  distance false nc x y = Some (distance_pairwise nc x y).
Proof.
  unfold distance, distance_pairwise; cbn [bind].
  rewrite iou_column_row, map_map. f_equal.
  apply map_ext; intros xi. rewrite map_map.
  apply map_ext; intros yj. now rewrite skipn_1_map_seq.
Qed.

Lemma chunks_concat (nc : nat) (x y : list onehot) :
  concat (map (fun x_ => iou nc [[x_]] [y]) x) = iou nc (map (fun xi => [xi]) x) [y].
Proof.
  rewrite iou_column_row.
  induction x as [| x0 x IH]; cbn [map concat]; [reflexivity |].
  now rewrite iou_single, IH.
Qed.

Lemma distance_chunked (nc : nat) (x y : list onehot) :
  x <> [] -> distance true nc x y = Some (distance_pairwise nc x y).
Proof.
  intros Hx. rewrite <- distance_full.
  unfold distance. destruct x as [| x0 x]; [congruence |].
  unfold concatenate. cbn [map].
  change (concat (iou nc [[x0]] [y] :: map (fun x_ => iou nc [[x_]] [y]) x))
    with (concat (map (fun x_ => iou nc [[x_]] [y]) (x0 :: x))).
  now rewrite chunks_concat.
Qed.
End DistanceFacts.

(** ** The background class *)

Lemma has_classes_Forall (nc : nat) (x : list onehot) :
  has_classes nc x = true ->
  Forall (Forall (fun px => length px = nc)) x.
Proof.
  unfold has_classes. rewrite forallb_forall, Forall_forall.
  intros Hx xi Hin. specialize (Hx xi Hin).
  rewrite forallb_forall in Hx. rewrite Forall_forall.
  intros px Hpx. now apply Nat.eqb_eq, Hx.
Qed.

Lemma class_count_S (k : nat) (a : onehot) :
  class_count (S k) a = class_count k (map (@tl bool) a).
Proof.
  unfold class_count. f_equal.
  induction a as [| px a IH]; [reflexivity |].
  cbn [map filter].
  replace (nth (S k) px false) with (nth k (tl px) false)
    by (destruct px; [destruct k |]; reflexivity).
  destruct (nth k (tl px) false); cbn [length]; now rewrite IH.
Qed.

Lemma map_zipWith_in {A B C A' B' C' : Type} (g : A -> B -> C) (g' : A' -> B' -> C')
    (h : C -> C') (ha : A -> A') (hb : B -> B') (a : list A) (b : list B) :
  (forall p q, In p a -> In q b -> h (g p q) = g' (ha p) (hb q)) ->
  map h (zipWith g a b) = zipWith g' (map ha a) (map hb b).
Proof.
  revert b. induction a as [| a0 a IH]; intros [| b0 b] Hg; try reflexivity.
  cbn [zipWith map]. rewrite Hg by (now left). f_equal.
  apply IH. intros p q Hp Hq. apply Hg; now right.
Qed.

Lemma map_bcast_in {A B C A' B' C' : Type} (g : A -> B -> C) (g' : A' -> B' -> C')
    (h : C -> C') (ha : A -> A') (hb : B -> B') (a : list A) (b : list B) :
  (forall p q, In p a -> In q b -> h (g p q) = g' (ha p) (hb q)) ->
  map h (bcast g a b) = bcast g' (map ha a) (map hb b).
Proof.
  intros Hg.
  assert (Hl : forall a0, In a0 a ->
            map h (map (g a0) b) = map (g' (ha a0)) (map hb b)).
  { intros a0 Ha. rewrite !map_map. apply map_ext_in. intros q Hq. now apply Hg. }
  assert (Hr : forall b0, In b0 b ->
            map h (map (fun ai => g ai b0) a) = map (fun ai => g' ai (hb b0)) (map ha a)).
  { intros b0 Hb. rewrite !map_map. apply map_ext_in. intros q Hq. now apply Hg. }
  destruct a as [| a0 [| a1 a]]; destruct b as [| b0 [| b1 b]];
    try reflexivity;
    try (apply Hl; now left);
    try (apply Hr; now left).
  unfold bcast. cbn [map]. now apply (map_zipWith_in g g' h ha hb (a0 :: a1 :: a) (b0 :: b1 :: b)).
Qed.

Lemma tl_bcast_pixel (f : bool -> bool -> bool) (p q : list bool) :
  length p = length q -> tl (bcast f p q) = zipWith f (tl p) (tl q).
Proof.
  intros E. rewrite bcast_same_length by exact E.
  destruct p, q; try discriminate; reflexivity.
Qed.

Lemma tl_bcast_map (f : bool -> bool -> bool) (nc : nat) (xi yj : onehot) :
  Forall (fun px => length px = nc) xi ->
  Forall (fun px => length px = nc) yj ->
  map (@tl bool) (bcast (bcast f) xi yj)
  = bcast (zipWith f) (map (@tl bool) xi) (map (@tl bool) yj).
Proof.
  rewrite !Forall_forall. intros Hx Hy.
  apply map_bcast_in. intros p q Hp Hq.
  apply tl_bcast_pixel. now rewrite (Hx p Hp), (Hy q Hq).
Qed.

Section BackgroundFacts.
Context {num : Type} `{Numeric num}.

Lemma iou_class_S (nc k : nat) (xi yj : onehot) :
  Forall (fun px => length px = nc) xi ->
  Forall (fun px => length px = nc) yj ->
  iou_class (S k) xi yj
  = iou_foreground k (map (@tl bool) xi) (map (@tl bool) yj).
Proof.
  intros Hx Hy. unfold iou_class, iou_foreground.
  now rewrite !class_count_S, !(tl_bcast_map _ nc) by assumption.
Qed.

Lemma distance_pairwise_foreground (nc : nat) (x y : list onehot) :
  has_classes nc x = true -> has_classes nc y = true ->
  distance_pairwise nc x y
  = map (fun ti =>
           map (fun tj =>
                  (of_int 1 - mean (map (fun k => iou_foreground k ti tj)
                                        (seq 0 (nc - 1))))%num)
               (map (map (@tl bool)) y))
        (map (map (@tl bool)) x).
Proof.
  intros Hx Hy.
  apply has_classes_Forall in Hx. apply has_classes_Forall in Hy.
  rewrite Forall_forall in Hx, Hy.
  unfold distance_pairwise. rewrite map_map.
  apply map_ext_in; intros xi Hxi. rewrite map_map.
  apply map_ext_in; intros yj Hyj.
  rewrite <- seq_shift, map_map. do 2 f_equal.
  apply map_ext; intros k. now apply (iou_class_S nc); [apply Hx | apply Hy].
Qed.
End BackgroundFacts.

(** C2. [distance] leaves the background class out: whenever it returns (the
    fallback needs one map in [x] at least), each entry is 1 minus the mean,
    over the classes 1, ..., nc - 1, of the IoU of a map of [x] with a map of
    [y]; and collections of [nc]-class maps that differ only in their class 0
    column have the same distance. *)
Theorem distance_excludes_background {num : Type} `{Numeric num}
    (oom : bool) (nc : nat) (x y x' y' : list onehot) :
  (oom = true -> x <> []) ->
  has_classes nc x = true -> has_classes nc y = true ->
  has_classes nc x' = true -> has_classes nc y' = true ->
  same_foreground x x' -> same_foreground y y' ->
  distance oom nc x y = Some (distance_pairwise nc x y)
  /\ distance oom nc x' y' = distance oom nc x y.
Proof.
  intros Hoom Hx Hy Hx' Hy' Ex Ey.
  assert (Hx0 : oom = true -> x' <> []).
  { intros E. specialize (Hoom E). unfold same_foreground in Ex.
    destruct x, x'; try discriminate; congruence. }
  assert (D : forall u v, (oom = true -> u <> []) ->
            distance oom nc u v = Some (distance_pairwise nc u v)).
  { intros u v Hu. destruct oom; [apply distance_chunked; now apply Hu | apply distance_full]. }
  split; [now apply D |].
  rewrite !D by assumption. f_equal.
  rewrite !distance_pairwise_foreground by assumption.
  unfold same_foreground in Ex, Ey. now rewrite Ex, Ey.
Qed.

(** ** Exact arithmetic *)

Section ExactFacts.
Local Open Scope Qc_scope.

Lemma this_plus (a b : Qc) : (this (a + b) == this a + this b)%Q.
Proof. unfold Qcplus, Q2Qc; cbn [this]. apply Qred_correct. Qed.

Lemma this_minus (a b : Qc) : (this (a - b) == this a - this b)%Q.
Proof.
  unfold Qcminus, Qcplus, Qcopp, Q2Qc; cbn [this]. now rewrite !Qred_correct.
Qed.

Lemma this_mult (a b : Qc) : (this (a * b) == this a * this b)%Q.
Proof. unfold Qcmult, Q2Qc; cbn [this]. apply Qred_correct. Qed.

Lemma this_div (a b : Qc) : (this (a / b) == this a / this b)%Q.
Proof.
  unfold Qcdiv, Qcmult, Qcinv, Q2Qc; cbn [this]. now rewrite !Qred_correct.
Qed.

Lemma this_Q2Qc (q : Q) : (this (Q2Qc q) == q)%Q.
Proof. apply Qred_correct. Qed.

Lemma this_of_Z (z : Z) : (this (Qc_of_Z z) == inject_Z z)%Q.
Proof. apply Qred_correct. Qed.

Lemma this_smooth : (this smooth_exact == 1 # 100000000)%Q.
Proof. apply Qred_correct. Qed.
End ExactFacts.

(** Orders and equations of [Qc] read on the underlying fractions. *)
Ltac qc_to_q :=
  unfold Qclt, Qcle in *;
  repeat (first [ rewrite this_plus in * | rewrite this_minus in *
                | rewrite this_mult in * | rewrite this_div in *
                | rewrite this_of_Z in * | rewrite this_smooth in *
                | rewrite this_Q2Qc in * ]).

Section ExactSums.
Local Open Scope Qc_scope.

Lemma inject_Z_nonneg (z : Z) : (0 <= z)%Z -> (0 <= inject_Z z)%Q.
Proof. intros Hz. rewrite Zle_Qle in Hz. exact Hz. Qed.

Lemma inject_Z_ge_1 (z : Z) : (1 <= z)%Z -> (1 <= inject_Z z)%Q.
Proof. intros Hz. rewrite Zle_Qle in Hz. exact Hz. Qed.

Lemma Qc_nonzero_bool (q : Qc) : q <> 0 -> Qeq_bool q 0 = false.
Proof.
  intros Hq. destruct (Qeq_bool q 0) eqn:E; [| reflexivity].
  apply Qeq_bool_iff in E. exfalso. apply Hq. now apply Qc_is_canon.
Qed.

Lemma exact_div_Fin (p q : Qc) : q <> 0 -> (Fin p / Fin q)%num = Fin (p / q).
Proof. intros Hq. cbn. now rewrite Qc_nonzero_bool. Qed.

Lemma Qc_pos_nonzero (q : Qc) : 0 < q -> q <> 0.
Proof. intros Hq E. rewrite E in Hq. now apply (Qlt_irrefl 0). Qed.

Lemma length_pos_Qc (n : nat) : 0 < Qc_of_Z (Z.of_nat (S n)).
Proof.
  pose proof (inject_Z_ge_1 (Z.of_nat (S n)) ltac:(lia)) as Hn.
  qc_to_q. change (this 0) with 0%Q. lra.
Qed.

Lemma fold_add_Fin (l : list Qc) (a : Qc) :
  fold_left add (map Fin l) (Fin a) = Fin (fold_left Qcplus l a).
Proof.
  revert a. induction l as [| q l IH]; intros a; [reflexivity |].
  cbn [map fold_left]. exact (IH (a + q)).
Qed.

Lemma mean_Fin (q : Qc) (l : list Qc) :
  mean (map Fin (q :: l))
  = Fin (fold_left Qcplus l q / Qc_of_Z (Z.of_nat (S (length l)))).
Proof.
  unfold mean, sum. cbn [map]. rewrite fold_add_Fin.
  cbn [length]. rewrite length_map.
  apply exact_div_Fin, Qc_pos_nonzero, length_pos_Qc.
Qed.

Lemma finite_list (l : list exact) :
  Forall finite l -> exists ql, l = map Fin ql.
Proof.
  induction 1 as [| v l Hv _ [ql IH]]; [now exists [] |].
  destruct v as [| q]; [contradiction |].
  exists (q :: ql). now rewrite IH.
Qed.

Lemma finite_mean (l : list exact) :
  l <> [] -> Forall finite l -> finite (mean l).
Proof.
  intros Hl Hf. destruct (finite_list l Hf) as [[| q ql] E]; subst l.
  - now contradiction Hl.
  - now rewrite mean_Fin.
Qed.

Lemma within_list (lo hi : Qc) (l : list exact) :
  Forall (within lo hi) l ->
  exists ql, l = map Fin ql /\ Forall (fun q => lo < q /\ q < hi) ql.
Proof.
  induction 1 as [| v l Hv _ [ql [IH Hq]]]; [now exists [] |].
  destruct v as [| q]; [contradiction |].
  exists (q :: ql). split; [now rewrite IH | now constructor].
Qed.

Lemma fold_bounds (lo hi : Qc) (l : list Qc) (acc : Qc) :
  Forall (fun q => lo < q /\ q < hi) l ->
  acc + Qc_of_Z (Z.of_nat (length l)) * lo <= fold_left Qcplus l acc
  /\ fold_left Qcplus l acc <= acc + Qc_of_Z (Z.of_nat (length l)) * hi.
Proof.
  intros Hl. revert acc.
  induction Hl as [| q l [Hlo Hhi] _ IH]; intros acc.
  - cbn [length fold_left]. qc_to_q. change (inject_Z (Z.of_nat 0)) with 0%Q. split; lra.
  - cbn [fold_left]. destruct (IH (acc + q)) as [L U].
    cbn [length]. rewrite Nat2Z.inj_succ.
    qc_to_q. unfold Z.succ. rewrite inject_Z_plus. change (inject_Z 1) with 1%Q.
    split; lra.
Qed.

Lemma within_mean (lo hi : Qc) (l : list exact) :
  l <> [] -> Forall (within lo hi) l -> within lo hi (mean l).
Proof.
  intros Hl Hw. destruct (within_list lo hi l Hw) as [[| q ql] [E Hq]]; subst l.
  - now contradiction Hl.
  - rewrite mean_Fin. cbn [within].
    inversion Hq as [| ? ? [Hlo Hhi] Hrest]; subst.
    destruct (fold_bounds lo hi ql q Hrest) as [L U].
    pose proof (length_pos_Qc (length ql)) as Hn.
    rewrite Nat2Z.inj_succ in *.
    qc_to_q. change (this 0) with 0%Q in Hn.
    unfold Z.succ in *. rewrite inject_Z_plus in *. change (inject_Z 1) with 1%Q in *.
    set (n := inject_Z (Z.of_nat (length ql))) in *.
    set (s := this (fold_left Qcplus ql q)) in *.
    split.
    + apply Qlt_shift_div_l; [exact Hn | lra].
    + apply Qlt_shift_div_r; [exact Hn | lra].
Qed.
End ExactSums.

(** ** Intersections and unions *)

Lemma class_count_nonneg (k : nat) (a : onehot) : 0 <= class_count k a.
Proof. unfold class_count. lia. Qed.

Lemma Forall2_map_same {A C D : Type} (R : C -> D -> Prop) (f : A -> C) (g : A -> D)
    (l : list A) :
  (forall a, R (f a) (g a)) -> Forall2 R (map f l) (map g l).
Proof. intros HR. induction l; cbn [map]; constructor; auto. Qed.

Lemma Forall2_zipWith {A B C D : Type} (R : C -> D -> Prop) (f : A -> B -> C)
    (g : A -> B -> D) (a : list A) (b : list B) :
  (forall p q, R (f p q) (g p q)) -> Forall2 R (zipWith f a b) (zipWith g a b).
Proof.
  intros HR. revert b.
  induction a as [| a0 a IH]; intros [| b0 b]; cbn [zipWith]; constructor; auto.
Qed.

Lemma Forall2_bcast {A B C D : Type} (R : C -> D -> Prop) (f : A -> B -> C)
    (g : A -> B -> D) (a : list A) (b : list B) :
  (forall p q, R (f p q) (g p q)) -> Forall2 R (bcast f a b) (bcast g a b).
Proof.
  intros HR.
  destruct a as [| a0 [| a1 a]]; destruct b as [| b0 [| b1 b]]; unfold bcast;
    first [ apply Forall2_zipWith; assumption
          | apply (Forall2_map_same R (f a0) (g a0)); auto
          | apply (Forall2_map_same R (fun ai => f ai b0) (fun ai => g ai b0)); auto ].
Qed.

Lemma nth_true_mono (k : nat) (u v : list bool) :
  Forall2 (fun c d => c = true -> d = true) u v ->
  nth k u false = true -> nth k v false = true.
Proof.
  intros Huv. revert k.
  induction Huv as [| c d u v Hcd _ IH]; intros [| k]; cbn [nth]; auto.
Qed.

Lemma class_count_mono (k : nat) (a b : onehot) :
  Forall2 (fun u v => nth k u false = true -> nth k v false = true) a b ->
  class_count k a <= class_count k b.
Proof.
  unfold class_count. intros Hab. apply inj_le.
  induction Hab as [| u v a b Huv _ IH]; [reflexivity |].
  cbn [filter]. destruct (nth k u false) eqn:E.
  - rewrite Huv by reflexivity. cbn [length]. lia.
  - destruct (nth k v false); cbn [length]; lia.
Qed.

Lemma inter_le_union (k : nat) (xi yj : onehot) :
  class_count k (bcast (bcast andb) xi yj) <= class_count k (bcast (bcast orb) xi yj).
Proof.
  apply class_count_mono, Forall2_bcast. intros p q.
  apply nth_true_mono, Forall2_bcast. intros [] []; cbn; congruence.
Qed.

Lemma empty_union_empty_inter (k : nat) (xi yj : onehot) :
  empty_union k xi yj -> class_count k (bcast (bcast andb) xi yj) = 0.
Proof.
  unfold empty_union. intros E.
  pose proof (inter_le_union k xi yj). pose proof (class_count_nonneg k (bcast (bcast andb) xi yj)).
  lia.
Qed.

Lemma bcast_self (f : bool -> bool -> bool) (a : onehot) :
  (forall b, f b b = b) -> bcast (bcast f) a a = a.
Proof.
  intros Hf. rewrite bcast_diag. rewrite <- (map_id a) at 2.
  apply map_ext; intros p. rewrite bcast_diag. rewrite <- (map_id p) at 2.
  apply map_ext; intros b. apply Hf.
Qed.

Lemma nth_map_seq {A : Type} (f : nat -> A) (n k : nat) (d : A) :
  (k < n)%nat -> nth k (map f (seq 0 n)) d = f k.
Proof.
  intros Hk. rewrite (nth_indep _ d (f 0%nat)) by (now rewrite length_map, length_seq).
  rewrite map_nth, seq_nth by exact Hk. reflexivity.
Qed.

(** C1 (the program departs from it).  Where class [k] occurs in neither of
    two maps, [iou] gives the pair the similarity 0.0 for that class, where
    the claim has 1.0: the count 0 is divided by 0 + 1e-8, which is 0.0 and
    no NaN, so the NaN patch does not apply.  With two classes, the distance
    of such a pair is 1.0, where the claim has 0. *)
Theorem iou_empty_union_is_zero (nc k : nat) (xi yj : onehot) :
  (k < nc)%nat -> empty_union k xi yj ->
  nth k (nth 0 (nth 0 (iou (num:=float) nc [[xi]] [[yj]]) []) []) 1%float = 0%float
  /\ (nc = 2%nat -> k = 1%nat ->
      forall oom, distance (num:=float) oom nc [xi] [yj] = Some [[1%float]]).
Proof.
  intros Hk Hu.
  assert (E : iou_class (num:=float) k xi yj = 0%float).
  { unfold iou_class. rewrite (empty_union_empty_inter k xi yj Hu).
    unfold empty_union in Hu. rewrite Hu. reflexivity. }
  split.
  - rewrite iou_single. cbn [map nth]. now rewrite nth_map_seq.
  - intros -> -> oom.
    assert (D : distance (num:=float) oom 2 [xi] [yj] = Some (distance_pairwise 2 [xi] [yj])).
    { destruct oom; [now apply distance_chunked | apply distance_full]. }
    rewrite D. unfold distance_pairwise. cbn [map seq Nat.sub]. rewrite E. reflexivity.
Qed.

(** ** The distance in exact arithmetic *)

Section ExactDistance.
Local Open Scope Qc_scope.

Lemma union_plus_smooth_nonzero (u : Z) :
  (0 <= u)%Z -> Qc_of_Z u + smooth_exact <> 0.
Proof.
  intros Hu. apply Qc_pos_nonzero.
  pose proof (inject_Z_nonneg u Hu).
  qc_to_q. change (this 0) with 0%Q. lra.
Qed.

Lemma exact_iou_class (k : nat) (xi yj : onehot) :
  iou_class (num:=exact) k xi yj
  = Fin (Qc_of_Z (class_count k (bcast (bcast andb) xi yj))
         / (Qc_of_Z (class_count k (bcast (bcast orb) xi yj)) + smooth_exact)).
Proof.
  unfold iou_class. cbn [of_int smooth_lit add exact_arith exact_lift2].
  change (@div exact exact_arith) with exact_div.
  unfold exact_div.
  rewrite Qc_nonzero_bool
    by (apply union_plus_smooth_nonzero, class_count_nonneg).
  reflexivity.
Qed.

Lemma finite_distance_entry (nc : nat) (xi yj : onehot) :
  (2 <= nc)%nat ->
  finite (of_int 1 - mean (map (fun k => iou_class k xi yj) (seq 1 (nc - 1))))%num.
Proof.
  intros Hnc.
  assert (Hm : finite (mean (map (fun k => iou_class (num:=exact) k xi yj)
                                 (seq 1 (nc - 1))))).
  { apply finite_mean.
    - destruct nc as [| [| nc]]; try lia. discriminate.
    - apply Forall_map, Forall_forall. intros k _. now rewrite exact_iou_class. }
  destruct (mean _); [contradiction | exact I].
Qed.

Lemma finite_distance_mean (nc : nat) (x y : list onehot) :
  (2 <= nc)%nat -> x <> [] -> y <> [] ->
  finite (mean (concat (distance_pairwise (num:=exact) nc x y))).
Proof.
  intros Hnc Hx Hy. apply finite_mean.
  - destruct x as [| x0 x]; [congruence |]. destruct y as [| y0 y]; [congruence |].
    discriminate.
  - apply Forall_concat, Forall_map, Forall_forall. intros xi _.
    apply Forall_map, Forall_forall. intros yj _.
    now apply finite_distance_entry.
Qed.

(** A class with [n >= 1] pixels overlaps itself with IoU n / (n + 1e-8). *)
Lemma self_iou_within (n : Z) :
  (1 <= n)%Z ->
  within (1 - smooth_exact) 1 (Fin (Qc_of_Z n / (Qc_of_Z n + smooth_exact))).
Proof.
  intros Hn. pose proof (inject_Z_ge_1 n Hn) as Hq.
  cbn [within]. qc_to_q. change (this 1) with 1%Q.
  set (x := inject_Z n) in *.
  assert (Hy : ((x + (1 # 100000000)) * / (x + (1 # 100000000)) == 1)%Q)
    by (apply Qmult_inv_r; lra).
  assert (0 < / (x + (1 # 100000000)))%Q by (apply Qinv_lt_0_compat; lra).
  unfold Qdiv. set (y := (/ (x + (1 # 100000000)))%Q) in *.
  assert (0 < (x + (1 # 100000000) - 1) * y)%Q by (apply Qmult_lt_0_compat; lra).
  split; lra.
Qed.

Lemma self_distance_entry (nc : nat) (a : onehot) :
  (2 <= nc)%nat -> all_classes_occur nc a = true ->
  within 0 smooth_exact
    (of_int 1 - mean (map (fun k => iou_class k a a) (seq 1 (nc - 1))))%num.
Proof.
  intros Hnc Ha.
  assert (Hm : within (1 - smooth_exact) 1
                 (mean (map (fun k => iou_class (num:=exact) k a a) (seq 1 (nc - 1))))).
  { apply within_mean.
    - destruct nc as [| [| nc]]; try lia. discriminate.
    - apply Forall_map, Forall_forall. intros k Hk.
      rewrite exact_iou_class, !bcast_self
        by (intros []; reflexivity).
      apply self_iou_within.
      unfold all_classes_occur in Ha. rewrite forallb_forall in Ha.
      specialize (Ha k Hk). apply Z.ltb_lt in Ha. lia. }
  destruct (mean _) as [| m]; [contradiction |].
  cbn [within] in *. cbn. destruct Hm as [L U].
  qc_to_q. change (this 1) with 1%Q in *. change (this 0) with 0%Q.
  change (inject_Z 1) with 1%Q. split; lra.
Qed.
End ExactDistance.

Lemma nth_map_nth_error {A B : Type} (f : A -> B) (l : list A) (i : nat) (a : A) (d : B) :
  nth_error l i = Some a -> nth i (map f l) d = f a.
Proof.
  intros E. apply nth_error_nth. rewrite nth_error_map, E. reflexivity.
Qed.

Lemma nth_error_nonempty {A : Type} (l : list A) (i : nat) (a : A) :
  nth_error l i = Some a -> l <> [].
Proof. destruct l, i; cbn; congruence. Qed.

Lemma self_distance_exact (oom : bool) (nc : nat) (x : list onehot)
    (i j : nat) (a : onehot) :
  (2 <= nc)%nat ->
  nth_error x i = Some a -> nth_error x j = Some a ->
  all_classes_occur nc a = true ->
  exists D, distance (num:=exact) oom nc x x = Some D
            /\ within 0%Qc smooth_exact (nth j (nth i D []) Nan).
Proof.
  intros Hnc Hi Hj Ha.
  exists (distance_pairwise nc x x). split.
  - destruct oom; [apply distance_chunked; now apply (nth_error_nonempty x i a)
                  | apply distance_full].
  - unfold distance_pairwise.
    rewrite (nth_map_nth_error _ x i a) by exact Hi.
    rewrite (nth_map_nth_error _ x j a) by exact Hj.
    now apply self_distance_entry.
Qed.

Lemma self_distance_formula {num : Type} `{Numeric num} (oom : bool) (nc : nat)
    (x : list onehot) (i j : nat) (a : onehot) :
  nth_error x i = Some a -> nth_error x j = Some a ->
  exists D, distance oom nc x x = Some D
            /\ nth j (nth i D []) (of_int 0)
               = (of_int 1
                  - mean (map (fun k => self_iou (class_count k a)) (seq 1 (nc - 1))))%num.
Proof.
  intros Hi Hj.
  exists (distance_pairwise nc x x). split.
  - destruct oom; [apply distance_chunked; now apply (nth_error_nonempty x i a)
                  | apply distance_full].
  - unfold distance_pairwise.
    rewrite (nth_map_nth_error _ x i a) by exact Hi.
    rewrite (nth_map_nth_error _ x j a) by exact Hj.
    do 2 f_equal. apply map_ext. intros k.
    unfold iou_class, self_iou.
    now rewrite !bcast_self by (intros []; reflexivity).
Qed.

(** C4, as amended.  For a map in which every non-background class occurs
    (two classes or more), the entry of [distance(x, x)] that compares the
    map with itself is 1 minus the mean, over the non-background classes, of
    n / (n + 1e-8), n >= 1 the number of pixels of the class.  This is not
    0: in exact arithmetic it lies strictly between 0 and 1e-8. *)
Theorem self_distance_within_smoothing :
  (forall (num : Type) (N : Numeric num) (oom : bool) (nc : nat) (x : list onehot)
          (i j : nat) (a : onehot),
     (2 <= nc)%nat ->
     nth_error x i = Some a -> nth_error x j = Some a ->
     all_classes_occur nc a = true ->
     Forall (fun k => 1 <= class_count k a) (seq 1 (nc - 1))
     /\ exists D, distance oom nc x x = Some D
                  /\ nth j (nth i D []) (of_int 0)
                     = (of_int 1
                        - mean (map (fun k => self_iou (class_count k a))
                                    (seq 1 (nc - 1))))%num)
  /\ (forall (oom : bool) (nc : nat) (x : list onehot) (i j : nat) (a : onehot),
        (2 <= nc)%nat ->
        nth_error x i = Some a -> nth_error x j = Some a ->
        all_classes_occur nc a = true ->
        exists D, distance (num:=exact) oom nc x x = Some D
                  /\ within 0%Qc smooth_exact (nth j (nth i D []) Nan)).
Proof.
  split.
  - intros num N oom nc x i j a _ Hi Hj Ha. split.
    + unfold all_classes_occur in Ha. rewrite forallb_forall in Ha.
      apply Forall_forall. intros k Hk. specialize (Ha k Hk).
      apply Z.ltb_lt in Ha. lia.
    + now apply self_distance_formula.
  - apply self_distance_exact.
Qed.

(** ** The energy distance of identical sets *)

Lemma mapM_all {A B : Type} (f : A -> option B) (g : A -> B) (l : list A) :
  (forall a, In a l -> f a = Some (g a)) -> mapM f l = Some (map g l).
Proof.
  induction l as [| a l IH]; intros Hf; [reflexivity |].
  cbn [mapM map]. rewrite Hf by (now left). cbn [bind].
  rewrite IH by (intros b Hb; apply Hf; now right). reflexivity.
Qed.

Lemma Forall_map_all {A B : Type} (P : B -> Prop) (f : A -> B) (l : list A) :
  (forall a, P (f a)) -> Forall P (map f l).
Proof. intros Hf. apply Forall_map, Forall_forall. intros a _. apply Hf. Qed.

Lemma in_combine_seq {A : Type} (l : list A) (s i : nat) (a : A) :
  In (i, a) (combine (seq s (length l)) l) ->
  (s <= i)%nat /\ nth_error l (i - s) = Some a.
Proof.
  revert s. induction l as [| b l IH]; intros s; cbn [length seq combine]; [intros [] |].
  intros [E | Hin].
  - inversion E; subst. rewrite Nat.sub_diag. now split.
  - destruct (IH (S s) Hin) as [Hle Hn]. split; [lia |].
    replace (i - s)%nat with (S (i - S s)) by lia. exact Hn.
Qed.

Lemma in_indexed {A : Type} (l : list A) (i : nat) (a : A) :
  In (i, a) (indexed l) -> nth_error l i = Some a.
Proof.
  intros Hin. destruct (in_combine_seq l 0 i a Hin) as [_ Hn].
  now rewrite Nat.sub_0_r in Hn.
Qed.

Lemma eye_row_binary (nc : nat) (k : Z) :
  (2 <= nc)%nat -> k = 0 \/ k = 1 -> eye_row nc k = Some (class_row nc k).
Proof.
  intros Hnc Hk. unfold eye_row.
  replace ((0 <=? k) && (k <? Z.of_nat nc)) with true; [reflexivity |].
  symmetry. apply andb_true_iff. split; [apply Z.leb_le | apply Z.ltb_lt]; lia.
Qed.

Lemma one_hot_binary (nc : nat) (d : list (list Z)) :
  (2 <= nc)%nat -> Forall (Forall (fun k => k = 0 \/ k = 1)) d ->
  one_hot nc d = Some (map (map (class_row nc)) d).
Proof.
  intros Hnc Hd. rewrite Forall_forall in Hd.
  apply mapM_all. intros row Hrow. specialize (Hd row Hrow).
  rewrite Forall_forall in Hd.
  apply mapM_all. intros k Hin. apply eye_row_binary; auto.
Qed.

Section GEDFacts.
Context {num : Type} `{Numeric num}.
Hypothesis to_int_0 : to_int (of_int 0) = 0.
Hypothesis to_int_1 : to_int (of_int 1) = 1.

Lemma binarise_binary (thresh : num) (preds : list (list (list (list num)))) :
  Forall (Forall (Forall (Forall (fun k => k = 0 \/ k = 1))))
    (class_indices (binarise thresh preds)).
Proof.
  unfold class_indices, binarise.
  rewrite map_map; apply Forall_map_all; intros b.
  rewrite map_map; apply Forall_map_all; intros m.
  rewrite map_map; apply Forall_map_all; intros r.
  rewrite map_map; apply Forall_map_all; intros v.
  destruct (ltb thresh v); auto.
Qed.

Lemma flatten_indices (d : list (list (list num))) :
  map (map to_int) (map (@concat num) d)
  = map (@concat Z) (map (map (map to_int)) d).
Proof.
  rewrite !map_map. apply map_ext; intros m. apply concat_map.
Qed.

(** On two sets with the same class maps, the three mean distances are
    one and the same number. *)
Lemma calc_identical (oom : nat -> bool) (dist_0 dist_1 : list (list (list num)))
    (nc : nat) :
  (2 <= nc)%nat -> dist_0 <> [] ->
  map (map (map to_int)) dist_0 = map (map (map to_int)) dist_1 ->
  Forall (Forall (Forall (fun k => k = 0 \/ k = 1))) (map (map (map to_int)) dist_1) ->
  exists h, h <> [] /\
    calc_generalised_energy_distance oom dist_0 dist_1 nc
    = Some (mean (concat (distance_pairwise nc h h)),
            mean (concat (distance_pairwise nc h h)),
            mean (concat (distance_pairwise nc h h))).
Proof.
  intros Hnc H0 E Hbin.
  assert (H1 : dist_1 <> []).
  { destruct dist_0, dist_1; try discriminate; congruence. }
  set (idx := map (@concat Z) (map (map (map to_int)) dist_1)).
  assert (Hidx : Forall (Forall (fun k => k = 0 \/ k = 1)) idx).
  { unfold idx. apply Forall_map. rewrite Forall_forall in *.
    intros m Hm. apply Forall_concat. now apply Hbin. }
  exists (map (map (class_row nc)) idx). split.
  { unfold idx. destruct dist_1; [congruence | discriminate]. }
  assert (D : forall o, distance o nc (map (map (class_row nc)) idx)
                          (map (map (class_row nc)) idx)
                        = Some (distance_pairwise nc (map (map (class_row nc)) idx)
                                  (map (map (class_row nc)) idx))).
  { intros o. destruct o; [apply distance_chunked | apply distance_full].
    unfold idx. destruct dist_1; [congruence | discriminate]. }
  unfold calc_generalised_energy_distance, reshape_rows.
  destruct dist_0 as [| m0 dist_0]; [congruence |].
  destruct dist_1 as [| m1 dist_1]; [congruence |].
  cbn [bind].
  rewrite (flatten_indices (m0 :: dist_0)), E, (flatten_indices (m1 :: dist_1)).
  fold idx. rewrite (one_hot_binary nc idx Hnc Hidx). cbn [bind].
  rewrite !D. reflexivity.
Qed.
(** One batch element whose ground-truth and thresholded prediction sets
    have the same class maps. *)
Lemma calc_element (oom : nat -> bool) (labels preds : list (list (list (list num))))
    (thresh : num) (nc i : nat) (dist_0 : list (list (list num))) :
  nonempty_sets labels = true -> (2 <= nc)%nat ->
  class_indices labels = class_indices (binarise thresh preds) ->
  nth_error labels i = Some dist_0 ->
  exists dist_1 h,
    h <> []
    /\ nth_error (binarise thresh preds) i = Some dist_1
    /\ calc_generalised_energy_distance oom dist_0 dist_1 nc
       = Some (mean (concat (distance_pairwise nc h h)),
               mean (concat (distance_pairwise nc h h)),
               mean (concat (distance_pairwise nc h h))).
Proof.
  intros Hne Hnc E Hi.
  assert (Hi' : nth_error (class_indices labels) i
                = Some (map (map (map to_int)) dist_0)).
  { unfold class_indices. now rewrite nth_error_map, Hi. }
  rewrite E in Hi'. pose proof Hi' as Hin.
  unfold class_indices in Hi'. rewrite nth_error_map in Hi'.
  destruct (nth_error (binarise thresh preds) i) as [dist_1 |] eqn:Hb;
    [| discriminate].
  cbn [option_map] in Hi'. injection Hi' as E1.
  apply nth_error_In in Hin.
  pose proof (binarise_binary thresh preds) as Hbin.
  rewrite Forall_forall in Hbin. specialize (Hbin _ Hin).
  assert (H0 : dist_0 <> []).
  { unfold nonempty_sets in Hne. rewrite forallb_forall in Hne.
    specialize (Hne dist_0 (nth_error_In _ _ Hi)).
    destruct dist_0; [discriminate | discriminate]. }
  destruct (calc_identical oom dist_0 dist_1 nc Hnc H0 (eq_sym E1)) as [h [Hh Hc]].
  { now rewrite E1. }
  exists dist_1, h. repeat split; assumption.
Qed.
End GEDFacts.

Section ExactGED.
Local Open Scope Qc_scope.

Lemma Qc_of_Z_2 : Qc_of_Z 2 = 1 + 1.
Proof. apply Qc_is_canon. reflexivity. Qed.

Lemma ged_of_equal_distances (c : Qc) :
  (of_int 2 * Fin c - Fin c - Fin c)%num = Fin 0.
Proof. cbn. f_equal. rewrite Qc_of_Z_2. ring. Qed.

Lemma fold_zeros {A : Type} (l : list A) :
  fold_left Qcplus (map (fun _ => 0) l) 0 = 0.
Proof.
  induction l as [| a l IH]; [reflexivity |].
  cbn [map fold_left]. now rewrite Qcplus_0_l.
Qed.

Lemma mean_zeros {A : Type} (l : list A) :
  l <> [] -> mean (map (fun _ => Fin 0) l) = Fin 0.
Proof.
  destruct l as [| a l]; [congruence | intros _].
  change (map (fun _ : A => Fin 0) (a :: l))
    with (map (fun _ : A => Fin 0) (a :: l)).
  replace (map (fun _ : A => Fin 0) (a :: l))
    with (map Fin (0 :: map (fun _ => 0) l))
    by (cbn [map]; now rewrite map_map).
  rewrite mean_Fin, fold_zeros. f_equal. unfold Qcdiv. apply Qcmult_0_l.
Qed.

(** In exact arithmetic the mean distance of such an element is a number. *)
Lemma ged_element (oom : nat -> bool) (labels preds : list (list (list (list exact))))
    (thresh : exact) (nc i : nat) (dist_0 : list (list (list exact))) :
  nonempty_sets labels = true -> (2 <= nc)%nat ->
  class_indices labels = class_indices (binarise thresh preds) ->
  nth_error labels i = Some dist_0 ->
  exists dist_1 c,
    nth_error (binarise thresh preds) i = Some dist_1
    /\ calc_generalised_energy_distance oom dist_0 dist_1 nc
       = Some (Fin c, Fin c, Fin c).
Proof.
  intros Hne Hnc E Hi.
  destruct (@calc_element exact exact_arith eq_refl eq_refl oom labels preds thresh
              nc i dist_0 Hne Hnc E Hi) as [dist_1 [h [Hh [Hb Hc]]]].
  pose proof (finite_distance_mean nc h h Hnc Hh Hh) as Hf.
  destruct (mean (concat (distance_pairwise nc h h))) as [| c] eqn:Em;
    [contradiction |].
  exists dist_1, c. split; [exact Hb | exact Hc].
Qed.

Lemma ged_exact_zero (oom : nat -> nat -> bool)
    (labels preds : list (list (list (list exact)))) (thresh : exact) (nc : nat) :
  labels <> [] -> nonempty_sets labels = true -> (2 <= nc)%nat ->
  class_indices labels = class_indices (binarise thresh preds) ->
  generalized_energy_distance oom labels preds thresh nc = Some (Fin 0).
Proof.
  intros Hl Hne Hnc E. unfold generalized_energy_distance.
  rewrite (mapM_all _ (fun _ => Fin 0)).
  - cbn [bind]. rewrite mean_zeros; [reflexivity |].
    unfold indexed. destruct labels; [congruence | discriminate].
  - intros [i dist_0] Hin. apply in_indexed in Hin.
    destruct (ged_element (oom i) labels preds thresh nc i dist_0 Hne Hnc E Hin)
      as [dist_1 [c [Hb Hc]]].
    rewrite Hb. cbn [bind]. rewrite Hc. cbn [bind].
    now rewrite ged_of_equal_distances.
Qed.
End ExactGED.

(** ** Binary64: doubling, subtracting, dividing zero *)

Lemma binary_round_aux_canonical (s : bool) (m : positive) (e : Z) :
  bounded prec emax m e = true ->
  binary_round_aux prec emax s (Zpos m) e loc_Exact = S754_finite s m e.
Proof.
  intros Hb.
  unfold bounded, canonical_mantissa in Hb.
  rewrite andb_true_iff, Z.eqb_eq, Z.leb_le in Hb. destruct Hb as [Hc He].
  unfold binary_round_aux, shr_fexp. cbn [Zdigits2]. rewrite Hc, Z.sub_diag.
  cbn [shr shr_record_of_loc shr_m loc_of_shr_record round_nearest_even Zdigits2].
  rewrite Hc, Z.sub_diag. cbn [shr shr_m].
  now replace (e <=? emax - prec) with true by (symmetry; now apply Z.leb_le).
Qed.

Lemma digits2_pos_lower (p : positive) :
  2 ^ (Zpos (digits2_pos p) - 1) <= Zpos p.
Proof.
  induction p as [p IH | p IH |]; cbn [digits2_pos]; [| | cbn; lia].
  - rewrite Pos2Z.inj_succ. replace (Z.succ (Zpos (digits2_pos p)) - 1)
      with (Z.succ (Zpos (digits2_pos p) - 1)) by lia.
    rewrite Z.pow_succ_r by lia. lia.
  - rewrite Pos2Z.inj_succ. replace (Z.succ (Zpos (digits2_pos p)) - 1)
      with (Z.succ (Zpos (digits2_pos p) - 1)) by lia.
    rewrite Z.pow_succ_r by lia. lia.
Qed.

Lemma digits2_pos_small (p : positive) :
  Zpos p < 2 ^ 53 -> Zpos (digits2_pos p) <= 53.
Proof.
  intros Hp. pose proof (digits2_pos_lower p) as Hl.
  destruct (Z_le_gt_dec (Zpos (digits2_pos p)) 53) as [H | H]; [exact H |].
  assert (2 ^ 53 <= 2 ^ (Zpos (digits2_pos p) - 1)) by (apply Z.pow_le_mono_r; lia).
  lia.
Qed.

Lemma digits2_pos_iter_xO (p k : positive) :
  Zpos (digits2_pos (Pos.iter xO p k)) = Zpos (digits2_pos p) + Zpos k.
Proof.
  induction k as [| k IH] using Pos.peano_ind.
  - cbn [Pos.iter digits2_pos]. now rewrite Pos2Z.inj_succ.
  - rewrite Pos.iter_succ. cbn [digits2_pos]. rewrite !Pos2Z.inj_succ, IH. lia.
Qed.

Lemma binary_round_small (p : positive) :
  Zpos p < 2 ^ 53 ->
  exists m e, binary_round prec emax false p 0 = S754_finite false m e.
Proof.
  intros Hp. pose proof (digits2_pos_small p Hp) as Hd.
  unfold binary_round, shl_align.
  replace (fexp prec emax (Zpos (digits2_pos p) + 0))
    with (Zpos (digits2_pos p) - 53)
    by (unfold fexp, SpecFloat.emin, prec, emax; lia).
  rewrite Z.sub_0_r.
  destruct (Zpos (digits2_pos p) - 53) as [| q | q] eqn:E; try lia.
  - exists p, 0. apply binary_round_aux_canonical.
    unfold bounded, canonical_mantissa, fexp, SpecFloat.emin, prec, emax.
    apply andb_true_iff. split; [apply Z.eqb_eq | apply Z.leb_le]; lia.
  - exists (Pos.iter xO p q), (Zneg q). apply binary_round_aux_canonical.
    unfold bounded, canonical_mantissa, fexp, SpecFloat.emin, prec, emax.
    rewrite digits2_pos_iter_xO.
    apply andb_true_iff. split; [apply Z.eqb_eq | apply Z.leb_le]; lia.
Qed.

Lemma Z2float_positive (z : Z) :
  0 < z < 2 ^ 53 -> exists m e, Prim2SF (Z2float z) = S754_finite false m e.
Proof.
  intros Hz. destruct z as [| p | p]; try lia.
  unfold Z2float. rewrite of_uint63_spec.
  rewrite Uint63.of_Z_spec.
  rewrite Z.mod_small.
  - cbn [binary_normalize]. apply binary_round_small. lia.
  - split; [lia |]. unfold Uint63.wB. cbn. 
    assert (2 ^ 53 < 2 ^ 63) by (apply Z.pow_lt_mono_r; lia). 
    change (2 ^ Z.of_nat Uint63.size) with (2 ^ 63). lia.
Qed.

Lemma zero_div_positive (y : float) (m : positive) (e : Z) :
  Prim2SF y = S754_finite false m e -> (0 / y)%float = 0%float.
Proof.
  intros Hy. apply Prim2SF_inj. rewrite div_spec, Hy. reflexivity.
Qed.

Lemma bounded_cases (m : positive) (e : Z) :
  bounded prec emax m e = true ->
  e <= 971 /\ -1074 <= e /\
  ((Zpos (digits2_pos m) = 53) \/ (Zpos (digits2_pos m) < 53 /\ e = -1074)).
Proof.
  unfold bounded, canonical_mantissa, fexp, SpecFloat.emin, prec, emax.
  rewrite andb_true_iff, Z.eqb_eq, Z.leb_le.
  intros [Hc He]. lia.
Qed.

Lemma SF_double_normal (s : bool) (m : positive) (e : Z) :
  Zpos (digits2_pos m) = 53 -> -1074 <= e ->
  SF64mul two_sf (S754_finite s m e)
  = if e + 1 <=? 971 then S754_finite s m (e + 1) else S754_infinity s.
Proof.
  intros Hd He. unfold SF64mul, SFmul, two_sf. cbn [xorb Pos.mul].
  unfold binary_round_aux, shr_fexp.
  cbn [Zdigits2 digits2_pos]. rewrite !Pos2Z.inj_succ, Hd.
  unfold fexp, SpecFloat.emin, prec, emax, shr_record_of_loc.
  replace (Z.max _ _ - (-51 + e)) with 52 by lia.
  cbn [shr iter_pos shr_1 orb].
  cbn [shr_m loc_of_shr_record round_nearest_even Zdigits2].
  rewrite Hd.
  replace (Z.max _ _ - _) with 0 by lia.
  cbn [shr shr_m].
  replace (-51 + e + 52) with (e + 1) by lia. reflexivity.
Qed.

Lemma SF_double_subnormal (s : bool) (m : positive) :
  Zpos (digits2_pos m) < 53 ->
  SF64mul two_sf (S754_finite s m (-1074)) = S754_finite s (xO m) (-1074).
Proof.
  intros Hd. unfold SF64mul, SFmul, two_sf. cbn [xorb Pos.mul].
  unfold binary_round_aux, shr_fexp.
  cbn [Zdigits2 digits2_pos]. rewrite !Pos2Z.inj_succ.
  unfold fexp, SpecFloat.emin, prec, emax, shr_record_of_loc.
  replace (Z.max _ _ - (-51 + -1074)) with 51 by lia.
  cbn [shr iter_pos shr_1 orb].
  cbn [shr_m loc_of_shr_record round_nearest_even Zdigits2 digits2_pos].
  rewrite Pos2Z.inj_succ.
  replace (Z.max _ _ - _) with 0 by lia.
  cbn [shr shr_m]. reflexivity.
Qed.

(** Rounding a canonical mantissa changes nothing. *)
Lemma binary_round_canonical (s : bool) (m : positive) (e : Z) :
  bounded prec emax m e = true ->
  binary_round prec emax s m e = S754_finite s m e.
Proof.
  intros Hb. pose proof Hb as Hb'.
  unfold bounded, canonical_mantissa in Hb.
  rewrite andb_true_iff, Z.eqb_eq, Z.leb_le in Hb. destruct Hb as [Hc He].
  unfold binary_round. rewrite Hc. unfold shl_align. rewrite Z.sub_diag.
  unfold binary_round_aux, shr_fexp. cbn [Zdigits2]. rewrite Hc, Z.sub_diag.
  cbn [shr shr_record_of_loc shr_m loc_of_shr_record round_nearest_even Zdigits2].
  rewrite Hc, Z.sub_diag. cbn [shr shr_m].
  now replace (e <=? emax - prec) with true by (symmetry; now apply Z.leb_le).
Qed.

Lemma binary_normalize_canonical (s : bool) (m : positive) (e : Z) :
  bounded prec emax m e = true ->
  binary_normalize prec emax (cond_Zopp s (Zpos m)) e false = S754_finite s m e.
Proof.
  intros Hb. destruct s; cbn [cond_Zopp Z.opp binary_normalize];
    now apply binary_round_canonical.
Qed.

Lemma cond_Zopp_sub (s : bool) (a b : Z) :
  cond_Zopp s a - cond_Zopp s b = cond_Zopp s (a - b).
Proof. destruct s; cbn [cond_Zopp]; lia. Qed.

Lemma SF_sub_next_exponent (s : bool) (m : positive) (e : Z) :
  bounded prec emax m e = true ->
  SF64sub (S754_finite s m (e + 1)) (S754_finite s m e) = S754_finite s m e.
Proof.
  intros Hb. unfold SF64sub, SFsub.
  replace (Z.min (e + 1) e) with e by lia.
  unfold shl_align. rewrite Z.sub_diag.
  replace (e - (e + 1)) with (-1) by lia. cbn [fst Pos.iter].
  rewrite cond_Zopp_sub.
  replace (Zpos m~0 - Zpos m) with (Zpos m) by lia.
  now apply binary_normalize_canonical.
Qed.

Lemma SF_sub_double_mantissa (s : bool) (m : positive) (e : Z) :
  bounded prec emax m e = true ->
  SF64sub (S754_finite s (xO m) e) (S754_finite s m e) = S754_finite s m e.
Proof.
  intros Hb. unfold SF64sub, SFsub.
  rewrite Z.min_id. unfold shl_align. rewrite Z.sub_diag. cbn [fst].
  rewrite cond_Zopp_sub.
  replace (Zpos m~0 - Zpos m) with (Zpos m) by lia.
  now apply binary_normalize_canonical.
Qed.

Lemma SF_sub_self (s : bool) (m : positive) (e : Z) :
  SF64sub (S754_finite s m e) (S754_finite s m e) = S754_zero false.
Proof.
  unfold SF64sub, SFsub.
  rewrite Z.min_id. unfold shl_align. now rewrite !Z.sub_diag.
Qed.

Lemma double_minus_twice (c : float) :
  finite64 c = true -> finite64 (2 * c) = true -> (2 * c - c - c)%float = 0%float.
Proof.
  unfold finite64. intros Hc H2c.
  apply Prim2SF_inj. rewrite !sub_spec.
  rewrite mul_spec in *.
  change (Prim2SF 2) with two_sf in *.
  change (Prim2SF 0) with (S754_zero false).
  pose proof (Prim2SF_valid c) as Hv.
  destruct (Prim2SF c) as [s | s | | s m e]; try discriminate.
  - destruct s; reflexivity.
  - cbn [SpecFloat.valid_binary] in Hv.
    destruct (bounded_cases m e Hv) as [He [He' [Hd | [Hd ->]]]].
    + rewrite (SF_double_normal s m e Hd He') in *.
      destruct (e + 1 <=? 971); [| discriminate].
      rewrite SF_sub_next_exponent by exact Hv. apply SF_sub_self.
    + rewrite (SF_double_subnormal s m Hd) in *.
      rewrite SF_sub_double_mantissa by exact Hv. apply SF_sub_self.
Qed.

Lemma binary64_sum_zeros {A : Type} (l : list A) :
  fold_left add (map (fun _ => 0%float) l) 0%float = 0%float.
Proof.
  induction l as [| a l IH]; [reflexivity |].
  cbn [map fold_left]. exact IH.
Qed.

Lemma binary64_mean_zeros {A : Type} (l : list A) :
  l <> [] -> Z.of_nat (length l) < 2 ^ 53 ->
  mean (map (fun _ => 0%float) l) = 0%float.
Proof.
  intros Hl Hn. destruct l as [| a l]; [congruence |].
  unfold mean. rewrite length_map. unfold sum. cbn [map].
  rewrite binary64_sum_zeros.
  destruct (Z2float_positive (Z.of_nat (length (a :: l)))) as [m [e Hp]].
  { split; [cbn [length]; lia | exact Hn]. }
  exact (zero_div_positive _ m e Hp).
Qed.

Lemma ged_binary64_zero (oom : nat -> nat -> bool)
    (labels preds : list (list (list (list float)))) (thresh : float) (nc : nat) :
  labels <> [] -> Z.of_nat (length labels) < 2 ^ 53 ->
  nonempty_sets labels = true -> (2 <= nc)%nat ->
  class_indices labels = class_indices (binarise thresh preds) ->
  finite_distances oom labels preds thresh nc = true ->
  generalized_energy_distance oom labels preds thresh nc = Some 0%float.
Proof.
  intros Hl Hlen Hne Hnc E Hfin. unfold generalized_energy_distance.
  rewrite (mapM_all _ (fun _ => 0%float)).
  - cbn [bind]. rewrite binary64_mean_zeros; [reflexivity | |].
    + unfold indexed. destruct labels; [congruence | discriminate].
    + unfold indexed. now rewrite length_combine, length_seq, Nat.min_id.
  - intros [i dist_0] Hin.
    unfold finite_distances in Hfin. rewrite forallb_forall in Hfin.
    specialize (Hfin _ Hin). cbn beta iota in Hfin.
    apply in_indexed in Hin.
    destruct (@calc_element float binary64 eq_refl eq_refl (oom i) labels preds thresh
                nc i dist_0 Hne Hnc E Hin) as [dist_1 [h [_ [Hb Hc]]]].
    rewrite Hb in *. cbn [bind]. rewrite Hc in *. cbn [bind].
    apply andb_true_iff in Hfin. destruct Hfin as [F1 F2].
    f_equal. now apply double_minus_twice.
Qed.

(** C3.  When the ground-truth and the prediction sets of every batch
    element are identical (the same class maps once the predictions are
    thresholded; one map at least per set, two classes or more):
    [cross_distance], [distance_0] and [distance_1] are one and the same
    double [c] for every batch element; on one batch element at least,
    [generalized_energy_distance] returns exactly 0.0 wherever each [c] and
    [2 * c] are finite doubles; and in exact arithmetic it returns 0. *)
Theorem ged_identical_sets :
  (forall (oom : nat -> nat -> bool) (labels preds : list (list (list (list float))))
          (thresh : float) (nc : nat),
     nonempty_sets labels = true -> (2 <= nc)%nat ->
     class_indices labels = class_indices (binarise thresh preds) ->
     forall i dist_0, nth_error labels i = Some dist_0 ->
       exists dist_1 c,
         nth_error (binarise thresh preds) i = Some dist_1
         /\ calc_generalised_energy_distance (oom i) dist_0 dist_1 nc = Some (c, c, c))
  /\ (forall (oom : nat -> nat -> bool) (labels preds : list (list (list (list float))))
             (thresh : float) (nc : nat),
        labels <> [] -> Z.of_nat (length labels) < 2 ^ 53 ->
        nonempty_sets labels = true -> (2 <= nc)%nat ->
        class_indices labels = class_indices (binarise thresh preds) ->
        finite_distances oom labels preds thresh nc = true ->
        generalized_energy_distance oom labels preds thresh nc = Some 0%float)
  /\ (forall (oom : nat -> nat -> bool) (labels preds : list (list (list (list exact))))
             (thresh : exact) (nc : nat),
        labels <> [] -> nonempty_sets labels = true -> (2 <= nc)%nat ->
        class_indices labels = class_indices (binarise thresh preds) ->
        generalized_energy_distance oom labels preds thresh nc = Some (Fin 0%Qc)).
Proof.
  split; [| split].
  - intros oom labels preds thresh nc Hne Hnc E i dist_0 Hi.
    destruct (@calc_element float binary64 eq_refl eq_refl (oom i) labels preds thresh
                nc i dist_0 Hne Hnc E Hi) as [dist_1 [h [_ [Hb Hc]]]].
    eauto.
  - apply ged_binary64_zero.
  - apply ged_exact_zero.
Qed.

(** ** The claims at sample inputs *)

Lemma iou_empty_union_is_zero_witness :
  (1 < 2)%nat /\ empty_union 1 background_pixel background_pixel
  /\ nth 1 (nth 0 (nth 0 (iou (num:=float) 2 [[background_pixel]] [[background_pixel]])
                       []) []) 1%float = 0%float
  /\ distance (num:=float) false 2 [background_pixel] [background_pixel]
     = Some [[1%float]].
Proof.
  pose proof (iou_empty_union_is_zero 2 1 background_pixel background_pixel
                ltac:(lia) eq_refl) as [E D].
  split; [lia |]. split; [reflexivity |].
  split; [exact E | exact (D eq_refl eq_refl false)].
Defined.

Lemma distance_excludes_background_witness :
  distance (num:=float) false 2 [two_pixels] [two_pixels; two_pixels]
  = Some (distance_pairwise 2 [two_pixels] [two_pixels; two_pixels])
  /\ distance (num:=float) false 2 [two_pixels_repainted] [two_pixels_repainted; two_pixels]
     = distance false 2 [two_pixels] [two_pixels; two_pixels].
Proof.
  apply (distance_excludes_background false 2
           [two_pixels] [two_pixels; two_pixels]
           [two_pixels_repainted] [two_pixels_repainted; two_pixels]);
    first [ intros; discriminate | reflexivity | unfold same_foreground; reflexivity ].
Defined.

(** The three distances of the specification's example, as the program
    computes them. *)
Example calc_on_identical_masks :
  calc_generalised_energy_distance (num:=float) (fun _ => false)
    [square_mask; square_mask] [square_mask; square_mask] 2
  = Some (2.4999999848063226e-09, 2.4999999848063226e-09, 2.4999999848063226e-09)%float.
Proof. vm_compute. reflexivity. Qed.

(** The example of the specification: two identical 4 x 4 masks for labels
    and predictions, threshold 0.5. *)
Lemma ged_identical_sets_witness :
  generalized_energy_distance (num:=float) (fun _ _ => false)
    [[square_mask; square_mask]] [[square_mask; square_mask]] 0.5%float 2
  = Some 0%float.
Proof.
  refine (proj1 (proj2 ged_identical_sets) (fun _ _ => false)
            [[square_mask; square_mask]] [[square_mask; square_mask]]
            0.5%float 2%nat _ _ _ _ _ _).
  - discriminate.
  - reflexivity.
  - reflexivity.
  - lia.
  - vm_compute. reflexivity.
  - vm_compute. reflexivity.
Defined.

Example ged_exact_on_identical_masks :
  generalized_energy_distance (fun _ _ => false)
    [[square_mask_exact; square_mask_exact]] [[square_mask_exact; square_mask_exact]]
    (Fin (Q2Qc (1 # 2))) 2
  = Some (Fin 0%Qc).
Proof.
  apply ged_exact_zero; first [ discriminate | reflexivity | lia ].
Qed.

(** The claim of C4 fails on one pixel of class 1 compared with itself: the
    program computes 1 - 1 / (1 + 1e-8). *)
Lemma self_distance_is_not_zero :
  distance (num:=float) false 2 [foreground_pixel] [foreground_pixel]
  = Some [[9.9999998282029878e-09%float]]
  /\ PrimFloat.eqb 9.9999998282029878e-09%float 0%float = false.
Proof. split; vm_compute; reflexivity. Qed.

Lemma self_distance_within_smoothing_witness :
  exists D, distance (num:=exact) true 2 [two_pixels; two_pixels_repainted; two_pixels]
              [two_pixels; two_pixels_repainted; two_pixels] = Some D
            /\ within 0%Qc smooth_exact (nth 2 (nth 0 D []) Nan).
Proof.
  apply (proj2 self_distance_within_smoothing true 2%nat
           [two_pixels; two_pixels_repainted; two_pixels] 0%nat 2%nat two_pixels);
    first [ lia | reflexivity ].
Defined.

(** ** Random draws *)

Lemma randint_range (lo hi : Z) (g g' : tape) (v : Z) :
  randint lo hi g = Some (v, g') -> lo <= v < hi.
Proof.
  unfold randint. destruct (hi <=? lo) eqn:E; [discriminate |].
  apply Z.leb_gt in E.
  destruct g as [| r g0]; intros Hr; injection Hr as <- _; [lia |].
  pose proof (Z.mod_pos_bound (Z.of_nat r) (hi - lo) ltac:(lia)). lia.
Qed.

Lemma randint_total (lo hi : Z) (g : tape) :
  lo < hi -> exists v g', randint lo hi g = Some (v, g').
Proof.
  intros Hlt. unfold randint.
  replace (hi <=? lo) with false by (symmetry; apply Z.leb_gt; lia).
  destruct g as [| r g0]; eauto.
Qed.

(** ** The prompt generator *)

Lemma nonzero_row_nil (r s : nat) (row : list Z) :
  flat_map (fun '(c, v) => if v =? 0 then [] else [(r, c)])
           (combine (seq s (length row)) row) = []
  <-> forallb (fun v => v =? 0) row = true.
Proof.
  revert s. induction row as [| v row IH]; intros s; [now split |].
  cbn [length seq combine flat_map forallb].
  destruct (v =? 0); cbn [app andb]; [apply IH | split; discriminate].
Qed.

Lemma nonzero_rows_nil (s : nat) (img : image) :
  flat_map (fun '(r, row) =>
              flat_map (fun '(c, v) => if v =? 0 then [] else [(r, c)]) (indexed row))
           (combine (seq s (length img)) img) = []
  <-> forallb (forallb (fun v => v =? 0)) img = true.
Proof.
  revert s. induction img as [| row img IH]; intros s; [now split |].
  cbn [length seq combine flat_map forallb].
  rewrite andb_true_iff, <- (IH (S s)), <- (nonzero_row_nil s 0 row).
  unfold indexed. split.
  - intros E. now apply app_eq_nil in E.
  - intros [E1 E2]. now rewrite E1, E2.
Qed.

Lemma nonzero_nil (img : image) : nonzero img = [] <-> all_zero img = true.
Proof. apply (nonzero_rows_nil 0). Qed.

(** An index that [torch.nonzero] reports is that of a non-zero entry. *)
Lemma nonzero_in (img : image) (r c : nat) :
  In (r, c) (nonzero img) ->
  exists row v, nth_error img r = Some row /\ nth_error row c = Some v /\ v <> 0.
Proof.
  unfold nonzero. rewrite in_flat_map. intros [[r' row] [Hrow Hin]].
  rewrite in_flat_map in Hin. destruct Hin as [[c' v] [Hv Hin]].
  destruct (v =? 0) eqn:E; [contradiction |].
  destruct Hin as [Heq | []]. injection Heq as <- <-.
  exists row, v. repeat split; try (now apply in_indexed).
  now apply Z.eqb_neq.
Qed.

Lemma click_point_ok (h : nat) (pt_label : Z) (img : image) (g g' : tape)
    (r c l : Z) :
  click_point h pt_label img (nonzero img) g = Some (r, c, l, g') ->
  point_ok h pt_label img (r, c, l).
Proof.
  unfold click_point, point_ok.
  destruct (nonzero img) as [| i0 indices] eqn:En.
  - intros Hp. left. split; [now apply nonzero_nil |].
    destruct (randint 0 (Z.of_nat h) g) as [[a g1] |] eqn:Ea; [| discriminate].
    cbn [bind] in Hp.
    destruct (randint 0 (Z.of_nat h) g1) as [[b g2] |] eqn:Eb; [| discriminate].
    cbn [bind] in Hp. injection Hp as <- <- <- _.
    apply randint_range in Ea, Eb. auto.
  - intros Hp. right. split.
    { destruct (all_zero img) eqn:Ez; [| reflexivity].
      apply nonzero_nil in Ez. congruence. }
    destruct (randint 0 (Z.of_nat (length (i0 :: indices))) g) as [[k g1] |] eqn:Ek;
      [| discriminate].
    cbn [bind] in Hp. apply randint_range in Ek.
    destruct (nth (Z.to_nat k) (i0 :: indices) (0%nat, 0%nat)) as [r0 c0] eqn:Ei.
    injection Hp as <- <- <- _.
    assert (Hin : In (r0, c0) (nonzero img)).
    { rewrite En, <- Ei. apply nth_In. lia. }
    destruct (nonzero_in img r0 c0 Hin) as [row [v [Hr [Hc Hv]]]].
    exists r0, c0, row, v. repeat split; auto.
    rewrite (nth_error_nth _ _ _ Hr). now apply nth_error_nth.
Qed.

Lemma click_point_total (h : nat) (pt_label : Z) (img : image) (g : tape) :
  (0 < h)%nat ->
  exists res, click_point h pt_label img (nonzero img) g = Some res.
Proof.
  intros Hh. unfold click_point.
  destruct (nonzero img) as [| i0 indices].
  - destruct (randint_total 0 (Z.of_nat h) g ltac:(lia)) as [a [g1 ->]]. cbn [bind].
    destruct (randint_total 0 (Z.of_nat h) g1 ltac:(lia)) as [b [g2 ->]]. cbn [bind].
    eauto.
  - destruct (randint_total 0 (Z.of_nat (length (i0 :: indices))) g
                ltac:(cbn [length]; lia)) as [k [g1 ->]].
    cbn [bind]. destruct (nth _ _ _). eauto.
Qed.

Lemma click_points_ok (n h : nat) (pt_label : Z) (img : image) (g g' : tape)
    (pts : list (Z * Z * Z)) :
  click_points n h pt_label img (nonzero img) g = Some (pts, g') ->
  length pts = n /\ Forall (point_ok h pt_label img) pts.
Proof.
  revert g g' pts. induction n as [| n IH]; intros g g' pts; cbn [click_points].
  - intros Hp. injection Hp as <- _. now split.
  - destruct (click_point h pt_label img (nonzero img) g) as [[[[r c] l] g1] |] eqn:E1;
      [| discriminate].
    cbn [bind].
    destruct (click_points n h pt_label img (nonzero img) g1) as [[rest g2] |] eqn:E2;
      [| discriminate].
    cbn [bind]. intros Hp. injection Hp as <- _.
    destruct (IH g1 g2 rest E2) as [Hlen Hall].
    split; [cbn [length]; lia |].
    constructor; [now apply (click_point_ok h pt_label img g g1) | exact Hall].
Qed.

Lemma click_points_total (n h : nat) (pt_label : Z) (img : image) (g : tape) :
  (0 < h)%nat ->
  exists res, click_points n h pt_label img (nonzero img) g = Some res.
Proof.
  intros Hh. revert g. induction n as [| n IH]; intros g; cbn [click_points]; [eauto |].
  destruct (click_point_total h pt_label img g Hh) as [[[[r c] l] g1] ->]. cbn [bind].
  destruct (IH g1) as [[rest g2] ->]. cbn [bind]. eauto.
Qed.

Lemma click_batch_ok (batch : list (list image)) (n h : nat) (pt_label : Z) (g : tape)
    (out : list (list (Z * Z * Z))) :
  click_batch batch n h pt_label g = Some out ->
  forall j chans img,
    nth_error batch j = Some chans -> nth_error chans 0 = Some img ->
    length (nth j out []) = n /\ Forall (point_ok h pt_label img) (nth j out []).
Proof.
  revert g out. induction batch as [| chans0 batch IH]; intros g out; cbn [click_batch].
  - intros _ [| j] chans img Hj; discriminate.
  - destruct (nth_error chans0 0) as [msk_s |] eqn:E0; [| discriminate]. cbn [bind].
    destruct (click_points n h pt_label msk_s (nonzero msk_s) g) as [[pts g1] |] eqn:E1;
      [| discriminate].
    cbn [bind].
    destruct (click_batch batch n h pt_label g1) as [rest |] eqn:E2; [| discriminate].
    cbn [bind]. intros Ho. injection Ho as <-.
    intros [| j] chans img Hj Himg; cbn [nth_error nth] in *.
    + injection Hj as <-. rewrite E0 in Himg. injection Himg as <-.
      now apply (click_points_ok n h pt_label msk_s g g1).
    + now apply (IH g1 rest E2 j chans img).
Qed.

Lemma click_batch_total (batch : list (list image)) (n h : nat) (pt_label : Z) (g : tape) :
  (0 < h)%nat -> Forall (fun chans => length chans = 1%nat) batch ->
  exists out, click_batch batch n h pt_label g = Some out.
Proof.
  intros Hh Hb. revert g. induction Hb as [| chans batch Hc _ IH]; intros g;
    cbn [click_batch]; [eauto |].
  destruct chans as [| msk_s chans]; [discriminate |]. cbn [nth_error bind].
  destruct (click_points_total n h pt_label msk_s g Hh) as [[pts g1] ->]. cbn [bind].
  destruct (IH g1) as [rest ->]. cbn [bind]. eauto.
Qed.

Lemma combine_fst_snd {A B : Type} (l : list (A * B)) :
  combine (map fst l) (map snd l) = l.
Proof. induction l as [| [a b] l IH]; cbn; [reflexivity | now rewrite IH]. Qed.

Lemma points_of_stack (pts : list (list (Z * Z * Z))) (j : nat) :
  points_of {| point_coords := map (map fst) pts; point_labels := map (map snd) pts |} j
  = nth j pts [].
Proof.
  unfold points_of. cbn [point_coords point_labels].
  revert j. induction pts as [| p pts IH]; intros [| j]; cbn [map nth];
    try reflexivity; try apply combine_fst_snd.
  apply IH.
Qed.

Lemma well_shaped_data (msk : mask) (b c h w : nat) :
  size msk = (b, c, h, w) -> well_shaped msk = true ->
  length (data msk) = b /\ Forall (fun chans => length chans = c) (data msk).
Proof.
  unfold well_shaped. intros ->. rewrite andb_true_iff, forallb_forall.
  intros [Hb Hd]. split; [now apply Nat.eqb_eq |].
  apply Forall_forall. intros chans Hin. specialize (Hd chans Hin).
  apply andb_true_iff in Hd. now apply Nat.eqb_eq.
Qed.

(** [generate_click_prompt] returns on a batch of one-channel masks that is
    not empty, and each of its points is one the inner loop may produce. *)
Lemma generate_click_prompt_ok (g : tape) (msk : mask) (num_points : nat) (pt_label : Z)
    (b h w : nat) :
  size msk = (b, 1%nat, h, w) -> well_shaped msk = true ->
  (0 < b)%nat -> (0 < h)%nat -> (0 < num_points)%nat ->
  exists out,
    generate_click_prompt g msk num_points pt_label = Some out
    /\ forall j chans img,
         nth_error (data msk) j = Some chans -> nth_error chans 0 = Some img ->
         length (points_of out j) = num_points
         /\ Forall (point_ok h pt_label img) (points_of out j).
Proof.
  intros Hs Hw Hb Hh Hn.
  destruct (well_shaped_data msk b 1 h w Hs Hw) as [Hlen Hc].
  unfold generate_click_prompt. rewrite Hs.
  rewrite <- Hlen, firstn_all.
  destruct (click_batch_total (data msk) num_points h pt_label g Hh Hc) as [pts Hp].
  rewrite Hp. cbn [bind].
  replace (length (data msk) * num_points =? 0)%nat with false
    by (symmetry; apply Nat.eqb_neq; nia).
  eexists. split; [reflexivity |].
  intros j chans img Hj Himg. rewrite points_of_stack.
  now apply (click_batch_ok (data msk) num_points h pt_label g pts Hp j chans img).
Qed.

(** C6.  On a batch of one-channel masks (one mask at least, one point at
    least), [generate_click_prompt] returns, and for every mask of the batch
    with a foreground pixel each of its [num_points] points lies on a
    non-zero entry of that mask and is labelled with the value there. *)
Theorem click_on_foreground (g : tape) (msk : mask) (num_points : nat) (pt_label : Z)
    (b h w : nat) :
  size msk = (b, 1%nat, h, w) -> well_shaped msk = true ->
  (0 < b)%nat -> (0 < h)%nat -> (0 < num_points)%nat ->
  exists out,
    generate_click_prompt g msk num_points pt_label = Some out
    /\ forall j chans img,
         nth_error (data msk) j = Some chans -> nth_error chans 0 = Some img ->
         all_zero img = false ->
         length (points_of out j) = num_points
         /\ Forall (on_foreground img) (points_of out j).
Proof.
  intros Hs Hw Hb Hh Hn.
  destruct (generate_click_prompt_ok g msk num_points pt_label b h w Hs Hw Hb Hh Hn)
    as [out [Ho Hp]].
  exists out. split; [exact Ho |].
  intros j chans img Hj Himg Hz. destruct (Hp j chans img Hj Himg) as [Hlen Hall].
  split; [exact Hlen |].
  eapply Forall_impl; [| exact Hall].
  intros [[r c] l] [[Hz' _] | [_ Hfg]]; [congruence | exact Hfg].
Qed.

(** What the program does on an empty mask: both the row and the column of
    each point are drawn from [0, H), and the label is [pt_label]. *)
Lemma click_on_empty_mask (g : tape) (msk : mask) (num_points : nat) (pt_label : Z)
    (b h w : nat) :
  size msk = (b, 1%nat, h, w) -> well_shaped msk = true ->
  (0 < b)%nat -> (0 < h)%nat -> (0 < num_points)%nat ->
  exists out,
    generate_click_prompt g msk num_points pt_label = Some out
    /\ forall j chans img,
         nth_error (data msk) j = Some chans -> nth_error chans 0 = Some img ->
         all_zero img = true ->
         length (points_of out j) = num_points
         /\ Forall (drawn_below h pt_label) (points_of out j).
Proof.
  intros Hs Hw Hb Hh Hn.
  destruct (generate_click_prompt_ok g msk num_points pt_label b h w Hs Hw Hb Hh Hn)
    as [out [Ho Hp]].
  exists out. split; [exact Ho |].
  intros j chans img Hj Himg Hz. destruct (Hp j chans img Hj Himg) as [Hlen Hall].
  split; [exact Hlen |].
  eapply Forall_impl; [| exact Hall].
  intros [[r c] l] [[_ Hd] | [Hz' _]]; [exact Hd | congruence].
Qed.

(** C7 (the program departs from it).  On the all-zero mask of shape
    (1, 1, 2, 1) and the tape 0, 1 the program returns the point (0, 1) with
    the default label: the column 1 is outside [0, W) = [0, 1), because both
    coordinates are drawn from [0, H). *)
Theorem click_on_empty_mask_leaves_image :
  well_shaped tall_empty_mask = true
  /\ forallb all_zero (concat (data tall_empty_mask)) = true
  /\ generate_click_prompt [0; 1]%nat tall_empty_mask 1 7
     = Some {| point_coords := [[(0, 1)]]; point_labels := [[7]] |}
  /\ (1 <? 1) = false.
Proof. repeat split. Qed.

Lemma click_on_foreground_witness :
  exists out,
    generate_click_prompt [3; 1; 5]%nat sample_mask 2 7 = Some out
    /\ forall j chans img,
         nth_error (data sample_mask) j = Some chans -> nth_error chans 0 = Some img ->
         all_zero img = false ->
         length (points_of out j) = 2%nat
         /\ Forall (on_foreground img) (points_of out j).
Proof.
  apply (click_on_foreground [3; 1; 5]%nat sample_mask 2 7 2 2 3);
    first [ reflexivity | lia ].
Defined.

(** ** The truncated-normal initialiser *)

Lemma argmax_from_true (best_i i : nat) (l : list bool) :
  argmax_from true best_i i l = best_i.
Proof. revert i. induction l as [| v l IH]; intros i; cbn; auto. Qed.

Section TruncatedNormalFacts.
Context {num : Type} `{Numeric num}.

Lemma argmax_from_find (pre row : list num) (best_i : nat) (d : num) :
  nth (argmax_from false best_i (length pre) (map valid row)) (pre ++ row) d
  = match find valid row with
    | Some u => u
    | None => nth best_i (pre ++ row) d
    end.
Proof.
  revert pre. induction row as [| u row IH]; intros pre; [reflexivity |].
  cbn [map argmax_from find negb andb]. destruct (valid u) eqn:E.
  - rewrite argmax_from_true. apply nth_middle.
  - specialize (IH (pre ++ [u])).
    rewrite length_app, Nat.add_1_r, <- app_assoc in IH. cbn [app] in IH.
    rewrite IH. reflexivity.
Qed.

Lemma find_none_kept (row : list num) (v : num) :
  valid v = false ->
  match find valid row with Some u => u | None => v end = kept (v :: row).
Proof. intros E. unfold kept. cbn [find]. now rewrite E. Qed.

Lemma nth_argmax_kept (row : list num) :
  nth (argmax_first (map valid row)) row (of_int 0) = kept row.
Proof.
  destruct row as [| v row]; [reflexivity |].
  cbn [map argmax_first]. destruct (valid v) eqn:E.
  - rewrite argmax_from_true. unfold kept. cbn [find nth]. now rewrite E.
  - rewrite <- (find_none_kept row v E).
    exact (argmax_from_find [v] row 0 (of_int 0)).
Qed.
End TruncatedNormalFacts.

(** C8, as amended.  For every entry of the tensor, [truncated_normal_]
    keeps the first of its draws that lies strictly between -2 and 2 and, if
    none does, the first draw (not the last); the kept value is multiplied by
    [std] and [mean] is added.  With 4 draws this is the chain below. *)
Theorem truncated_normal_keeps_first {num : Type} `{Numeric num}
    (tmp : list (list num)) (mean std : num) :
  truncated_normal_ tmp mean std = map (fun row => (kept row * std + mean)%num) tmp
  /\ forall s0 s1 s2 s3,
       kept [s0; s1; s2; s3]
       = if valid s0 then s0
         else if valid s1 then s1
         else if valid s2 then s2
         else if valid s3 then s3
         else s0.
Proof.
  split.
  - unfold truncated_normal_. apply map_ext. intros row. now rewrite nth_argmax_kept.
  - intros s0 s1 s2 s3. unfold kept. cbn [find hd].
    destruct (valid s0), (valid s1), (valid s2), (valid s3); reflexivity.
Qed.

(** The claim of C8 fails on four draws outside (-2, 2): the program keeps
    the first, 3, where the claim has the last, 4. *)
Lemma truncated_normal_keeps_first_not_last :
  truncated_normal_ (num:=float) [[3; -3; 2.5; 4]]%float 0%float 1%float = [3%float]
  /\ map (fun row => (kept_as_specified row * 1%float + 0%float)%num)
         [[3; -3; 2.5; 4]]%float = [4%float].
Proof. split; vm_compute; reflexivity. Qed.

(** ** The L2 regulariser *)

Section L2Facts.
Context {num : Type} `{Numeric num} {tensor : Type}.
Variable norm2 : tensor -> num.

Lemma l2_loop (parameters : list tensor) (r : num) :
  fold_left (fun l2_reg W =>
               match l2_reg with
               | None => Some (norm2 W)
               | Some r => Some (r + norm2 W)%num
               end) parameters (Some r)
  = Some (fold_left add (map norm2 parameters) r).
Proof.
  revert r. induction parameters as [| W parameters IH]; intros r; [reflexivity |].
  cbn [fold_left map]. apply IH.
Qed.
End L2Facts.

(** C10.  [l2_regularisation] returns [None] on a module without parameters,
    and otherwise the sum, from the first parameter on, of the 2-norms of
    the parameters. *)
Theorem l2_regularisation_sum {num : Type} `{Numeric num} {tensor : Type}
    (norm2 : tensor -> num) :
  l2_regularisation norm2 [] = None
  /\ forall W parameters,
       l2_regularisation norm2 (W :: parameters)
       = Some (sum (map norm2 (W :: parameters))).
Proof.
  split; [reflexivity |].
  intros W parameters. unfold l2_regularisation. cbn [fold_left map sum].
  apply l2_loop.
Qed.

(** ** The box sampler *)

Lemma insert_by_area_perm (r : region) (l : list region) :
  Permutation (insert_by_area r l) (r :: l).
Proof.
  induction l as [| s l IH]; cbn [insert_by_area]; [reflexivity |].
  destruct (area s <=? area r); [reflexivity |].
  rewrite IH. apply perm_swap.
Qed.

Lemma sorted_by_area_perm (regions : list region) :
  Permutation (sorted_by_area regions) regions.
Proof.
  induction regions as [| r regions IH]; cbn; [reflexivity |].
  rewrite insert_by_area_perm. now apply perm_skip.
Qed.

Lemma insert_by_area_sorted (r : region) (l : list region) :
  StronglySorted (fun a b => area b <= area a) l ->
  StronglySorted (fun a b => area b <= area a) (insert_by_area r l).
Proof.
  induction 1 as [| s l Hs IH Hall]; cbn [insert_by_area].
  - repeat constructor.
  - destruct (area s <=? area r) eqn:E.
    + apply Z.leb_le in E. constructor; [now constructor |].
      constructor; [exact E |].
      eapply Forall_impl; [| exact Hall]. intros x Hx. cbn in *. lia.
    + apply Z.leb_gt in E. constructor; [exact IH |].
      apply (Permutation_Forall (Permutation_sym (insert_by_area_perm r l))).
      constructor; [lia | exact Hall].
Qed.

Lemma sorted_by_area_sorted (regions : list region) :
  StronglySorted (fun a b => area b <= area a) (sorted_by_area regions).
Proof.
  induction regions as [| r regions IH]; cbn; [constructor |].
  now apply insert_by_area_sorted.
Qed.

Lemma select_boxes_largest (regions : list region) (box_num : nat) :
  (box_num <= length regions)%nat ->
  select_boxes regions box_num = map bbox (firstn box_num (sorted_by_area regions)).
Proof.
  intros Hn. unfold select_boxes. rewrite length_map.
  now replace (box_num <=? length regions)%nat with true
    by (symmetry; now apply Nat.leb_le).
Qed.

Lemma select_boxes_cyclic (regions : list region) (box_num : nat) :
  (length regions < box_num)%nat -> regions <> [] ->
  length (select_boxes regions box_num) = box_num
  /\ forall i, (i < box_num)%nat ->
       nth_error (select_boxes regions box_num) i
       = option_map bbox (nth_error regions (i mod length regions)).
Proof.
  intros Hn Hne. unfold select_boxes. rewrite length_map.
  replace (box_num <=? length regions)%nat with false
    by (symmetry; apply Nat.leb_gt; exact Hn).
  assert (Hpos : (0 < length regions)%nat) by (destruct regions; [congruence | cbn; lia]).
  assert (Hbox : forall j, (j < length regions)%nat ->
            Some (nth j (map bbox regions) (0, 0, 0, 0))
            = option_map bbox (nth_error regions j)).
  { intros j Hj. rewrite <- nth_error_map. symmetry.
    apply nth_error_nth'. now rewrite length_map. }
  split.
  - rewrite length_app, !length_map, length_seq. lia.
  - intros i Hi. destruct (Nat.lt_ge_cases i (length regions)) as [Hlt | Hge].
    + rewrite nth_error_app1 by (now rewrite length_map).
      rewrite Nat.mod_small by exact Hlt. apply nth_error_map.
    + rewrite nth_error_app2 by (now rewrite length_map).
      rewrite length_map, nth_error_map, nth_error_seq.
      replace (i - length regions <? box_num - length regions)%nat with true
        by (symmetry; apply Nat.ltb_lt; lia).
      cbn [option_map Nat.add].
      replace (i mod length regions)%nat with ((i - length regions) mod length regions)%nat.
      * apply Hbox. apply Nat.mod_upper_bound. lia.
      * replace i with ((i - length regions) + 1 * length regions)%nat at 2 by lia.
        now rewrite Nat.Div0.mod_add.
Qed.

Section RandomBoxFacts.
Context {num : Type} `{Numeric num}.

Lemma noise_box_ok (std : num) (max_pixel : Z) (b post : box) (g g' : tape) :
  noise_box std max_pixel b g = Some (post, g') -> shifted b post.
Proof.
  destruct b as [[[y0 x0] y1] x1]. unfold noise_box, shifted.
  destruct (noise_pixels std (y0, x0, y1, x1)) as [pixels |]; [| discriminate].
  cbn [bind]. set (max_noise := Z.max 1 _).
  destruct (randint (- max_noise) max_noise g) as [[nx g1] |]; [| discriminate].
  cbn [bind].
  destruct (randint (- max_noise) max_noise g1) as [[ny g2] |]; [| discriminate].
  cbn [bind]. intros E. injection E as <- _. now exists nx, ny.
Qed.

Lemma noise_box_total (std : num) (max_pixel : Z) (b : box) (g : tape) (pixels : Z) :
  noise_pixels std b = Some pixels ->
  exists res, noise_box std max_pixel b g = Some res.
Proof.
  destruct b as [[[y0 x0] y1] x1]. unfold noise_box. intros ->. cbn [bind].
  set (max_noise := Z.max 1 _).
  assert (Hm : - max_noise < max_noise) by lia.
  destruct (randint_total (- max_noise) max_noise g Hm) as [nx [g1 ->]]. cbn [bind].
  destruct (randint_total (- max_noise) max_noise g1 Hm) as [ny [g2 ->]]. cbn [bind].
  eauto.
Qed.

Lemma noise_boxes_of_ok (std : num) (max_pixel : Z) (boxes out : list box)
    (g g' : tape) :
  noise_boxes_of std max_pixel boxes g = Some (out, g') -> Forall2 shifted boxes out.
Proof.
  revert out g g'. induction boxes as [| b boxes IH]; intros out g g';
    cbn [noise_boxes_of].
  - intros E. injection E as <- _. constructor.
  - destruct (noise_box std max_pixel b g) as [[nb g1] |] eqn:Eb; [| discriminate].
    cbn [bind].
    destruct (noise_boxes_of std max_pixel boxes g1) as [[rest g2] |] eqn:Er;
      [| discriminate].
    cbn [bind]. intros E. injection E as <- _.
    constructor; [now apply (noise_box_ok std max_pixel b nb g g1) |].
    now apply (IH rest g1 g2).
Qed.

Lemma noise_boxes_of_total (std : num) (max_pixel : Z) (boxes : list box) (g : tape) :
  forallb (fun b => match noise_pixels std b with Some _ => true | None => false end)
          boxes = true ->
  exists res, noise_boxes_of std max_pixel boxes g = Some res.
Proof.
  revert g. induction boxes as [| b boxes IH]; intros g; cbn [noise_boxes_of forallb];
    [eauto |].
  rewrite andb_true_iff. intros [Hb Hrest].
  destruct (noise_pixels std b) as [pixels |] eqn:Ep; [| discriminate].
  destruct (noise_box_total std max_pixel b g pixels Ep) as [[nb g1] ->]. cbn [bind].
  destruct (IH g1 Hrest) as [[rest g2] ->]. cbn [bind]. eauto.
Qed.

Lemma random_box_ok (components : list (list region)) (box_num : nat)
    (std : num) (max_pixel : Z) (g : tape) (out : list (list box)) :
  random_box components box_num std max_pixel g = Some out ->
  Forall2 (element_boxes box_num) components out.
Proof.
  revert g out. induction components as [| regions components IH]; intros g out;
    cbn [random_box].
  - intros E. injection E as <-. constructor.
  - destruct regions as [| r regions].
    + destruct (random_box components box_num std max_pixel g) as [rest |] eqn:Er;
        [| discriminate].
      cbn [bind]. intros E. injection E as <-.
      constructor; [reflexivity | now apply (IH g)].
    + destruct (noise_boxes_of std max_pixel (select_boxes (r :: regions) box_num) g)
        as [[bs g1] |] eqn:Eb; [| discriminate].
      cbn [bind].
      destruct (random_box components box_num std max_pixel g1) as [rest |] eqn:Er;
        [| discriminate].
      cbn [bind]. intros E. injection E as <-.
      constructor; [| now apply (IH g1)].
      cbn [element_boxes]. now apply (noise_boxes_of_ok std max_pixel _ bs g g1).
Qed.

Lemma random_box_total (components : list (list region)) (box_num : nat)
    (std : num) (max_pixel : Z) (g : tape) :
  noise_defined std box_num components = true ->
  exists out, random_box components box_num std max_pixel g = Some out.
Proof.
  unfold noise_defined. revert g.
  induction components as [| regions components IH]; intros g;
    cbn [random_box forallb]; [eauto |].
  rewrite andb_true_iff. intros [Hr Hrest].
  destruct regions as [| r regions].
  - destruct (IH g Hrest) as [rest ->]. cbn [bind]. eauto.
  - destruct (noise_boxes_of_total std max_pixel
                (select_boxes (r :: regions) box_num) g Hr) as [[bs g1] ->].
    cbn [bind]. destruct (IH g1 Hrest) as [rest ->]. cbn [bind]. eauto.
Qed.
End RandomBoxFacts.

(** C9, as amended.  [random_box] returns whenever every noise magnitude is
    a number, and what it returns holds, for each batch element: [box_num]
    all-zero boxes if it has no component; otherwise its pre-noise boxes
    moved by the noise.  With [box_num] components or more, the pre-noise
    boxes are those of the [box_num] first components in the order of
    descending area.  With fewer, they are the boxes of the components in
    label order (not sorted by area), repeated cyclically up to [box_num]. *)
Theorem random_box_selection {num : Type} `{Numeric num}
    (components : list (list region)) (box_num : nat) (std : num) (max_pixel : Z)
    (g : tape) :
  (noise_defined std box_num components = true ->
   exists out, random_box components box_num std max_pixel g = Some out)
  /\ (forall out, random_box components box_num std max_pixel g = Some out ->
                  Forall2 (element_boxes box_num) components out)
  /\ forall regions,
       Permutation (sorted_by_area regions) regions
       /\ StronglySorted (fun a b => area b <= area a) (sorted_by_area regions)
       /\ ((box_num <= length regions)%nat ->
           select_boxes regions box_num
           = map bbox (firstn box_num (sorted_by_area regions)))
       /\ ((length regions < box_num)%nat -> regions <> [] ->
           length (select_boxes regions box_num) = box_num
           /\ forall i, (i < box_num)%nat ->
                nth_error (select_boxes regions box_num) i
                = option_map bbox (nth_error regions (i mod length regions))).
Proof.
  split; [apply random_box_total |].
  split; [apply random_box_ok |].
  intros regions. split; [apply sorted_by_area_perm |].
  split; [apply sorted_by_area_sorted |].
  split; [apply select_boxes_largest | apply select_boxes_cyclic].
Qed.

(** The claim of C9 fails on two components, the smaller labelled first, and
    three boxes: the program repeats them in label order, the claim has them
    sorted by area. *)
Lemma select_boxes_keeps_label_order :
  select_boxes [small_region; large_region] 3
  = [(0, 0, 1, 1); (2, 2, 4, 4); (0, 0, 1, 1)]
  /\ boxes_as_specified [small_region; large_region] 3
     = [(2, 2, 4, 4); (0, 0, 1, 1); (2, 2, 4, 4)].
Proof. split; reflexivity. Qed.

Lemma random_box_selection_witness :
  (exists out, random_box (num:=float) [[small_region; large_region]; []] 3
                 0.1%float 5 [0; 1; 2; 3; 4; 5]%nat = Some out)
  /\ select_boxes [small_region; large_region] 1
     = map bbox (firstn 1 (sorted_by_area [small_region; large_region]))
  /\ length (select_boxes [small_region; large_region] 3) = 3%nat.
Proof.
  pose proof (random_box_selection (num:=float) [[small_region; large_region]; []] 3
                0.1%float 5 [0; 1; 2; 3; 4; 5]%nat) as [T [_ S]].
  split; [apply T; reflexivity |].
  destruct (S [small_region; large_region]) as [_ [_ [_ C]]].
  split; [| apply C; [cbn; lia | discriminate]].
  pose proof (random_box_selection (num:=float) [] 1 0.1%float 5 []) as [_ [_ S1]].
  destruct (S1 [small_region; large_region]) as [_ [_ [L1 _]]].
  apply L1. cbn. lia.
Defined.

(** * More of the utilities *)

(** ** The prompt generator: shape, empty masks, failures *)

Lemma click_batch_shape (batch : list (list image)) (n h : nat) (pt_label : Z) (g : tape)
    (out : list (list (Z * Z * Z))) :
  click_batch batch n h pt_label g = Some out ->
  length out = length batch /\ Forall (fun pts => length pts = n) out.
Proof.
  revert g out. induction batch as [| chans batch IH]; intros g out; cbn [click_batch].
  - intros E. injection E as <-. now split.
  - destruct (nth_error chans 0) as [msk_s |]; [| discriminate]. cbn [bind].
    destruct (click_points n h pt_label msk_s (nonzero msk_s) g) as [[pts g1] |] eqn:E1;
      [| discriminate].
    cbn [bind].
    destruct (click_batch batch n h pt_label g1) as [rest |] eqn:E2; [| discriminate].
    cbn [bind]. intros E. injection E as <-.
    destruct (IH g1 rest E2) as [Hlen Hall].
    destruct (click_points_ok n h pt_label msk_s g g1 pts E1) as [Hn _].
    split; [cbn [length]; now rewrite Hlen | now constructor].
Qed.

(** X1.  On a batch of [b] one-channel masks (one mask at least, one point
    at least, a height of one row at least) [generate_click_prompt] returns
    [b] rows of [num_points] coordinates and [b] rows of [num_points]
    labels. *)
Theorem click_prompt_shape (g : tape) (msk : mask) (num_points : nat) (pt_label : Z)
    (b h w : nat) :
  size msk = (b, 1%nat, h, w) -> well_shaped msk = true ->
  (0 < b)%nat -> (0 < h)%nat -> (0 < num_points)%nat ->
  exists out,
    generate_click_prompt g msk num_points pt_label = Some out
    /\ length (point_coords out) = b
    /\ length (point_labels out) = b
    /\ Forall (fun row => length row = num_points) (point_coords out)
    /\ Forall (fun row => length row = num_points) (point_labels out).
Proof.
  intros Hs Hw Hb Hh Hn.
  destruct (well_shaped_data msk b 1 h w Hs Hw) as [Hlen Hc].
  unfold generate_click_prompt. rewrite Hs. rewrite <- Hlen, firstn_all.
  destruct (click_batch_total (data msk) num_points h pt_label g Hh Hc) as [pts Hp].
  rewrite Hp. cbn [bind].
  replace (length (data msk) * num_points =? 0)%nat with false
    by (symmetry; apply Nat.eqb_neq; nia).
  eexists. split; [reflexivity |].
  destruct (click_batch_shape _ _ _ _ _ _ Hp) as [Hl Hall].
  cbn [point_coords point_labels]. rewrite !length_map.
  repeat split; try exact Hl.
  - apply Forall_map. eapply Forall_impl; [| exact Hall].
    intros row Hr. now rewrite length_map.
  - apply Forall_map. eapply Forall_impl; [| exact Hall].
    intros row Hr. now rewrite length_map.
Qed.

Lemma click_prompt_shape_witness :
  exists out,
    generate_click_prompt [3; 1; 5]%nat sample_mask 2 7 = Some out
    /\ length (point_coords out) = 2%nat
    /\ length (point_labels out) = 2%nat
    /\ Forall (fun row => length row = 2%nat) (point_coords out)
    /\ Forall (fun row => length row = 2%nat) (point_labels out).
Proof.
  apply (click_prompt_shape [3; 1; 5]%nat sample_mask 2 7 2 2 3);
    first [ reflexivity | lia ].
Defined.

(** X2.  For an all-zero mask of the batch, whatever the shape of the image,
    the program returns [num_points] points, each with the default label and
    with its row and its column in [0, H); so the point lies inside the
    image whenever the image is at least as wide as it is high. *)
Theorem empty_mask_points_inside (g : tape) (msk : mask) (num_points : nat)
    (pt_label : Z) (b h w : nat) :
  size msk = (b, 1%nat, h, w) -> well_shaped msk = true ->
  (0 < b)%nat -> (0 < h)%nat -> (0 < num_points)%nat ->
  exists out,
    generate_click_prompt g msk num_points pt_label = Some out
    /\ forall j chans img,
         nth_error (data msk) j = Some chans -> nth_error chans 0 = Some img ->
         all_zero img = true ->
         length (points_of out j) = num_points
         /\ Forall (fun '(r, c, l) =>
                      0 <= r < Z.of_nat h /\ 0 <= c < Z.of_nat h /\ l = pt_label
                      /\ ((h <= w)%nat -> 0 <= c < Z.of_nat w))
                   (points_of out j).
Proof.
  intros Hs Hw Hb Hh Hn.
  destruct (generate_click_prompt_ok g msk num_points pt_label b h w Hs Hw Hb Hh Hn)
    as [out [Ho Hp]].
  exists out. split; [exact Ho |].
  intros j chans img Hj Himg Hz. destruct (Hp j chans img Hj Himg) as [Hlen Hall].
  split; [exact Hlen |].
  eapply Forall_impl; [| exact Hall].
  intros [[r c] l] [[_ [Hr [Hc Hl]]] | [Hz' _]]; [| congruence].
  repeat split; lia.
Qed.

Lemma empty_mask_points_inside_witness :
  exists out,
    generate_click_prompt [3; 1; 5; 4; 2]%nat sample_mask 2 7 = Some out
    /\ forall j chans img,
         nth_error (data sample_mask) j = Some chans -> nth_error chans 0 = Some img ->
         all_zero img = true ->
         length (points_of out j) = 2%nat
         /\ Forall (fun '(r, c, l) =>
                      0 <= r < 2 /\ 0 <= c < 2 /\ l = 7
                      /\ ((2 <= 3)%nat -> 0 <= c < 3))
                   (points_of out j).
Proof.
  apply (empty_mask_points_inside [3; 1; 5; 4; 2]%nat sample_mask 2 7 2 2 3);
    first [ reflexivity | lia ].
Defined.

Lemma click_batch_no_rows (batch : list (list image)) (n : nat) (pt_label : Z) (g : tape) :
  (0 < n)%nat -> batch <> [] ->
  Forall (Forall (fun img => all_zero img = true)) batch ->
  click_batch batch n 0 pt_label g = None.
Proof.
  intros Hn Hb Hall. destruct batch as [| chans0 batch]; [congruence |].
  cbn [click_batch]. destruct (nth_error chans0 0) as [msk_s |] eqn:E0; [| reflexivity].
  cbn [bind]. inversion Hall as [| ? ? Hc _]; subst.
  rewrite Forall_forall in Hc. specialize (Hc msk_s (nth_error_In _ _ E0)).
  apply nonzero_nil in Hc. rewrite Hc.
  destruct n as [| n]; [lia |]. reflexivity.
Qed.

(** X3.  [generate_click_prompt] raises on an empty batch and on a request
    for no point ([torch.stack] gets an empty list), and on a non-empty batch
    of all-zero masks of height 0 ([torch.randint] gets an empty range). *)
Theorem click_prompt_raises (g : tape) (msk : mask) (num_points : nat) (pt_label : Z)
    (b c h w : nat) :
  size msk = (b, c, h, w) ->
  (b = 0%nat \/ num_points = 0%nat
   \/ (h = 0%nat /\ data msk <> [] /\ length (data msk) = b
       /\ Forall (Forall (fun img => all_zero img = true)) (data msk))) ->
  generate_click_prompt g msk num_points pt_label = None.
Proof.
  intros Hs Hcase. unfold generate_click_prompt. rewrite Hs.
  assert (Hstack : (b = 0%nat \/ num_points = 0%nat) ->
            (pts <- click_batch (firstn b (data msk)) num_points h pt_label g ;;
             if (b * num_points =? 0)%nat then None
             else Some {| point_coords := map (map fst) pts;
                          point_labels := map (map snd) pts |}) = None).
  { intros Hz. destruct (click_batch _ _ _ _ _); [cbn [bind] | reflexivity].
    now replace (b * num_points =? 0)%nat with true
      by (symmetry; apply Nat.eqb_eq; nia). }
  destruct Hcase as [Hb | [Hn | [Hh [Hd [Hlen Hall]]]]]; [auto | auto |].
  destruct num_points as [| n]; [auto |].
  subst h. rewrite <- Hlen, firstn_all.
  rewrite (click_batch_no_rows (data msk) (S n) pt_label g) by (auto; lia).
  reflexivity.
Qed.

Lemma click_prompt_raises_witness :
  generate_click_prompt [1; 2]%nat sample_mask 0 7 = None
  /\ generate_click_prompt [1; 2]%nat
       {| size := (1%nat, 1%nat, 0%nat, 3%nat); data := [[[]]] |} 1 7 = None.
Proof.
  split.
  - apply (click_prompt_raises [1; 2]%nat sample_mask 0 7 2 1 2 3); [reflexivity |].
    right. left. reflexivity.
  - apply (click_prompt_raises [1; 2]%nat
             {| size := (1%nat, 1%nat, 0%nat, 3%nat); data := [[[]]] |} 1 7 1 1 0 3);
      [reflexivity |].
    right. right. repeat split; try discriminate. repeat constructor.
Defined.

(** ** The box sampler: shape and noise *)

Lemma sorted_by_area_length (regions : list region) :
  length (sorted_by_area regions) = length regions.
Proof. apply Permutation_length, sorted_by_area_perm. Qed.

Lemma select_boxes_length (regions : list region) (box_num : nat) :
  regions <> [] -> length (select_boxes regions box_num) = box_num.
Proof.
  intros Hne. destruct (Nat.le_gt_cases box_num (length regions)) as [Hle | Hgt].
  - rewrite select_boxes_largest by exact Hle.
    rewrite length_map, length_firstn, sorted_by_area_length. lia.
  - now apply select_boxes_cyclic.
Qed.

Lemma select_boxes_in (regions : list region) (box_num : nat) (b : box) :
  regions <> [] -> In b (select_boxes regions box_num) ->
  exists r, In r regions /\ b = bbox r.
Proof.
  intros Hne Hin. destruct (Nat.le_gt_cases box_num (length regions)) as [Hle | Hgt].
  - rewrite select_boxes_largest in Hin by exact Hle.
    apply in_map_iff in Hin. destruct Hin as [r [<- Hr]].
    exists r. split; [| reflexivity].
    apply (Permutation_in r (sorted_by_area_perm regions)).
    rewrite <- (firstn_skipn box_num). apply in_or_app. now left.
  - apply In_nth_error in Hin. destruct Hin as [i Hi].
    assert (Hlt : (i < box_num)%nat).
    { rewrite <- (proj1 (select_boxes_cyclic regions box_num Hgt Hne)).
      apply nth_error_Some. congruence. }
    rewrite (proj2 (select_boxes_cyclic regions box_num Hgt Hne) i Hlt) in Hi.
    destruct (nth_error regions (i mod length regions)) as [r |] eqn:Er; [| discriminate].
    injection Hi as <-. exists r. split; [now apply (nth_error_In _ _ Er) | reflexivity].
Qed.

Lemma displaced_weaken (bound bound' : Z) (pre post : box) :
  bound <= bound' -> displaced bound pre post -> displaced bound' pre post.
Proof.
  destruct pre as [[[y0 x0] y1] x1]. intros Hb [nx [ny [E [Hx Hy]]]].
  exists nx, ny. repeat split; try exact E; lia.
Qed.

Section RandomBoxNoise.
Context {num : Type} `{Numeric num}.

Lemma noise_box_displaced (std : num) (max_pixel pixels : Z) (b : box) (g : tape) :
  noise_pixels std b = Some pixels ->
  exists post g', noise_box std max_pixel b g = Some (post, g')
                  /\ displaced (Z.max 1 (Z.min max_pixel pixels)) b post.
Proof.
  destruct b as [[[y0 x0] y1] x1]. unfold noise_box, displaced. intros ->. cbn [bind].
  set (max_noise := Z.max 1 _).
  assert (Hm : - max_noise < max_noise) by lia.
  destruct (randint_total (- max_noise) max_noise g Hm) as [nx [g1 Ex]].
  destruct (randint_total (- max_noise) max_noise g1 Hm) as [ny [g2 Ey]].
  rewrite Ex. cbn [bind]. rewrite Ey. cbn [bind].
  apply randint_range in Ex, Ey.
  do 2 eexists. split; [reflexivity |]. exists nx, ny. now repeat split.
Qed.

Lemma noise_boxes_of_displaced (std : num) (max_pixel bound : Z) (boxes : list box)
    (g : tape) :
  (forall b, In b boxes ->
     exists pixels, noise_pixels std b = Some pixels
                    /\ Z.max 1 (Z.min max_pixel pixels) <= bound) ->
  exists out g', noise_boxes_of std max_pixel boxes g = Some (out, g')
                 /\ Forall2 (displaced bound) boxes out.
Proof.
  revert g. induction boxes as [| b boxes IH]; intros g Hall; cbn [noise_boxes_of].
  - exists [], g. now split.
  - destruct (Hall b (or_introl eq_refl)) as [pixels [Ep Hb]].
    destruct (noise_box_displaced std max_pixel pixels b g Ep) as [post [g1 [-> Hd]]].
    cbn [bind].
    destruct (IH g1 (fun b' Hb' => Hall b' (or_intror Hb'))) as [rest [g2 [-> Hrest]]].
    cbn [bind]. exists (post :: rest), g2. split; [reflexivity |].
    constructor; [now apply (displaced_weaken _ bound) in Hd | exact Hrest].
Qed.

Lemma random_box_displaced (components : list (list region)) (box_num : nat)
    (std : num) (max_pixel bound : Z) (g : tape) :
  (forall regions b, In regions components -> regions <> [] ->
     In b (select_boxes regions box_num) ->
     exists pixels, noise_pixels std b = Some pixels
                    /\ Z.max 1 (Z.min max_pixel pixels) <= bound) ->
  exists out, random_box components box_num std max_pixel g = Some out
              /\ Forall2 (element_displaced box_num bound) components out.
Proof.
  revert g. induction components as [| regions components IH]; intros g Hall;
    cbn [random_box].
  - exists []. now split.
  - assert (Hrest : forall regions' b, In regions' components -> regions' <> [] ->
              In b (select_boxes regions' box_num) ->
              exists pixels, noise_pixels std b = Some pixels
                             /\ Z.max 1 (Z.min max_pixel pixels) <= bound).
    { intros regions' b Hin. apply Hall. now right. }
    destruct regions as [| r regions].
    + destruct (IH g Hrest) as [rest [-> Hr]]. cbn [bind].
      eexists. split; [reflexivity |]. constructor; [reflexivity | exact Hr].
    + destruct (noise_boxes_of_displaced std max_pixel bound
                  (select_boxes (r :: regions) box_num) g) as [bs [g1 [-> Hbs]]].
      { intros b Hb. apply (Hall (r :: regions) b); [now left | discriminate | exact Hb]. }
      cbn [bind]. destruct (IH g1 Hrest) as [rest [-> Hr]]. cbn [bind].
      eexists. split; [reflexivity |]. constructor; [exact Hbs | exact Hr].
Qed.

Lemma noise_defined_pixels (components : list (list region)) (box_num : nat) (std : num)
    (regions : list region) (b : box) :
  noise_defined std box_num components = true ->
  In regions components -> regions <> [] -> In b (select_boxes regions box_num) ->
  exists pixels, noise_pixels std b = Some pixels.
Proof.
  unfold noise_defined. rewrite forallb_forall. intros Hd Hin Hne Hb.
  specialize (Hd regions Hin). destruct regions as [| r regions]; [congruence |].
  rewrite forallb_forall in Hd. specialize (Hd b Hb).
  destruct (noise_pixels std b) as [pixels |]; [eauto | discriminate].
Qed.
End RandomBoxNoise.

Lemma element_displaced_length (box_num : nat) (bound : Z) (regions : list region)
    (boxes : list box) :
  element_displaced box_num bound regions boxes -> length boxes = box_num.
Proof.
  destruct regions as [| r regions]; cbn [element_displaced].
  - intros ->. apply repeat_length.
  - intros Hd. rewrite <- (Forall2_length Hd). now apply select_boxes_length.
Qed.

(** X4.  Whenever every noise magnitude is a number, [random_box] returns one
    list of boxes per batch element, and each list holds [box_num] boxes,
    whatever the number of components of the element. *)
Theorem random_box_shape {num : Type} `{Numeric num}
    (components : list (list region)) (box_num : nat) (std : num) (max_pixel : Z)
    (g : tape) :
  noise_defined std box_num components = true ->
  exists out, random_box components box_num std max_pixel g = Some out
              /\ length out = length components
              /\ Forall (fun boxes => length boxes = box_num) out.
Proof.
  intros Hd.
  destruct (random_box_displaced components box_num std max_pixel
              (Z.max 1 max_pixel) g) as [out [Ho Hall]].
  { intros regions b Hin Hne Hb.
    destruct (noise_defined_pixels components box_num std regions b Hd Hin Hne Hb)
      as [pixels Ep].
    exists pixels. split; [exact Ep | lia]. }
  exists out. split; [exact Ho |]. split; [symmetry; exact (Forall2_length Hall) |].
  clear Ho. induction Hall as [| regions boxes components out Hel _ IH]; constructor.
  - now apply (element_displaced_length box_num (Z.max 1 max_pixel) regions).
  - apply IH.
    unfold noise_defined in *. cbn [forallb] in Hd. now apply andb_true_iff in Hd.
Qed.

Lemma random_box_shape_witness :
  exists out, random_box (num:=float) [[small_region; large_region]; []; [large_region]] 3
                0.1%float 5 [0; 1; 2; 3; 4; 5]%nat = Some out
              /\ length out = 3%nat
              /\ Forall (fun boxes => length boxes = 3%nat) out.
Proof.
  apply (random_box_shape (num:=float) [[small_region; large_region]; []; [large_region]]
           3 0.1%float 5 [0; 1; 2; 3; 4; 5]%nat).
  reflexivity.
Defined.

(** X5.  The noise of [random_box] moves both corners of a box by the same
    offsets, so the box keeps its width and its height, and each offset lies
    in [-m, m) for m = max(1, max_pixel): the perturbed box is the pre-noise
    box, written (x0, y0, x1, y1), displaced by less than m + 1 pixels. *)
Theorem random_box_noise_bounded {num : Type} `{Numeric num}
    (components : list (list region)) (box_num : nat) (std : num) (max_pixel : Z)
    (g : tape) :
  noise_defined std box_num components = true ->
  (exists out, random_box components box_num std max_pixel g = Some out
               /\ Forall2 (element_displaced box_num (Z.max 1 max_pixel)) components out)
  /\ forall bound y0 x0 y1 x1 a0 b0 a1 b1,
       displaced bound (y0, x0, y1, x1) (a0, b0, a1, b1) ->
       a1 - a0 = x1 - x0 /\ b1 - b0 = y1 - y0
       /\ Z.abs (a0 - x0) <= bound /\ Z.abs (b0 - y0) <= bound.
Proof.
  intros Hd. split.
  - apply random_box_displaced. intros regions b Hin Hne Hb.
    destruct (noise_defined_pixels components box_num std regions b Hd Hin Hne Hb)
      as [pixels Ep].
    exists pixels. split; [exact Ep | lia].
  - intros bound y0 x0 y1 x1 a0 b0 a1 b1 [nx [ny [E [Hx Hy]]]].
    injection E as -> -> -> ->. lia.
Qed.

Lemma random_box_noise_bounded_witness :
  exists out, random_box (num:=float) [[small_region; large_region]; []] 3
                0.1%float 5 [0; 1; 2; 3; 4; 5]%nat = Some out
              /\ Forall2 (element_displaced 3 (Z.max 1 5))
                   [[small_region; large_region]; []] out.
Proof.
  apply (random_box_noise_bounded (num:=float) [[small_region; large_region]; []] 3
           0.1%float 5 [0; 1; 2; 3; 4; 5]%nat).
  reflexivity.
Defined.

Lemma Z2float_nonneg_class (m : Z) :
  0 <= m < 2 ^ 53 ->
  Prim2SF (Z2float m) = S754_zero false
  \/ exists p e, Prim2SF (Z2float m) = S754_finite false p e.
Proof.
  intros Hm. destruct (Z.eq_dec m 0) as [-> | Hne]; [now left | right].
  apply Z2float_positive. lia.
Qed.

Lemma binary64_zero_std_pixels (b : box) :
  small_extent b -> noise_pixels (num:=float) 0%float b = Some 0.
Proof.
  destruct b as [[[y0 x0] y1] x1]. unfold small_extent, noise_pixels. intros Hs.
  set (m := Z.min (Z.abs (x1 - x0)) (Z.abs (y1 - y0))) in *.
  cbn [int_of of_int mul binary64]. unfold float_trunc.
  rewrite !mul_spec.
  change (Prim2SF (Z2float 5)) with (S754_finite false 5629499534213120 (-50)).
  change (Prim2SF 0) with (S754_zero false).
  destruct (Z2float_nonneg_class m) as [-> | [p [e ->]]]; [lia | reflexivity | reflexivity].
Qed.

Lemma exact_zero_std_pixels (b : box) :
  noise_pixels (num:=exact) (Fin 0%Qc) b = Some 0.
Proof.
  destruct b as [[[y0 x0] y1] x1]. unfold noise_pixels.
  cbn [int_of of_int mul exact_arith exact_lift2 exact_trunc].
  replace (Qc_of_Z (Z.min (Z.abs (x1 - x0)) (Z.abs (y1 - y0))) * 0 * Qc_of_Z 5)%Qc
    with 0%Qc by ring.
  reflexivity.
Qed.

(** X6.  A noise level [std] of 0 does not switch the noise off: the noise
    magnitude is then max(1, min(max_pixel, 0)) = 1, and every box is moved
    by an offset of -1 or 0 on each axis.  On binary64 for boxes whose
    shorter side is below 2^53 pixels, and in exact arithmetic. *)
Theorem zero_std_still_moves_boxes :
  (forall (components : list (list region)) (box_num : nat) (max_pixel : Z) (g : tape),
     Forall (Forall (fun r => small_extent (bbox r))) components ->
     exists out, random_box (num:=float) components box_num 0%float max_pixel g = Some out
                 /\ Forall2 (element_displaced box_num 1) components out)
  /\ (forall (components : list (list region)) (box_num : nat) (max_pixel : Z) (g : tape),
        exists out, random_box (num:=exact) components box_num (Fin 0%Qc) max_pixel g
                    = Some out
                    /\ Forall2 (element_displaced box_num 1) components out).
Proof.
  split.
  - intros components box_num max_pixel g Hsmall.
    apply random_box_displaced. intros regions b Hin Hne Hb.
    exists 0. split; [| lia]. apply binary64_zero_std_pixels.
    destruct (select_boxes_in regions box_num b Hne Hb) as [r [Hr ->]].
    rewrite Forall_forall in Hsmall. specialize (Hsmall regions Hin).
    rewrite Forall_forall in Hsmall. now apply Hsmall.
  - intros components box_num max_pixel g.
    apply random_box_displaced. intros regions b _ _ _.
    exists 0. split; [apply exact_zero_std_pixels | lia].
Qed.

Lemma zero_std_still_moves_boxes_witness :
  exists out, random_box (num:=float) [[small_region; large_region]; []] 3 0%float 5
                [0; 1; 2; 3; 4; 5]%nat = Some out
              /\ Forall2 (element_displaced 3 1) [[small_region; large_region]; []] out.
Proof.
  apply (proj1 zero_std_still_moves_boxes [[small_region; large_region]; []] 3%nat 5
           [0; 1; 2; 3; 4; 5]%nat).
  repeat constructor.
Defined.

(** ** The truncated-normal initialiser: valid draws, zero spread *)

Lemma Forall2_map_right {A B : Type} (R : A -> B -> Prop) (f : A -> B) (l : list A) :
  (forall a, R a (f a)) -> Forall2 R l (map f l).
Proof. intros HR. induction l; cbn [map]; constructor; auto. Qed.

Section TruncationFacts.
Context {num : Type} `{Numeric num}.

Lemma truncated_normal_kept (tmp : list (list num)) (mean std : num) :
  truncated_normal_ tmp mean std = map (fun row => (kept row * std + mean)%num) tmp.
Proof.
  unfold truncated_normal_. apply map_ext. intros row. now rewrite nth_argmax_kept.
Qed.

Lemma kept_valid (row : list num) :
  existsb valid row = true -> In (kept row) row /\ valid (kept row) = true.
Proof.
  intros He. apply existsb_exists in He. destruct He as [x [Hx Hv]].
  unfold kept. destruct (find valid row) as [k |] eqn:Ef.
  - now apply find_some in Ef.
  - apply (find_none _ _ Ef) in Hx. congruence.
Qed.

Lemma kept_cases (row : list num) :
  kept row = of_int 0 \/ In (kept row) row.
Proof.
  unfold kept. destruct (find valid row) as [k |] eqn:Ef.
  - right. now apply find_some in Ef.
  - destruct row as [| v row]; [now left | right; now left].
Qed.
End TruncationFacts.

(** X7.  [truncated_normal_] writes one entry per row of draws, and for every
    row that holds a draw strictly between -2 and 2 the entry is such a draw
    of that row, times [std], plus [mean]: the draws outside (-2, 2) are
    cut off. *)
Theorem truncation_keeps_valid_draw {num : Type} `{Numeric num}
    (tmp : list (list num)) (mean std : num) :
  Forall2 (fun row entry =>
             existsb valid row = true -> from_valid_draw mean std row entry)
          tmp (truncated_normal_ tmp mean std).
Proof.
  rewrite truncated_normal_kept. apply Forall2_map_right.
  intros row He. destruct (kept_valid row He) as [Hin Hv].
  exists (kept row). now repeat split.
Qed.

Lemma truncation_keeps_valid_draw_witness :
  Forall2 (fun row entry =>
             existsb valid row = true -> from_valid_draw 0%float 1%float row entry)
          [[3; -3; 1.5; 4]; [2.5; 3; -4; 5]]%float
          (truncated_normal_ (num:=float) [[3; -3; 1.5; 4]; [2.5; 3; -4; 5]]%float
             0%float 1%float).
Proof.
  apply (truncation_keeps_valid_draw (num:=float)
           [[3; -3; 1.5; 4]; [2.5; 3; -4; 5]]%float 0%float 1%float).
Defined.

Lemma SFeqb_refl_finite (s : bool) (p : positive) (e : Z) :
  SFeqb (S754_finite s p e) (S754_finite s p e) = true.
Proof.
  unfold SFeqb, SFcompare.
  destruct s; rewrite Z.compare_refl, Pos.compare_cont_refl; reflexivity.
Qed.

(** A finite float times 0.0, plus a finite float [m], compares equal to
    [m], in every precision. *)
Lemma ieee_zero_spread (prec emax : Z) (k m : spec_float) :
  sf_finite k -> sf_finite m ->
  SFeqb (SFadd prec emax (SFmul prec emax k (S754_zero false)) m) m = true.
Proof.
  intros Hk Hm.
  destruct k as [sk | sk | | sk pk ek]; try contradiction;
    destruct m as [sm | sm | | sm pm em]; try contradiction;
    cbn [SFmul SFadd xorb];
    try (destruct sk, sm; reflexivity);
    destruct sk; apply SFeqb_refl_finite.
Qed.

Lemma binary64_zero_spread (k m : float) :
  finite64 k = true -> finite64 m = true -> PrimFloat.eqb (k * 0 + m)%float m = true.
Proof.
  unfold finite64. intros Hk Hm.
  rewrite FloatAxioms.eqb_spec, add_spec, mul_spec.
  change (Prim2SF 0) with (S754_zero false).
  apply ieee_zero_spread.
  - destruct (Prim2SF k); try discriminate; exact I.
  - destruct (Prim2SF m); try discriminate; exact I.
Qed.

(** X8.  With [std] = 0 every entry that [truncated_normal_] writes equals
    [mean]: on binary64 and on binary32 for finite draws and a finite mean
    (equal as [==] compares floats), and in exact arithmetic. *)
Theorem zero_std_gives_mean :
  (forall (tmp : list (list float)) (mean : float),
     Forall (Forall (fun d => finite64 d = true)) tmp -> finite64 mean = true ->
     Forall (fun entry => PrimFloat.eqb entry mean = true)
            (truncated_normal_ (num:=float) tmp mean 0%float))
  /\ (forall (tmp : list (list spec_float)) (mean : spec_float),
        Forall (Forall sf_finite) tmp -> sf_finite mean ->
        Forall (fun entry => SFeqb entry mean = true)
               (@truncated_normal_ spec_float binary32 tmp mean (S754_zero false)))
  /\ (forall (tmp : list (list exact)) (m : Qc),
        Forall (Forall finite) tmp ->
        Forall (fun entry => entry = Fin m)
               (truncated_normal_ (num:=exact) tmp (Fin m) (Fin 0%Qc))).
Proof.
  split; [| split].
  - intros tmp mean Hfin Hm. rewrite truncated_normal_kept.
    apply Forall_map. eapply Forall_impl; [| exact Hfin].
    intros row Hrow. apply binary64_zero_spread; [| exact Hm].
    destruct (kept_cases row) as [-> | Hin]; [reflexivity |].
    rewrite Forall_forall in Hrow. now apply Hrow.
  - intros tmp mean Hfin Hm. rewrite (@truncated_normal_kept spec_float binary32).
    apply Forall_map. eapply Forall_impl; [| exact Hfin].
    intros row Hrow. apply (ieee_zero_spread 24 128); [| exact Hm].
    destruct (@kept_cases spec_float binary32 row) as [-> | Hin]; [exact I |].
    rewrite Forall_forall in Hrow. now apply Hrow.
  - intros tmp m Hfin. rewrite truncated_normal_kept.
    apply Forall_map. eapply Forall_impl; [| exact Hfin].
    intros row Hrow.
    assert (Hk : finite (kept row)).
    { destruct (kept_cases row) as [-> | Hin]; [exact I |].
      rewrite Forall_forall in Hrow. now apply Hrow. }
    destruct (kept row) as [| q]; [contradiction |].
    cbn. f_equal. ring.
Qed.

Lemma zero_std_gives_mean_witness :
  Forall (fun entry => PrimFloat.eqb entry 0.25%float = true)
         (truncated_normal_ (num:=float) [[3; -3; 1.5; 4]; [2.5; 3; -4; 5]]%float
            0.25%float 0%float).
Proof.
  apply (proj1 zero_std_gives_mean [[3; -3; 1.5; 4]; [2.5; 3; -4; 5]]%float 0.25%float).
  - repeat constructor.
  - reflexivity.
Defined.

(** ** The weight initialisers *)

(** The quotient 1 / 1000 rounds to the double that the literal [0.001]
    denotes. *)
Lemma std_lit_binary64 : std_lit (num:=float) = 0.001%float.
Proof. reflexivity. Qed.

Lemma std_lit_exact : std_lit (num:=exact) = Fin (Q2Qc (1 # 1000)).
Proof.
  unfold std_lit. cbn [of_int exact_arith].
  rewrite exact_div_Fin
    by (intros E; apply (f_equal this) in E; vm_compute in E; discriminate).
  apply f_equal, Qc_is_canon. qc_to_q. reflexivity.
Qed.

Lemma valid_exact (q : Qc) :
  valid (Fin q) = true -> (- inject_Z 2 < this q /\ this q < inject_Z 2)%Q.
Proof.
  unfold valid. cbn [ltb exact_arith exact_ltb of_int].
  intros Hv. apply andb_prop in Hv. destruct Hv as [H2 Hm2].
  apply negb_true_iff in H2. apply negb_true_iff in Hm2.
  split.
  - apply Qnot_le_lt. intros Hle. apply Qle_bool_iff in Hle.
    rewrite this_of_Z in Hm2. change (inject_Z (-2)) with (- inject_Z 2)%Q in Hm2.
    congruence.
  - apply Qnot_le_lt. intros Hle. apply Qle_bool_iff in Hle.
    rewrite this_of_Z in H2. congruence.
Qed.

Lemma valid_exact_finite (k : exact) : valid k = true -> exists q, k = Fin q.
Proof. destruct k as [| q]; [discriminate | now exists q]. Qed.

(** X9.  [init_weights] and [init_weights_orthogonal_normal] return any
    layer other than a convolution or a transposed convolution as it is, and
    raise on a convolution built without bias.  On a convolution with bias
    they keep the kind, put the initialised weight, and write a bias with
    one entry per row of draws; in exact arithmetic every entry whose row
    holds a draw within (-2, 2) lies strictly between -0.002 and 0.002. *)
Theorem init_weights_effect :
  (forall {num : Type} `{Numeric num} {weights : Type} (init_ : weights -> weights)
          (tmp : list (list num)) (m : @layer num weights),
     match kind m, bias m with
     | OtherLayer, _ => init_weights_with init_ tmp m = Some m
     | _, None => init_weights_with init_ tmp m = None
     | _, Some _ =>
         exists b,
           init_weights_with init_ tmp m
           = Some {| kind := kind m; weight := init_ (weight m); bias := Some b |}
           /\ length b = length tmp
     end)
  /\ (forall {weights : Type} (init_ : weights -> weights)
             (tmp : list (list exact)) (m m' : @layer exact weights),
        init_weights_with init_ tmp m = Some m' -> kind m <> OtherLayer ->
        exists b,
          bias m' = Some b
          /\ Forall2 (fun row entry =>
                        existsb valid row = true ->
                        within (Q2Qc (-2 # 1000)) (Q2Qc (2 # 1000)) entry)
                     tmp b).
Proof.
  split.
  - intros num H weights init_ tmp m. unfold init_weights_with.
    destruct (kind m); destruct (bias m); try reflexivity;
      (eexists; split; [reflexivity |]);
      unfold truncated_normal_; apply length_map.
  - intros weights init_ tmp m m' Hm Hk. unfold init_weights_with in Hm.
    assert (Hb : m' = {| kind := kind m; weight := init_ (weight m);
                         bias := Some (truncated_normal_ tmp (of_int 0) std_lit) |}).
    { destruct (kind m); try congruence; destruct (bias m); congruence. }
    subst m'. cbn [bias]. eexists. split; [reflexivity |].
    rewrite truncated_normal_kept. apply Forall2_map_right.
    intros row He. destruct (kept_valid row He) as [_ Hv].
    destruct (valid_exact_finite _ Hv) as [q Eq]. rewrite Eq in *.
    apply valid_exact in Hv. rewrite std_lit_exact.
    cbn [mul add of_int exact_arith exact_lift2 within].
    qc_to_q. unfold inject_Z in *. split; lra.
Qed.

Lemma init_weights_effect_witness :
  exists b,
    bias {| kind := Conv2d; weight := tt;
            bias := Some (truncated_normal_ sample_draws
                            (of_int 0) std_lit) |} = Some b
    /\ Forall2 (fun row entry =>
                  existsb valid row = true ->
                  within (Q2Qc (-2 # 1000)) (Q2Qc (2 # 1000)) entry)
               sample_draws b.
Proof.
  apply (proj2 init_weights_effect unit (fun w => w) sample_draws
           {| kind := Conv2d; weight := tt; bias := Some [of_int 0; of_int 0] |}).
  - reflexivity.
  - discriminate.
Defined.

(** ** The image preparation *)

Section PrepareImageFacts.
Context {num : Type} `{Numeric num}.

Lemma shape_to_unit_range (image : @tensor num) :
  shape (to_unit_range image) = shape image.
Proof. unfold to_unit_range. now destruct (pixels image). Qed.

Lemma to_unit_range_idem (image : @tensor num) :
  to_unit_range (to_unit_range image) = to_unit_range image.
Proof.
  unfold to_unit_range. destruct (pixels image) eqn:E; cbn [pixels]; [reflexivity |].
  now rewrite E.
Qed.

Lemma to_batch_rank (image : @tensor num) :
  image_rank (length (shape image)) ->
  length (shape (to_batch image)) = 4%nat
  /\ last_two (shape (to_batch image)) = last_two (shape image)
  /\ pixels (to_batch image) = pixels image.
Proof.
  unfold to_batch, last_two. destruct image as [s px]. cbn [shape pixels].
  intros [E | [E | E]]; rewrite E; cbn [shape pixels length]; rewrite ?E;
    repeat split;
    repeat (destruct s as [| ? s]; try discriminate); reflexivity.
Qed.

Lemma to_batch_four (image : @tensor num) :
  length (shape image) = 4%nat -> to_batch image = image.
Proof. unfold to_batch. now intros ->. Qed.
End PrepareImageFacts.

(** X10.  An image of rank 2, 3 or 4 whose last two dimensions already equal
    [target_size] is not interpolated by [prepare_image]: the result is the
    image with its bytes, if it has bytes, divided by 255 and with leading
    axes of length 1 up to rank 4, and preparing the result again returns it
    unchanged. *)
Theorem prepare_image_without_resize {num : Type} `{Numeric num}
    (interpolate : @tensor num -> list nat -> @tensor num)
    (image : @tensor num) (target_size : list nat) :
  image_rank (length (shape image)) ->
  last_two (shape image) = target_size ->
  exists prepared,
    prepare_image interpolate image target_size = prepared
    /\ prepared = to_batch (to_unit_range image)
    /\ length (shape prepared) = 4%nat
    /\ last_two (shape prepared) = target_size
    /\ pixels prepared = pixels (to_unit_range image)
    /\ prepare_image interpolate prepared target_size = prepared.
Proof.
  intros Hrank Hsize.
  assert (Hrank' : image_rank (length (shape (to_unit_range image))))
    by now rewrite shape_to_unit_range.
  destruct (to_batch_rank _ Hrank') as [H4 [Hlast Hpx]].
  rewrite shape_to_unit_range in Hlast.
  exists (to_batch (to_unit_range image)).
  assert (Hp : prepare_image interpolate image target_size
               = to_batch (to_unit_range image)).
  { unfold prepare_image. cbv zeta.
    destruct (list_eq_dec Nat.eq_dec _ target_size) as [_ | Hne]; [reflexivity |].
    exfalso. apply Hne. now rewrite Hlast. }
  repeat split; try assumption; try congruence.
  unfold prepare_image. cbv zeta.
  assert (Hu : to_unit_range (to_batch (to_unit_range image))
               = to_batch (to_unit_range image)).
  { unfold to_unit_range at 1. rewrite Hpx.
    unfold to_unit_range. destruct (pixels image) eqn:E; cbn [pixels]; [reflexivity |].
    now rewrite E. }
  rewrite Hu, (to_batch_four _ H4).
  destruct (list_eq_dec Nat.eq_dec _ target_size) as [_ | Hne]; [reflexivity |].
  exfalso. apply Hne. congruence.
Qed.

Lemma prepare_image_without_resize_witness :
  exists prepared,
    prepare_image (fun t _ => t) byte_image [2; 2]%nat = prepared
    /\ prepared = to_batch (to_unit_range byte_image)
    /\ length (shape prepared) = 4%nat
    /\ last_two (shape prepared) = [2; 2]%nat
    /\ pixels prepared = pixels (to_unit_range byte_image)
    /\ prepare_image (fun t _ => t) prepared [2; 2]%nat = prepared.
Proof.
  apply (prepare_image_without_resize (fun t _ => t) byte_image [2; 2]%nat).
  - left. reflexivity.
  - reflexivity.
Defined.

(** ** The mask post-processor *)

Lemma zipWith_nest {A B : Type} (f g : A -> B -> B) (l : list A) (m : list B) :
  zipWith f l (zipWith g l m) = zipWith (fun a b => f a (g a b)) l m.
Proof.
  revert m. induction l as [| a l IH]; intros [| b m]; cbn [zipWith]; try reflexivity.
  now rewrite IH.
Qed.

Lemma zipWith_ext {A B C : Type} (f g : A -> B -> C) (l : list A) (m : list B) :
  (forall a b, f a b = g a b) -> zipWith f l m = zipWith g l m.
Proof.
  intros Hfg. revert m.
  induction l as [| a l IH]; intros [| b m]; cbn [zipWith]; try reflexivity.
  now rewrite Hfg, IH.
Qed.

Lemma zipWith_second {A B : Type} (l : list A) (m : list B) :
  length l = length m -> zipWith (fun _ b => b) l m = m.
Proof.
  revert m. induction l as [| a l IH]; intros [| b m]; cbn [zipWith length];
    try reflexivity; try discriminate.
  intros E. now rewrite IH by congruence.
Qed.

Lemma zipWith_related {A B : Type} (R : B -> B -> Prop) (f : A -> B -> B)
    (l : list A) (m : list B) :
  length l = length m -> Forall (fun b => forall a, R b (f a b)) m ->
  Forall2 R m (zipWith f l m).
Proof.
  revert m. induction l as [| a l IH]; intros [| b m]; cbn [zipWith length];
    try discriminate; intros E Hm; constructor.
  - inversion Hm; subst. auto.
  - apply IH; [congruence | now inversion Hm].
Qed.

Section PostProcessFacts.
Context {num : Type} `{Numeric num}.

Lemma component_area_nonneg (labeled : list (list Z)) (j : Z) :
  0 <= component_area labeled j.
Proof. unfold component_area. lia. Qed.

Lemma kept_pixel_none (min_area : Z) (labeled : list (list Z)) (l : Z) (v : num) :
  kept_pixel min_area labeled 0 l v = v.
Proof.
  unfold kept_pixel.
  destruct (Z.leb_spec 1 l), (Z.leb_spec l (Z.of_nat 0)); cbn [andb]; try reflexivity.
  lia.
Qed.

Lemma kept_pixel_step (min_area : Z) (labeled : list (list Z)) (n : nat)
    (l : Z) (v : num) :
  (if component_area labeled (Z.of_nat (S n)) <? min_area
   then if l =? Z.of_nat (S n) then of_int 0
        else kept_pixel min_area labeled n l v
   else kept_pixel min_area labeled n l v)
  = kept_pixel min_area labeled (S n) l v.
Proof.
  unfold kept_pixel.
  destruct (Z.eqb_spec l (Z.of_nat (S n))) as [-> | Hne].
  - destruct (Z.leb_spec 1 (Z.of_nat (S n))); [| lia].
    destruct (Z.leb_spec (Z.of_nat (S n)) (Z.of_nat n)); [lia |].
    rewrite Z.leb_refl. cbn [andb].
    now destruct (component_area labeled (Z.of_nat (S n)) <? min_area).
  - assert (E : (l <=? Z.of_nat (S n)) = (l <=? Z.of_nat n)).
    { destruct (Z.leb_spec l (Z.of_nat (S n))), (Z.leb_spec l (Z.of_nat n));
        try reflexivity; lia. }
    rewrite E.
    now destruct (component_area labeled (Z.of_nat (S n)) <? min_area).
Qed.

Lemma remove_small_step (min_area : Z) (labeled : list (list Z)) (n : nat)
    (mask : list (list num)) :
  remove_small min_area labeled (S n) mask
  = let mask' := remove_small min_area labeled n mask in
    if component_area labeled (Z.of_nat (S n)) <? min_area
    then clear_component labeled (Z.of_nat (S n)) mask'
    else mask'.
Proof.
  unfold remove_small. rewrite seq_S, fold_left_app. reflexivity.
Qed.

Lemma same_shape_second (labeled : list (list Z)) (mask : list (list num)) :
  same_shape labeled mask ->
  zipWith (zipWith (fun _ v => v)) labeled mask = mask.
Proof.
  induction 1 as [| ra rb labeled mask E _ IH]; cbn [zipWith]; [reflexivity |].
  now rewrite zipWith_second, IH.
Qed.

Lemma remove_small_closed (min_area : Z) (labeled : list (list Z)) (n : nat)
    (mask : list (list num)) :
  same_shape labeled mask ->
  remove_small min_area labeled n mask
  = zipWith (zipWith (kept_pixel min_area labeled n)) labeled mask.
Proof.
  intros Hs. induction n as [| n IH].
  - cbn [remove_small seq fold_left].
    rewrite <- (same_shape_second labeled mask Hs) at 1.
    apply zipWith_ext. intros ra rb. apply zipWith_ext. intros l v.
    now rewrite kept_pixel_none.
  - rewrite remove_small_step. cbv zeta. rewrite IH.
    destruct (component_area labeled (Z.of_nat (S n)) <? min_area) eqn:E.
    + unfold clear_component. rewrite zipWith_nest.
      apply zipWith_ext. intros ra rb. rewrite zipWith_nest.
      apply zipWith_ext. intros l v.
      rewrite <- kept_pixel_step, E. reflexivity.
    + apply zipWith_ext. intros ra rb. apply zipWith_ext. intros l v.
      rewrite <- kept_pixel_step, E. reflexivity.
Qed.

Lemma remove_small_idle (min_area : Z) (labeled : list (list Z)) (n : nat)
    (mask : list (list num)) :
  min_area <= 0 -> remove_small min_area labeled n mask = mask.
Proof.
  intros Hm. induction n as [| n IH]; [reflexivity |].
  rewrite remove_small_step. cbv zeta. rewrite IH.
  pose proof (component_area_nonneg labeled (Z.of_nat (S n))).
  destruct (Z.ltb_spec (component_area labeled (Z.of_nat (S n))) min_area);
    [lia | reflexivity].
Qed.

Lemma binarised_pixel (thresh v : num) :
  let b := if ltb thresh v then of_int 1 else of_int 0 in
  b = of_int 0 \/ b = of_int 1.
Proof. cbv zeta. destruct (ltb thresh v); [now right | now left]. Qed.

Lemma kept_or_cleared_refl (v : num) :
  v = of_int 0 \/ v = of_int 1 -> kept_or_cleared v v.
Proof. intros Hv. split; [exact Hv | now left]. Qed.

Lemma kept_pixel_cases (min_area : Z) (labeled : list (list Z)) (n : nat)
    (l : Z) (v : num) :
  v = of_int 0 \/ v = of_int 1 ->
  kept_or_cleared v (kept_pixel min_area labeled n l v).
Proof.
  intros Hv. split; [exact Hv |]. unfold kept_pixel.
  destruct (_ && _); [now right | now left].
Qed.

Lemma zipWith_rows_related (f : Z -> num -> num)
    (labeled : list (list Z)) (mask : list (list num)) :
  (forall l v, v = of_int 0 \/ v = of_int 1 -> kept_or_cleared v (f l v)) ->
  same_shape labeled mask ->
  Forall (Forall (fun v => v = of_int 0 \/ v = of_int 1)) mask ->
  Forall2 (Forall2 kept_or_cleared) mask (zipWith (zipWith f) labeled mask).
Proof.
  intros Hf Hs Hb.
  induction Hs as [| ra rb labeled mask E _ IH]; cbn [zipWith]; constructor.
  - apply zipWith_related; [exact E |].
    inversion Hb as [| ? ? Hrb _]; subst.
    eapply Forall_impl; [| exact Hrb]. intros v Hv l. now apply Hf.
  - apply IH. now inversion Hb.
Qed.

Lemma remove_small_related (min_area : Z) (labeled : list (list Z)) (n : nat)
    (mask : list (list num)) :
  same_shape labeled mask ->
  Forall (Forall (fun v => v = of_int 0 \/ v = of_int 1)) mask ->
  Forall2 (Forall2 kept_or_cleared) mask (remove_small min_area labeled n mask).
Proof.
  intros Hs Hb. rewrite (remove_small_closed _ _ _ _ Hs).
  apply zipWith_rows_related; try assumption.
  intros l v. apply kept_pixel_cases.
Qed.

Lemma Forall2_same {A : Type} (R : A -> A -> Prop) (l : list A) :
  Forall (fun a => R a a) l -> Forall2 R l l.
Proof. induction 1; constructor; auto. Qed.

Lemma post_process_step (label : list (list num) -> list (list Z) * nat)
    (min_area : Z) (mask : list (list num)) (rest : list (list (list num))) :
  match mask :: rest with
  | [] => None
  | mask :: rest =>
      let '(labeled, num_features) := label mask in
      Some (remove_small min_area labeled num_features mask :: rest)
  end
  = Some (remove_small min_area (fst (label mask)) (snd (label mask)) mask :: rest).
Proof. cbv beta iota. destruct (label mask). reflexivity. Qed.
End PostProcessFacts.

(** X11.  The loop of [post_process_masks] over the components leaves at
    every pixel what [kept_pixel] says: a pixel whose label is one of
    1..[num_features] and whose component has fewer than [min_area] pixels
    becomes 0, every other pixel keeps its value; so a component below
    [min_area] is cleared entirely and one at or above it is kept as it
    is. *)
Theorem remove_small_pixelwise {num : Type} `{Numeric num}
    (min_area : Z) (labeled : list (list Z)) (num_features : nat)
    (mask : list (list num)) :
  same_shape labeled mask ->
  remove_small min_area labeled num_features mask
  = zipWith (zipWith (kept_pixel min_area labeled num_features)) labeled mask.
Proof. apply remove_small_closed. Qed.

Lemma remove_small_pixelwise_witness :
  remove_small 2 [[1; 1; 0]; [0; 0; 2]] 2 [[1; 1; 0]; [0; 0; 1]]%float
  = zipWith (zipWith (kept_pixel 2 [[1; 1; 0]; [0; 0; 2]] 2))
            [[1; 1; 0]; [0; 0; 2]] [[1; 1; 0]; [0; 0; 1]]%float.
Proof.
  apply (remove_small_pixelwise (num:=float) 2 [[1; 1; 0]; [0; 0; 2]] 2
           [[1; 1; 0]; [0; 0; 1]]%float).
  repeat constructor.
Defined.

(** X12.  When the labelling has the shape of the mask it labels,
    [post_process_masks] returns, for a batch whose elements all have a
    channel, a batch of the shape of its input in which every pixel is the
    thresholded pixel, 0 or 1, or has been cleared to 0: it never turns a
    pixel on.  A batch element without a channel makes it raise. *)
Theorem post_process_masks_shrinks {num : Type} `{Numeric num}
    (label : list (list num) -> list (list Z) * nat)
    (masks : list (list (list (list num)))) (threshold : num) (min_area : Z) :
  (forall mask, same_shape (fst (label mask)) mask) ->
  (Forall (fun chans => chans <> []) masks ->
   exists out,
     post_process_masks label masks threshold min_area = Some out
     /\ pixelwise kept_or_cleared (binarise threshold masks) out)
  /\ (Exists (fun chans => chans = []) masks ->
      post_process_masks label masks threshold min_area = None).
Proof.
  intros Hlabel. unfold post_process_masks, pixelwise, binarise. cbv zeta. split.
  - induction 1 as [| chans masks Hc _ IH]; [now exists [] |].
    destruct IH as [out [Eout Hout]].
    destruct chans as [| mask rest]; [congruence |].
    cbn [map mapM]. rewrite post_process_step. cbn [bind].
    rewrite Eout. cbn [bind]. eexists. split; [reflexivity |].
    constructor; [| exact Hout]. constructor.
    + apply remove_small_related; [apply Hlabel |].
      apply Forall_map_all. intros row. apply Forall_map_all. intros v.
      apply binarised_pixel.
    + apply Forall2_same. apply Forall_map_all. intros chan.
      apply Forall2_same. apply Forall_map_all. intros row.
      apply Forall2_same. apply Forall_map_all. intros v.
      apply kept_or_cleared_refl, binarised_pixel.
  - induction 1 as [chans masks -> | chans masks _ IH]; [reflexivity |].
    cbn [map mapM]. destruct (map _ chans) as [| mask rest]; [reflexivity |].
    rewrite post_process_step. cbn [bind]. now rewrite IH.
Qed.

Lemma label_whole_shape {num : Type} (mask : list (list num)) :
  same_shape (fst (label_whole mask)) mask.
Proof.
  unfold label_whole, same_shape. cbn [fst].
  induction mask as [| row mask IH]; cbn [map]; constructor; [| exact IH].
  apply length_map.
Qed.

Lemma post_process_masks_shrinks_witness :
  (Forall (fun chans => chans <> []) [[square_mask]] ->
   exists out,
     post_process_masks label_whole [[square_mask]] 0.5%float 5 = Some out
     /\ pixelwise kept_or_cleared (binarise 0.5%float [[square_mask]]) out)
  /\ (Exists (fun chans => chans = []) [[square_mask]] ->
      post_process_masks label_whole [[square_mask]] 0.5%float 5 = None).
Proof.
  apply (post_process_masks_shrinks (num:=float) label_whole [[square_mask]]
           0.5%float 5).
  exact label_whole_shape.
Defined.

(** X13.  With [min_area] at most 0 no component is small:
    [post_process_masks] returns the thresholded masks, whatever the
    labelling. *)
Theorem post_process_masks_idle {num : Type} `{Numeric num}
    (label : list (list num) -> list (list Z) * nat)
    (masks : list (list (list (list num)))) (threshold : num) (min_area : Z) :
  min_area <= 0 ->
  Forall (fun chans => chans <> []) masks ->
  post_process_masks label masks threshold min_area
  = Some (binarise threshold masks).
Proof.
  intros Hm Hc. unfold post_process_masks, binarise. cbv zeta.
  induction Hc as [| chans masks Hc _ IH]; [reflexivity |].
  destruct chans as [| mask rest]; [congruence |].
  cbn [map mapM]. rewrite post_process_step. cbn [bind].
  rewrite IH. cbn [bind]. now rewrite remove_small_idle.
Qed.

Lemma post_process_masks_idle_witness :
  post_process_masks label_whole [[square_mask]] 0.5%float 0
  = Some (binarise 0.5%float [[square_mask]]).
Proof.
  apply (post_process_masks_idle (num:=float) label_whole [[square_mask]] 0.5%float 0).
  - lia.
  - repeat constructor. discriminate.
Defined.

(** ** The running average *)

Section MeterFacts.
Context {num : Type} `{Numeric num}.
Import AverageMeter.

Lemma total_weight_cons {A : Type} (c : A * Z) (calls : list (A * Z)) :
  total_weight (c :: calls) = snd c + total_weight calls.
Proof. reflexivity. Qed.

Lemma updates_run (calls : list (num * Z)) (self : t) :
  match updates self calls with
  | Returned r =>
      count r = count self + total_weight calls
      /\ count_never_zero (count self) calls
      /\ (settled self \/ calls <> [] -> settled r)
  | Raised r => count r = 0 /\ count_reaches_zero (count self) calls
  end.
Proof.
  revert self. induction calls as [| [v n] calls IH]; intros self.
  - cbn [updates]. unfold total_weight. cbn [fold_right].
    split; [lia | split].
    + intros k Hk. cbn [length] in Hk. lia.
    + intros [Hs | Hn]; [exact Hs | congruence].
  - cbn [updates]. unfold update. cbv zeta.
    destruct (Z.eqb_spec (count self + n) 0) as [E | E].
    + cbn [count]. split; [exact E |]. exists 1%nat. cbn [length]. split; [lia |].
      cbn [firstn]. rewrite total_weight_cons. unfold total_weight.
      cbn [fold_right snd]. lia.
    + match goal with
      | |- context [updates ?s calls] => specialize (IH s); set (self' := s) in *
      end.
      assert (Hs' : settled self') by (split; [exact E | reflexivity]).
      assert (Hstep : forall k,
                 count self + total_weight (firstn (S k) ((v, n) :: calls))
                 = count self' + total_weight (firstn k calls)).
      { intros k. cbn [firstn]. rewrite total_weight_cons.
        cbn [snd count self']. lia. }
      destruct (updates self' calls) as [r | r].
      * destruct IH as [Hc [Hnz Hlast]]. split; [| split].
        -- rewrite Hc, total_weight_cons. cbn [count self' snd]. lia.
        -- intros [| k] Hk; [lia |]. rewrite Hstep.
           destruct k as [| k].
           ++ unfold total_weight. cbn [firstn fold_right count self']. lia.
           ++ apply Hnz. cbn [length] in Hk. lia.
        -- intros _. apply Hlast. now left.
      * destruct IH as [Hc [k [Hk Hz]]]. split; [exact Hc |].
        exists (S k). split; [cbn [length]; lia |].
        rewrite Hstep. exact Hz.
Qed.
End MeterFacts.

(** X14.  A run of calls of [AverageMeter.update] returns exactly when the
    count is never zero after a call, and raises at the first call that
    makes it zero, leaving the count at zero.  After a run of at least one
    call that returned, the count is the count before plus the weights, and
    the average is the sum divided by the count. *)
Theorem meter_run {num : Type} `{Numeric num}
    (self : AverageMeter.t) (calls : list (num * Z)) :
  calls <> [] ->
  match AverageMeter.updates self calls with
  | Returned r =>
      AverageMeter.count r = AverageMeter.count self + total_weight calls
      /\ count_never_zero (AverageMeter.count self) calls
      /\ settled r
  | Raised r =>
      AverageMeter.count r = 0
      /\ count_reaches_zero (AverageMeter.count self) calls
  end.
Proof.
  intros Hne. pose proof (updates_run calls self) as Hrun.
  destruct (AverageMeter.updates self calls) as [r | r]; [| exact Hrun].
  destruct Hrun as [Hc [Hnz Hs]]. repeat split; try assumption; apply Hs; now right.
Qed.

Lemma meter_run_witness :
  match AverageMeter.updates AverageMeter.reset sample_calls with
  | Returned r =>
      AverageMeter.count r
      = AverageMeter.count (AverageMeter.reset (num:=float))
        + total_weight sample_calls
      /\ count_never_zero (AverageMeter.count (AverageMeter.reset (num:=float)))
           sample_calls
      /\ settled r
  | Raised r =>
      AverageMeter.count r = 0
      /\ count_reaches_zero (AverageMeter.count (AverageMeter.reset (num:=float)))
           sample_calls
  end.
Proof.
  apply (meter_run (num:=float) AverageMeter.reset sample_calls).
  discriminate.
Defined.

Section ExactMeter.
Local Open Scope Qc_scope.
Import AverageMeter.

Lemma Qc_of_Z_plus (n m : Z) : Qc_of_Z (n + m) = Qc_of_Z n + Qc_of_Z m.
Proof. apply Qc_is_canon. qc_to_q. rewrite inject_Z_plus. reflexivity. Qed.

Lemma updates_exact (calls : list (Qc * Z)) (self : t) (s : Qc) :
  sum self = Fin s -> (0 <= count self)%Z ->
  Forall (fun call => (0 < snd call)%Z) calls ->
  exists r, updates self (exact_calls calls) = Returned r
            /\ sum r = Fin (s + weighted_sum calls).
Proof.
  revert self s. induction calls as [| [v n] calls IH]; intros self s Hs Hc Hpos.
  - exists self. split; [reflexivity |]. rewrite Hs. f_equal.
    unfold weighted_sum. cbn [fold_right]. ring.
  - inversion Hpos as [| ? ? Hn Hpos']; subst. cbn [snd] in Hn.
    cbn [exact_calls map fst snd updates]. unfold update. cbv zeta.
    destruct (Z.eqb_spec (count self + n) 0) as [E | E]; [lia |].
    match goal with
    | |- context [updates ?s' _] =>
        destruct (IH s' (s + v * Qc_of_Z n)) as [r [Er Hr]]
    end.
    + cbn [sum]. rewrite Hs. reflexivity.
    + cbn [count]. lia.
    + exact Hpos'.
    + exists r. split; [exact Er |]. rewrite Hr. f_equal.
      unfold weighted_sum. cbn [fold_right fst snd]. ring.
Qed.

Lemma total_weight_pos (calls : list (Qc * Z)) :
  calls <> [] -> Forall (fun call => (0 < snd call)%Z) calls ->
  (0 < total_weight calls)%Z.
Proof.
  intros Hne Hpos. destruct calls as [| c calls]; [congruence |].
  inversion Hpos as [| ? ? Hc Hpos']; subst.
  rewrite total_weight_cons.
  assert (0 <= total_weight calls)%Z; [| lia].
  clear - Hpos'. induction Hpos' as [| c' calls Hc' _ IH]; [reflexivity |].
  rewrite total_weight_cons. lia.
Qed.

Lemma weighted_sum_bounds (lo hi : Qc) (calls : list (Qc * Z)) :
  Forall (fun call => (0 < snd call)%Z) calls ->
  Forall (fun call => lo <= fst call /\ fst call <= hi) calls ->
  lo * Qc_of_Z (total_weight calls) <= weighted_sum calls
  /\ weighted_sum calls <= hi * Qc_of_Z (total_weight calls).
Proof.
  intros Hpos Hb. induction calls as [| [v n] calls IH].
  - unfold weighted_sum, total_weight. cbn [fold_right].
    qc_to_q. change (inject_Z 0) with 0%Q. change (this 0) with 0%Q. split; lra.
  - inversion Hpos as [| ? ? Hn Hpos']; inversion Hb as [| ? ? Hv Hb']; subst.
    cbn [fst snd] in Hn, Hv. destruct (IH Hpos' Hb') as [IHlo IHhi].
    rewrite total_weight_cons, Qc_of_Z_plus. cbn [snd].
    change (weighted_sum ((v, n) :: calls))
      with (v * Qc_of_Z n + weighted_sum calls).
    assert (Hn' : 0 <= Qc_of_Z n).
    { pose proof (inject_Z_nonneg n ltac:(lia)). qc_to_q.
      now change (this 0) with 0%Q. }
    destruct Hv as [Hlo Hhi].
    pose proof (Qcmult_le_compat_r _ _ _ Hlo Hn') as H1.
    pose proof (Qcmult_le_compat_r _ _ _ Hhi Hn') as H2.
    split.
    + replace (lo * (Qc_of_Z n + Qc_of_Z (total_weight calls)))
        with (lo * Qc_of_Z n + lo * Qc_of_Z (total_weight calls)) by ring.
      now apply Qcplus_le_compat.
    + replace (hi * (Qc_of_Z n + Qc_of_Z (total_weight calls)))
        with (hi * Qc_of_Z n + hi * Qc_of_Z (total_weight calls)) by ring.
      now apply Qcplus_le_compat.
Qed.
End ExactMeter.

Lemma total_weight_exact_calls (calls : list (Qc * Z)) :
  total_weight (exact_calls calls) = total_weight calls.
Proof.
  induction calls as [| c calls IH]; [reflexivity |].
  cbn [exact_calls map]. rewrite !total_weight_cons. cbn [snd].
  fold (exact_calls calls). now rewrite IH.
Qed.

Lemma Qc_of_Z_pos (z : Z) : 0 < z -> (0 < Qc_of_Z z)%Qc.
Proof.
  intros Hz. pose proof (inject_Z_ge_1 z ltac:(lia)).
  qc_to_q. change (this 0%Qc) with 0%Q. lra.
Qed.

(** X15.  In exact arithmetic, after a fresh meter has been updated with
    values and positive weights, its average is the weighted mean of the
    values, the sum of [val * n] over the sum of the weights, and lies
    between any two bounds that enclose the values. *)
Theorem meter_weighted_mean (calls : list (Qc * Z)) :
  calls <> [] ->
  Forall (fun call => 0 < snd call) calls ->
  exists r,
    AverageMeter.updates AverageMeter.reset (exact_calls calls) = Returned r
    /\ AverageMeter.count r = total_weight calls
    /\ AverageMeter.avg r
       = Fin (weighted_sum calls / Qc_of_Z (total_weight calls))%Qc
    /\ forall lo hi : Qc,
         Forall (fun call => lo <= fst call /\ fst call <= hi)%Qc calls ->
         (lo <= weighted_sum calls / Qc_of_Z (total_weight calls)
          /\ weighted_sum calls / Qc_of_Z (total_weight calls) <= hi)%Qc.
Proof.
  intros Hne Hpos.
  assert (H0 : AverageMeter.sum (AverageMeter.reset (num:=exact)) = Fin 0%Qc)
    by reflexivity.
  destruct (updates_exact calls AverageMeter.reset 0%Qc H0 (Z.le_refl 0) Hpos)
    as [r [Er Hsum]].
  pose proof (updates_run (exact_calls calls) (AverageMeter.reset (num:=exact))) as Hrun.
  rewrite Er in Hrun. destruct Hrun as [Hc [_ Hs]].
  rewrite total_weight_exact_calls in Hc. cbn [AverageMeter.count AverageMeter.reset] in Hc.
  pose proof (total_weight_pos calls Hne Hpos) as Hw.
  pose proof (Qc_of_Z_pos _ Hw) as HW.
  exists r. split; [exact Er |]. split; [lia |]. split.
  - destruct Hs as [_ Havg].
    { right. destruct calls; [congruence | discriminate]. }
    rewrite Havg, Hsum, Hc. cbn [of_int exact_arith]. 
    rewrite exact_div_Fin by (apply Qc_pos_nonzero; exact HW).
    f_equal. f_equal. ring.
  - intros lo hi Hb.
    destruct (weighted_sum_bounds lo hi calls Hpos Hb) as [Hlo Hhi].
    revert Hlo Hhi HW. generalize (weighted_sum calls) (Qc_of_Z (total_weight calls)).
    intros ws n Hlo Hhi HW. qc_to_q. change (this 0%Qc) with 0%Q in HW. split.
    + apply Qle_shift_div_l; assumption.
    + apply Qle_shift_div_r; assumption.
Qed.

Lemma meter_weighted_mean_witness :
  exists r,
    AverageMeter.updates AverageMeter.reset (exact_calls sample_exact_calls)
    = Returned r
    /\ AverageMeter.count r = total_weight sample_exact_calls
    /\ AverageMeter.avg r
       = Fin (weighted_sum sample_exact_calls
              / Qc_of_Z (total_weight sample_exact_calls))%Qc
    /\ forall lo hi : Qc,
         Forall (fun call => lo <= fst call /\ fst call <= hi)%Qc sample_exact_calls ->
         (lo <= weighted_sum sample_exact_calls
                / Qc_of_Z (total_weight sample_exact_calls)
          /\ weighted_sum sample_exact_calls
             / Qc_of_Z (total_weight sample_exact_calls) <= hi)%Qc.
Proof.
  apply (meter_weighted_mean sample_exact_calls).
  - discriminate.
  - repeat constructor.
Defined.

(** ** The distance: symmetry and range *)

Lemma zipWith_flip {A B C : Type} (f : A -> B -> C) (a : list A) (b : list B) :
  zipWith f a b = zipWith (fun y x => f x y) b a.
Proof.
  revert b. induction a as [| a0 a IH]; intros [| b0 b]; cbn [zipWith]; try reflexivity.
  now rewrite IH.
Qed.

Lemma bcast_flip {A B C : Type} (f : A -> B -> C) (a : list A) (b : list B) :
  bcast f a b = bcast (fun y x => f x y) b a.
Proof.
  destruct a as [| a0 [| a1 a]], b as [| b0 [| b1 b]]; try reflexivity.
  unfold bcast. apply zipWith_flip.
Qed.

Lemma bcast_ext {A B C : Type} (f g : A -> B -> C) (a : list A) (b : list B) :
  (forall p q, f p q = g p q) -> bcast f a b = bcast g a b.
Proof.
  intros Hfg. unfold bcast.
  destruct a as [| a0 [| a1 a]], b as [| b0 [| b1 b]];
    first [ apply map_ext; intros; apply Hfg
          | apply zipWith_ext; exact Hfg
          | reflexivity ].
Qed.

Lemma bcast_pixels_comm (f : bool -> bool -> bool) (xi yj : onehot) :
  (forall a b, f a b = f b a) ->
  bcast (bcast f) xi yj = bcast (bcast f) yj xi.
Proof.
  intros Hf. rewrite bcast_flip. apply bcast_ext. intros p q.
  rewrite bcast_flip. apply bcast_ext. intros a b. apply Hf.
Qed.

Section PairDistanceFacts.
Context {num : Type} `{Numeric num}.

Lemma iou_class_comm (k : nat) (xi yj : onehot) :
  iou_class k xi yj = iou_class k yj xi.
Proof.
  unfold iou_class.
  now rewrite (bcast_pixels_comm andb xi yj andb_comm),
              (bcast_pixels_comm orb xi yj orb_comm).
Qed.

Lemma pair_distance_comm (nc : nat) (xi yj : onehot) :
  pair_distance nc xi yj = pair_distance nc yj xi.
Proof.
  unfold pair_distance. do 2 f_equal. apply map_ext. intros k. apply iou_class_comm.
Qed.

Lemma distance_pairs (oom : bool) (nc : nat) (x y : list onehot) :
  (oom = true -> x <> []) ->
  distance oom nc x y = Some (map (fun xi => map (pair_distance nc xi) y) x).
Proof.
  intros Hoom. destruct oom; [apply distance_chunked; now apply Hoom |].
  apply distance_full.
Qed.
End PairDistanceFacts.

(** X16.  [distance] is symmetric: [distance(y, x)] is the transpose of
    [distance(x, y)].  The entry for a map of [x] and a map of [y] is the
    same number in both, whichever of the two paths of [distance] ran. *)
Theorem distance_symmetric {num : Type} `{Numeric num}
    (oom oom' : bool) (nc : nat) (x y : list onehot) :
  (oom = true -> x <> []) -> (oom' = true -> y <> []) ->
  distance oom nc x y
  = Some (map (fun xi => map (fun yj => pair_distance nc xi yj) y) x)
  /\ distance oom' nc y x
     = Some (map (fun yj => map (fun xi => pair_distance nc xi yj) x) y).
Proof.
  intros Hx Hy. split; [now apply distance_pairs |].
  rewrite distance_pairs by exact Hy. f_equal.
  apply map_ext. intros yj. apply map_ext. intros xi. apply pair_distance_comm.
Qed.

Lemma distance_symmetric_witness :
  distance (num:=float) false 2 [two_pixels; two_pixels_repainted] [two_pixels]
  = Some (map (fun xi => map (fun yj => pair_distance 2 xi yj) [two_pixels])
              [two_pixels; two_pixels_repainted])
  /\ distance (num:=float) true 2 [two_pixels] [two_pixels; two_pixels_repainted]
     = Some (map (fun yj => map (fun xi => pair_distance 2 xi yj)
                              [two_pixels; two_pixels_repainted])
                 [two_pixels]).
Proof.
  apply (distance_symmetric (num:=float) false true 2
           [two_pixels; two_pixels_repainted] [two_pixels]).
  - discriminate.
  - discriminate.
Defined.

Section ExactRange.
Local Open Scope Qc_scope.

Lemma iou_unit (i u : Z) :
  (0 <= i <= u)%Z ->
  0 <= Qc_of_Z i / (Qc_of_Z u + smooth_exact)
  /\ Qc_of_Z i / (Qc_of_Z u + smooth_exact) < 1.
Proof.
  intros [Hi Hu]. pose proof (inject_Z_nonneg i Hi) as Hqi.
  assert (Hiu : (inject_Z i <= inject_Z u)%Q) by (rewrite <- Zle_Qle; exact Hu).
  qc_to_q. change (this 0) with 0%Q. change (this 1) with 1%Q.
  split.
  - apply Qle_shift_div_l; lra.
  - apply Qlt_shift_div_r; lra.
Qed.

Lemma iou_class_unit (k : nat) (xi yj : onehot) :
  exists q, iou_class (num:=exact) k xi yj = Fin q /\ 0 <= q /\ q < 1.
Proof.
  rewrite exact_iou_class. eexists. split; [reflexivity |].
  apply iou_unit. split; [apply class_count_nonneg | apply inter_le_union].
Qed.

Lemma pair_distance_unit (nc : nat) (xi yj : onehot) :
  (2 <= nc)%nat -> unit_distance (pair_distance nc xi yj).
Proof.
  intros Hnc. unfold pair_distance.
  set (l := map (fun k => iou_class (num:=exact) k xi yj) (seq 1 (nc - 1))).
  assert (Hl : l <> []).
  { unfold l. destruct nc as [| [| nc]]; try lia. discriminate. }
  assert (Hin : forall lo, lo < 0 -> within lo 1 (mean l)).
  { intros lo Hlo. apply within_mean; [exact Hl |].
    apply Forall_map, Forall_forall. intros k _.
    destruct (iou_class_unit k xi yj) as [q [-> [H0 H1]]].
    split; [| exact H1]. eapply Qclt_le_trans; eassumption. }
  pose proof (Hin (Q2Qc (-1 # 1)) eq_refl) as Hm.
  destruct (mean l) as [| m] eqn:Em; [contradiction |].
  assert (H0 : 0 <= m).
  { destruct (Qclt_le_dec m 0) as [Hneg | Hpos]; [| exact Hpos].
    destruct (Hin m Hneg) as [Hc _]. exfalso. apply (Qclt_not_le _ _ Hc), Qcle_refl. }
  destruct Hm as [_ H1].
  cbn [of_int sub exact_arith exact_lift2 unit_distance].
  qc_to_q. change (this 0) with 0%Q in *. change (this 1) with 1%Q in *.
  change (inject_Z 1) with 1%Q. split; lra.
Qed.
End ExactRange.

(** X17.  In exact arithmetic and with two classes or more, [distance]
    returns one row per map of [x] with one entry per map of [y], and every
    entry lies in (0, 1]: it is positive even for a map against itself. *)
Theorem distance_in_unit_interval (oom : bool) (nc : nat) (x y : list onehot) :
  (oom = true -> x <> []) -> (2 <= nc)%nat ->
  exists d,
    distance (num:=exact) oom nc x y = Some d
    /\ length d = length x
    /\ Forall (fun row => length row = length y /\ Forall unit_distance row) d.
Proof.
  intros Hoom Hnc. eexists. split; [now apply distance_pairs |].
  split; [apply length_map |].
  apply Forall_map_all. intros xi. split; [apply length_map |].
  apply Forall_map_all. intros yj. now apply pair_distance_unit.
Qed.

Lemma distance_in_unit_interval_witness :
  exists d,
    distance (num:=exact) true 2 [two_pixels; two_pixels_repainted] [two_pixels]
    = Some d
    /\ length d = length [two_pixels; two_pixels_repainted]
    /\ Forall (fun row => length row = length [two_pixels]
                          /\ Forall unit_distance row) d.
Proof.
  apply (distance_in_unit_interval true 2 [two_pixels; two_pixels_repainted]
           [two_pixels]).
  - discriminate.
  - lia.
Defined.

(** ** The per-sample distances *)

Lemma mapM_if {A B : Type} (f : A -> option B) (p : A -> bool) (g : A -> B)
    (l : list A) :
  (forall a, f a = if p a then Some (g a) else None) ->
  mapM f l = if forallb p l then Some (map g l) else None.
Proof.
  intros Hf. induction l as [| a l IH]; [reflexivity |].
  cbn [mapM forallb map]. rewrite Hf.
  destruct (p a); cbn [bind andb]; [| reflexivity].
  rewrite IH. now destruct (forallb p l).
Qed.

Lemma eye_row_spec (nc : nat) (k : Z) :
  eye_row nc k
  = if label_in_range nc k then Some (class_row nc (k mod Z.of_nat nc)) else None.
Proof.
  unfold eye_row, label_in_range, class_row.
  destruct (Z.leb_spec 0 k), (Z.ltb_spec k (Z.of_nat nc)),
           (Z.leb_spec (- Z.of_nat nc) k), (Z.ltb_spec k 0);
    cbn [andb]; try reflexivity; try lia.
  - now rewrite Z.mod_small by lia.
  - replace (k mod Z.of_nat nc) with (k + Z.of_nat nc); [reflexivity |].
    rewrite <- (Z.mod_small (k + Z.of_nat nc) (Z.of_nat nc)) by lia.
    rewrite <- (Z_mod_plus_full k 1 (Z.of_nat nc)). f_equal. lia.
Qed.

Lemma one_hot_spec (nc : nat) (d : list (list Z)) :
  one_hot nc d
  = if forallb (forallb (label_in_range nc)) d
    then Some (map (map (fun k => class_row nc (k mod Z.of_nat nc))) d)
    else None.
Proof.
  unfold one_hot. apply mapM_if. intros row.
  apply mapM_if. intros k. apply eye_row_spec.
Qed.

Section CalcFacts.
Context {num : Type} `{Numeric num}.

Lemma labels_in_range_flat (nc : nat) (d : list (list (list num))) :
  forallb (forallb (label_in_range nc)) (map (map to_int) (map (@concat num) d))
  = forallb (fun m => forallb (fun v => label_in_range nc (to_int v)) (concat m)) d.
Proof.
  induction d as [| m d IH]; [reflexivity |].
  cbn [map forallb]. rewrite IH. f_equal.
  induction (concat m) as [| v l IHl]; [reflexivity |].
  cbn [map forallb]. now rewrite IHl.
Qed.

Lemma class_maps_flat (nc : nat) (d : list (list (list num))) :
  map (map (fun k => class_row nc (k mod Z.of_nat nc)))
      (map (map to_int) (map (@concat num) d))
  = class_maps nc d.
Proof.
  unfold class_maps. rewrite !map_map. apply map_ext. intros m.
  now rewrite map_map.
Qed.

Lemma distance_mean (oom : bool) (nc : nat) (x y : list onehot) :
  x <> [] -> distance oom nc x y = Some (distance_pairwise nc x y).
Proof.
  intros Hx. destruct oom; [now apply distance_chunked | apply distance_full].
Qed.

Lemma calc_spec (oom : nat -> bool) (dist_0 dist_1 : list (list (list num)))
    (nc : nat) :
  calc_generalised_energy_distance oom dist_0 dist_1 nc
  = if labels_defined nc dist_0 && labels_defined nc dist_1
    then Some (mean_distance nc (class_maps nc dist_0) (class_maps nc dist_1),
               mean_distance nc (class_maps nc dist_0) (class_maps nc dist_0),
               mean_distance nc (class_maps nc dist_1) (class_maps nc dist_1))
    else None.
Proof.
  unfold calc_generalised_energy_distance, labels_defined, reshape_rows.
  destruct dist_0 as [| m0 dist_0]; [reflexivity |].
  destruct dist_1 as [| m1 dist_1].
  { cbn [bind length Nat.eqb negb andb]. now rewrite andb_false_r. }
  cbn [bind length Nat.eqb negb andb].
  rewrite !one_hot_spec, !labels_in_range_flat, !class_maps_flat.
  destruct (forallb _ (m0 :: dist_0)); cbn [bind andb]; [| reflexivity].
  destruct (forallb _ (m1 :: dist_1)); cbn [bind andb]; [| reflexivity].
  rewrite !distance_mean by (unfold class_maps; discriminate).
  reflexivity.
Qed.
End CalcFacts.

(** X18.  On two sets of maps of one shape (_, h, w) with a pixel at least,
    [calc_generalised_energy_distance] returns exactly when each of the two
    sets holds one map at least and every class index lies within
    [-num_classes, num_classes); it raises otherwise, in any arithmetic and
    on either path of [distance].  In exact arithmetic, where the order of
    a sum does not matter, the three results are the means of the pairwise
    distances of the one-hot maps, an index [k] counting as the class
    [k mod num_classes]: a negative index stands for a class counted from
    the last one. *)
Theorem calc_defined_on_labels_in_range :
  (forall (num : Type) (N : Numeric num) (oom : nat -> bool)
          (dist_0 dist_1 : list (list (list num))) (num_classes h w : nat),
     (0 < h)%nat -> (0 < w)%nat ->
     maps_of_shape h w dist_0 -> maps_of_shape h w dist_1 ->
     (labels_defined num_classes dist_0 && labels_defined num_classes dist_1 = true ->
      exists cross d_0 d_1,
        calc_generalised_energy_distance oom dist_0 dist_1 num_classes
        = Some (cross, d_0, d_1))
     /\ (labels_defined num_classes dist_0 && labels_defined num_classes dist_1 = false ->
         calc_generalised_energy_distance oom dist_0 dist_1 num_classes = None))
  /\ (forall (oom : nat -> bool) (dist_0 dist_1 : list (list (list exact)))
             (num_classes h w : nat),
        (0 < h)%nat -> (0 < w)%nat ->
        maps_of_shape h w dist_0 -> maps_of_shape h w dist_1 ->
        labels_defined num_classes dist_0 = true ->
        labels_defined num_classes dist_1 = true ->
        calc_generalised_energy_distance oom dist_0 dist_1 num_classes
        = Some (mean_distance num_classes (class_maps num_classes dist_0)
                  (class_maps num_classes dist_1),
                mean_distance num_classes (class_maps num_classes dist_0)
                  (class_maps num_classes dist_0),
                mean_distance num_classes (class_maps num_classes dist_1)
                  (class_maps num_classes dist_1))).
Proof.
  split.
  - intros num N oom dist_0 dist_1 nc h w _ _ _ _. rewrite calc_spec. split.
    + intros ->. now do 3 eexists.
    + now intros ->.
  - intros oom dist_0 dist_1 nc h w _ _ _ _ H0 H1.
    now rewrite calc_spec, H0, H1.
Qed.

Lemma calc_defined_on_labels_in_range_witness :
  calc_generalised_energy_distance (fun _ => true)
    [square_mask_exact] [square_mask_exact; square_mask_exact] 2
  = Some (mean_distance 2 (class_maps 2 [square_mask_exact])
            (class_maps 2 [square_mask_exact; square_mask_exact]),
          mean_distance 2 (class_maps 2 [square_mask_exact])
            (class_maps 2 [square_mask_exact]),
          mean_distance 2 (class_maps 2 [square_mask_exact; square_mask_exact])
            (class_maps 2 [square_mask_exact; square_mask_exact])).
Proof.
  apply (proj2 calc_defined_on_labels_in_range (fun _ => true)
           [square_mask_exact] [square_mask_exact; square_mask_exact] 2%nat 4%nat 4%nat).
  - lia.
  - lia.
  - repeat constructor.
  - repeat constructor.
  - reflexivity.
  - reflexivity.
Defined.

(** X19.  Class indices that differ by a multiple of [num_classes] are the
    same class to [calc_generalised_energy_distance]: two sets with, pixel
    by pixel, indices in range and congruent modulo [num_classes] yield the
    same three results against any other set. *)
Theorem calc_reads_labels_modulo {num : Type} `{Numeric num}
    (oom oom' : nat -> bool) (dist_0 dist_0' dist_1 : list (list (list num)))
    (num_classes : nat) :
  labels_defined num_classes dist_0 = true ->
  labels_defined num_classes dist_0' = true ->
  class_maps num_classes dist_0 = class_maps num_classes dist_0' ->
  calc_generalised_energy_distance oom dist_0 dist_1 num_classes
  = calc_generalised_energy_distance oom' dist_0' dist_1 num_classes.
Proof.
  intros H0 H0' E. rewrite !calc_spec, H0, H0', E. reflexivity.
Qed.

Lemma calc_reads_labels_modulo_witness :
  calc_generalised_energy_distance (fun _ => false)
    [[[0; 1]; [1; 0]]]%float sample_labels 2
  = calc_generalised_energy_distance (fun _ => true)
      [[[-2; -1]; [-1; -2]]]%float sample_labels 2.
Proof.
  apply (calc_reads_labels_modulo (num:=float) (fun _ => false) (fun _ => true)
           [[[0; 1]; [1; 0]]]%float [[[-2; -1]; [-1; -2]]]%float sample_labels 2).
  - reflexivity.
  - reflexivity.
  - reflexivity.
Defined.

(** ** The batch *)

Lemma mapM_none {A B : Type} (f : A -> option B) (l : list A) (a : A) :
  In a l -> f a = None -> mapM f l = None.
Proof.
  intros Hin Ha. induction l as [| b l IH]; [contradiction |].
  cbn [mapM]. destruct Hin as [-> | Hin].
  - now rewrite Ha.
  - destruct (f b); cbn [bind]; [| reflexivity]. now rewrite IH.
Qed.

Lemma mapM_ext_in {A B : Type} (f g : A -> option B) (l : list A) :
  (forall a, In a l -> f a = g a) -> mapM f l = mapM g l.
Proof.
  induction l as [| a l IH]; intros Hfg; [reflexivity |].
  cbn [mapM]. rewrite Hfg by (now left).
  rewrite IH by (intros b Hb; apply Hfg; now right). reflexivity.
Qed.

Lemma combine_seq_in {A : Type} (l : list A) (s i : nat) (a : A) :
  nth_error l i = Some a -> In ((s + i)%nat, a) (combine (seq s (length l)) l).
Proof.
  revert s i. induction l as [| b l IH]; intros s [| i] Hi; try discriminate.
  - injection Hi as ->. left. now rewrite Nat.add_0_r.
  - right. cbn [length seq combine]. replace (s + S i)%nat with (S s + i)%nat by lia.
    now apply IH.
Qed.

Lemma indexed_in {A : Type} (l : list A) (i : nat) (a : A) :
  nth_error l i = Some a -> In (i, a) (indexed l).
Proof. intros Hi. exact (combine_seq_in l 0 i a Hi). Qed.

Lemma nth_error_firstn_lt {A : Type} (l : list A) (n i : nat) :
  (i < n)%nat -> nth_error (firstn n l) i = nth_error l i.
Proof.
  revert n i. induction l as [| a l IH]; intros [| n] [| i] Hi;
    cbn [firstn nth_error]; try reflexivity; try lia.
  apply IH. lia.
Qed.

(** X20.  [generalized_energy_distance] goes through the batch of [labels]:
    it raises when [preds] holds fewer batch elements, and it does not look
    at the batch elements of [preds] beyond those of [labels]. *)
Theorem ged_follows_labels {num : Type} `{Numeric num}
    (oom : nat -> nat -> bool) (labels preds : list (list (list (list num))))
    (thresh : num) (num_classes : nat) :
  ((length preds < length labels)%nat ->
   generalized_energy_distance oom labels preds thresh num_classes = None)
  /\ generalized_energy_distance oom labels preds thresh num_classes
     = generalized_energy_distance oom labels (firstn (length labels) preds)
         thresh num_classes.
Proof.
  unfold generalized_energy_distance. cbv zeta. split.
  - intros Hlen.
    destruct (nth_error labels (length preds)) as [dist_0 |] eqn:E.
    2: { apply nth_error_None in E. lia. }
    rewrite (mapM_none _ _ (length preds, dist_0)); [reflexivity | |].
    + now apply indexed_in.
    + replace (nth_error (binarise thresh preds) (length preds)) with (@None (list (list (list num)))); [reflexivity |].
      symmetry. apply nth_error_None. unfold binarise. now rewrite length_map.
  - f_equal. apply mapM_ext_in. intros [i dist_0] Hin.
    apply in_indexed in Hin.
    assert (Hi : (i < length labels)%nat).
    { apply nth_error_Some. congruence. }
    unfold binarise. rewrite !nth_error_map, nth_error_firstn_lt by exact Hi.
    reflexivity.
Qed.

Lemma ged_follows_labels_witness :
  ((length [[square_mask]] < length [[square_mask]; [square_mask]])%nat ->
   generalized_energy_distance (fun _ _ => false) [[square_mask]; [square_mask]]
     [[square_mask]] 0.5%float 2 = None)
  /\ generalized_energy_distance (fun _ _ => false) [[square_mask]; [square_mask]]
       [[square_mask]] 0.5%float 2
     = generalized_energy_distance (fun _ _ => false) [[square_mask]; [square_mask]]
         (firstn (length [[square_mask]; [square_mask]]) [[square_mask]])
         0.5%float 2.
Proof.
  apply (ged_follows_labels (num:=float) (fun _ _ => false)
           [[square_mask]; [square_mask]] [[square_mask]] 0.5%float 2).
Defined.

(** ** The range of the metric *)

Lemma mapM_Forall {A B : Type} (f : A -> option B) (P : B -> Prop) (l : list A) :
  (forall a, In a l -> exists b, f a = Some b /\ P b) ->
  exists bs, mapM f l = Some bs /\ Forall P bs /\ length bs = length l.
Proof.
  induction l as [| a l IH]; intros Hf.
  - exists []. repeat split. constructor.
  - destruct (Hf a (or_introl eq_refl)) as [b [Eb Hb]].
    destruct IH as [bs [Ebs [Hbs Hlen]]]; [intros c Hc; apply Hf; now right |].
    exists (b :: bs). cbn [mapM]. rewrite Eb. cbn [bind]. rewrite Ebs. cbn [bind].
    repeat split; [now constructor | cbn [length]; congruence].
Qed.

Section ExactMetricRange.
Local Open Scope Qc_scope.

Lemma unit_distance_within (hi : Qc) (v : exact) :
  1 < hi -> unit_distance v -> within 0 hi v.
Proof.
  intros Hhi. destruct v as [| q]; [contradiction |].
  intros [H0 H1]. split; [exact H0 |]. eapply Qcle_lt_trans; eassumption.
Qed.

Lemma unit_mean (l : list exact) :
  l <> [] -> Forall unit_distance l -> unit_distance (mean l).
Proof.
  intros Hl Hu.
  assert (Hin : forall hi, 1 < hi -> within 0 hi (mean l)).
  { intros hi Hhi. apply within_mean; [exact Hl |].
    eapply Forall_impl; [| exact Hu]. intros v. now apply unit_distance_within. }
  pose proof (Hin (Q2Qc 2) eq_refl) as Hm.
  destruct (mean l) as [| m]; [contradiction |].
  destruct Hm as [H0 _]. split; [exact H0 |].
  destruct (Qclt_le_dec 1 m) as [Hgt | Hle]; [| exact Hle].
  destruct (Hin m Hgt) as [_ Hc]. exfalso. apply (Qclt_not_le _ _ Hc), Qcle_refl.
Qed.

Lemma mean_distance_unit (nc : nat) (x y : list onehot) :
  (2 <= nc)%nat -> x <> [] -> y <> [] -> unit_distance (mean_distance nc x y).
Proof.
  intros Hnc Hx Hy. unfold mean_distance. apply unit_mean.
  - destruct x as [| x0 x]; [congruence |]. destruct y as [| y0 y]; [congruence |].
    discriminate.
  - apply Forall_concat. unfold distance_pairwise.
    apply Forall_map_all. intros xi. apply Forall_map_all. intros yj.
    now apply pair_distance_unit.
Qed.

Lemma ged_of_unit_distances (c d0 d1 : exact) :
  unit_distance c -> unit_distance d0 -> unit_distance d1 ->
  within (Q2Qc (-2 # 1)) (Q2Qc 2) (of_int 2 * c - d0 - d1)%num.
Proof.
  destruct c as [| c], d0 as [| d0], d1 as [| d1]; try contradiction.
  intros [Hc0 Hc1] [H00 H01] [H10 H11].
  cbn [of_int mul sub exact_arith exact_lift2 within].
  qc_to_q. change (this 0) with 0%Q in *. change (this 1) with 1%Q in *.
  change (inject_Z 2) with 2%Q. split; lra.
Qed.

Lemma binarised_defined (nc : nat) (thresh : exact) (d : list (list (list exact))) :
  (2 <= nc)%nat -> d <> [] ->
  labels_defined nc
    (map (map (map (fun v => if ltb thresh v then of_int 1 else of_int 0))) d) = true.
Proof.
  intros Hnc Hd. unfold labels_defined. apply andb_true_iff. split.
  - rewrite length_map. destruct d; [congruence | reflexivity].
  - apply forallb_forall. intros m Hm. apply forallb_forall. intros v Hv.
    apply in_map_iff in Hm. destruct Hm as [m0 [<- _]].
    apply in_concat in Hv. destruct Hv as [row [Hrow Hv]].
    apply in_map_iff in Hrow. destruct Hrow as [row0 [<- _]].
    apply in_map_iff in Hv. destruct Hv as [v0 [<- _]].
    unfold label_in_range.
    destruct (ltb thresh v0).
    + change (to_int (of_int (num:=exact) 1)) with 1%Z.
      apply andb_true_iff. split; [apply Z.leb_le | apply Z.ltb_lt]; lia.
    + change (to_int (of_int (num:=exact) 0)) with 0%Z.
      apply andb_true_iff. split; [apply Z.leb_le | apply Z.ltb_lt]; lia.
Qed.

Lemma class_maps_nonempty (nc : nat) (d : list (list (list exact))) :
  labels_defined nc d = true -> class_maps nc d <> [].
Proof.
  unfold labels_defined, class_maps. destruct d; [discriminate | discriminate].
Qed.
End ExactMetricRange.

(** X21.  In exact arithmetic, for [labels] and [preds] of shapes
    (B, M, h, w) and (B', N, h, w) with a pixel at least, two classes or
    more, a batch of one element at least, a prediction set for every batch
    element, one map at least in every set and every class index of
    [labels] within [-num_classes, num_classes),
    [generalized_energy_distance] returns, on all paths of [distance], a
    number strictly between -2 and 2. *)
Theorem ged_between_minus_two_and_two
    (oom : nat -> nat -> bool) (labels preds : list (list (list (list exact))))
    (thresh : exact) (num_classes h w : nat) :
  (0 < h)%nat -> (0 < w)%nat ->
  Forall (maps_of_shape h w) labels ->
  Forall (maps_of_shape h w) preds ->
  (2 <= num_classes)%nat ->
  labels <> [] ->
  (length labels <= length preds)%nat ->
  Forall (fun dist_0 => labels_defined num_classes dist_0 = true) labels ->
  Forall (fun dist_1 => dist_1 <> []) preds ->
  exists ged,
    generalized_energy_distance oom labels preds thresh num_classes = Some ged
    /\ within (Q2Qc (-2 # 1)) (Q2Qc 2) ged.
Proof.
  intros _ _ _ _ Hnc Hl Hlen Hlab Hpred.
  unfold generalized_energy_distance. cbv zeta.
  match goal with
  | |- context [mapM ?f (indexed labels)] =>
      destruct (mapM_Forall f (within (Q2Qc (-2 # 1)) (Q2Qc 2)) (indexed labels))
        as [batch [Eb [Hb Hn]]]
  end.
  - intros [i dist_0] Hin. apply in_indexed in Hin.
    assert (Hi : (i < length preds)%nat).
    { assert (i < length labels)%nat by (apply nth_error_Some; congruence). lia. }
    destruct (nth_error preds i) as [dist_1 |] eqn:E1.
    2: { apply nth_error_None in E1. lia. }
    unfold binarise. rewrite nth_error_map, E1. cbn [option_map bind].
    rewrite calc_spec.
    rewrite Forall_forall in Hlab, Hpred.
    pose proof (Hlab _ (nth_error_In _ _ Hin)) as H0.
    pose proof (binarised_defined num_classes thresh dist_1 Hnc
                  (Hpred _ (nth_error_In _ _ E1))) as H1.
    rewrite H0, H1. cbn [andb bind]. eexists. split; [reflexivity |].
    pose proof (class_maps_nonempty _ _ H0). pose proof (class_maps_nonempty _ _ H1).
    apply ged_of_unit_distances; now apply mean_distance_unit.
  - rewrite Eb. cbn [bind]. eexists. split; [reflexivity |].
    apply within_mean; [| exact Hb].
    destruct batch; [| discriminate].
    unfold indexed in Hn. rewrite length_combine, length_seq, Nat.min_id in Hn.
    destruct labels; [congruence | discriminate].
Qed.

Lemma ged_between_minus_two_and_two_witness :
  exists ged,
    generalized_energy_distance (fun _ _ => true) [[square_mask_exact]]
      [[square_mask_exact; square_mask_exact]] (Fin (Q2Qc (1 # 2))) 2 = Some ged
    /\ within (Q2Qc (-2 # 1)) (Q2Qc 2) ged.
Proof.
  apply (ged_between_minus_two_and_two (fun _ _ => true) [[square_mask_exact]]
           [[square_mask_exact; square_mask_exact]] (Fin (Q2Qc (1 # 2))) 2 4 4).
  - lia.
  - lia.
  - repeat constructor.
  - repeat constructor.
  - lia.
  - discriminate.
  - cbn [length]. lia.
  - repeat constructor.
  - repeat constructor. discriminate.
Defined.

(** X22.  With fewer than two classes there is no class but the background,
    the mean over no class is 0 / 0, and on binary64 every entry of
    [distance] is NaN. *)
Theorem distance_without_foreground_is_nan
    (oom : bool) (nc : nat) (x y : list onehot) :
  (nc <= 1)%nat -> (oom = true -> x <> []) ->
  exists d,
    distance (num:=float) oom nc x y = Some d
    /\ length d = length x
    /\ Forall (fun row => length row = length y
                          /\ Forall (fun v => PrimFloat.is_nan v = true) row) d.
Proof.
  intros Hnc Hoom. eexists. split; [now apply distance_pairs |].
  split; [apply length_map |].
  apply Forall_map_all. intros xi. split; [apply length_map |].
  apply Forall_map_all. intros yj. unfold pair_distance.
  replace (nc - 1)%nat with 0%nat by lia. reflexivity.
Qed.

Lemma distance_without_foreground_is_nan_witness :
  exists d,
    distance (num:=float) true 1 [[[true]]; [[true]]] [[[true]]] = Some d
    /\ length d = length [[[true]]; [[true]]]
    /\ Forall (fun row => length row = length [[[true]]]
                          /\ Forall (fun v => PrimFloat.is_nan v = true) row) d.
Proof.
  apply (distance_without_foreground_is_nan true 1 [[[true]]; [[true]]] [[[true]]]).
  - lia.
  - discriminate.
Defined.

(** ** The labels as integers *)

Lemma mapM_combine_ext {A B : Type} (f : nat * A -> option B) (l l' : list A) (s : nat) :
  Forall2 (fun a a' => forall i, f (i, a) = f (i, a')) l l' ->
  mapM f (combine (seq s (length l)) l) = mapM f (combine (seq s (length l')) l').
Proof.
  intros Hl. revert s. induction Hl as [| a a' l l' Ha _ IH]; intros s; [reflexivity |].
  cbn [length seq combine mapM]. now rewrite Ha, IH.
Qed.

Section LabelIndices.
Context {num : Type} `{Numeric num}.

Lemma labels_defined_indices (nc : nat) (d : list (list (list num))) :
  labels_defined nc d
  = negb (length (map (map (map to_int)) d) =? 0)%nat
    && forallb (forallb (label_in_range nc))
         (map (@concat Z) (map (map (map to_int)) d)).
Proof.
  unfold labels_defined.
  now rewrite length_map, <- flatten_indices, labels_in_range_flat.
Qed.

Lemma class_maps_indices (nc : nat) (d : list (list (list num))) :
  class_maps nc d
  = map (map (fun k => class_row nc (k mod Z.of_nat nc)))
        (map (@concat Z) (map (map (map to_int)) d)).
Proof. now rewrite <- flatten_indices, class_maps_flat. Qed.

Lemma calc_indices (oom : nat -> bool) (dist_0 dist_0' dist_1 : list (list (list num)))
    (nc : nat) :
  map (map (map to_int)) dist_0 = map (map (map to_int)) dist_0' ->
  calc_generalised_energy_distance oom dist_0 dist_1 nc
  = calc_generalised_energy_distance oom dist_0' dist_1 nc.
Proof.
  intros E. rewrite !calc_spec.
  now rewrite (labels_defined_indices nc dist_0), (class_maps_indices nc dist_0), E,
              <- labels_defined_indices, <- class_maps_indices.
Qed.

Lemma class_indices_related (labels labels' : list (list (list (list num)))) :
  class_indices labels = class_indices labels' ->
  Forall2 (fun d d' => map (map (map to_int)) d = map (map (map to_int)) d')
          labels labels'.
Proof.
  unfold class_indices. revert labels'.
  induction labels as [| d labels IH]; intros [| d' labels'] E; try discriminate;
    constructor.
  - now injection E.
  - apply IH. now injection E.
Qed.
End LabelIndices.

(** X23.  [generalized_energy_distance] reads [labels] through
    [astype("int")] only: two label tensors whose entries have the same
    integer parts give the same result.  A label of 0.9 is the class 0,
    where a prediction of 0.9 is above a threshold of 0.5 and the class
    1. *)
Theorem ged_reads_labels_as_integers {num : Type} `{Numeric num}
    (oom : nat -> nat -> bool) (labels labels' preds : list (list (list (list num))))
    (thresh : num) (num_classes : nat) :
  class_indices labels = class_indices labels' ->
  generalized_energy_distance oom labels preds thresh num_classes
  = generalized_energy_distance oom labels' preds thresh num_classes.
Proof.
  intros E. apply class_indices_related in E.
  unfold generalized_energy_distance, indexed. cbv zeta. f_equal.
  apply mapM_combine_ext.
  eapply Forall2_impl; [| exact E]. cbv beta. intros d d' Ed i.
  destruct (nth_error (binarise thresh preds) i) as [dist_1 |]; [| reflexivity].
  cbn [bind]. now rewrite (calc_indices (oom i) d d' dist_1 num_classes Ed).
Qed.

Lemma ged_reads_labels_as_integers_witness :
  generalized_energy_distance (fun _ _ => false) soft_labels soft_labels 0.5%float 2
  = generalized_energy_distance (fun _ _ => false) hard_labels soft_labels 0.5%float 2.
Proof.
  apply (ged_reads_labels_as_integers (num:=float) (fun _ _ => false)
           soft_labels hard_labels soft_labels 0.5%float 2).
  reflexivity.
Defined.

(** ** The fallback of the distance *)

Section FallbackFacts.
Context {num : Type} `{Numeric num}.

Lemma calc_any_path (oom oom' : nat -> bool) (dist_0 dist_1 : list (list (list num)))
    (nc : nat) :
  calc_generalised_energy_distance oom dist_0 dist_1 nc
  = calc_generalised_energy_distance oom' dist_0 dist_1 nc.
Proof. now rewrite !calc_spec. Qed.

Lemma ged_any_path (oom oom' : nat -> nat -> bool)
    (labels preds : list (list (list (list num)))) (thresh : num) (nc : nat) :
  generalized_energy_distance oom labels preds thresh nc
  = generalized_energy_distance oom' labels preds thresh nc.
Proof.
  unfold generalized_energy_distance. cbv zeta. f_equal.
  apply mapM_ext_in. intros [i dist_0] _.
  destruct (nth_error (binarise thresh preds) i) as [dist_1 |]; [| reflexivity].
  cbn [bind]. now rewrite (calc_any_path (oom i) (oom' i)).
Qed.
End FallbackFacts.

(** C5.  The fallback of [distance] runs when the broadcast of the [try]
    block has raised [MemoryError], which a broadcast of no map, an array
    of no element, cannot do.  On every collection [x] with one map at
    least, the fallback, which goes through [x] one map at a time and
    concatenates, returns what the full broadcast returns, in any
    arithmetic.  The callers hand [distance] sets of one map at least: what
    [calc_generalised_energy_distance] and [generalized_energy_distance]
    return, or that they raise, does not depend on which calls of
    [distance] took the fallback. *)
Theorem distance_fallback_agrees {num : Type} `{Numeric num} :
  (forall (nc : nat) (x y : list onehot),
     x <> [] -> distance true nc x y = distance false nc x y)
  /\ (forall (oom oom' : nat -> bool) (dist_0 dist_1 : list (list (list num)))
             (num_classes : nat),
        calc_generalised_energy_distance oom dist_0 dist_1 num_classes
        = calc_generalised_energy_distance oom' dist_0 dist_1 num_classes)
  /\ (forall (oom oom' : nat -> nat -> bool)
             (labels preds : list (list (list (list num)))) (thresh : num)
             (num_classes : nat),
        generalized_energy_distance oom labels preds thresh num_classes
        = generalized_energy_distance oom' labels preds thresh num_classes).
Proof.
  split; [| split].
  - intros nc x y Hx. now rewrite distance_chunked, distance_full.
  - apply calc_any_path.
  - apply ged_any_path.
Qed.

Lemma distance_fallback_agrees_witness :
  distance (num:=float) true 2 [two_pixels; two_pixels_repainted] [two_pixels]
  = distance false 2 [two_pixels; two_pixels_repainted] [two_pixels].
Proof.
  apply (proj1 (distance_fallback_agrees (num:=float)) 2%nat
           [two_pixels; two_pixels_repainted] [two_pixels]).
  discriminate.
Defined.
